(** * parse-server: DatabaseController and MongoCollection

    A shallow embedding of [src/Controllers/DatabaseController.js] and of the
    [MongoCollection] wrapper, with the properties of the data access layer
    that the specification states about them.

    JavaScript values are modelled by the inductive type [json]; an object is
    the list of its own enumerable properties in enumeration order.  Promise
    chains are modelled by a state-and-error monad over the store and a log
    of the calls issued to the storage adapter. *)

From Stdlib Require Import List String Ascii ZArith Bool Lia Arith DecimalString.
Import ListNotations.
Local Open Scope string_scope.
Set Warnings "-register-all".

(* ================================================================== *)
(** ** JavaScript values *)
(* ================================================================== *)

Module JS.

Inductive json : Type :=
| JUndef : json
| JNull : json
| JBool : bool -> json
| JNum : Z -> json
| JStr : string -> json
| JArr : list json -> json
| JObj : list (string * json) -> json.

(** Own-property lookup in a property list: [o[k]], [undefined] when the
    key is absent. *)
Fixpoint assoc_get (k : string) (l : list (string * json)) : json :=
  match l with
  | [] => JUndef
  | (k', v) :: r => if String.eqb k k' then v else assoc_get k r
  end.

Fixpoint assoc_has (k : string) (l : list (string * json)) : bool :=
  match l with
  | [] => false
  | (k', _) :: r => if String.eqb k k' then true else assoc_has k r
  end.

(** [o[k] = v]: an existing property keeps its place, a new one goes last. *)
Fixpoint assoc_set (k : string) (v : json) (l : list (string * json))
  : list (string * json) :=
  match l with
  | [] => [(k, v)]
  | (k', v') :: r =>
      if String.eqb k k' then (k', v) :: r else (k', v') :: assoc_set k v r
  end.

(** [delete o[k]]. *)
Fixpoint assoc_delete (k : string) (l : list (string * json))
  : list (string * json) :=
  match l with
  | [] => []
  | (k', v') :: r =>
      if String.eqb k k' then assoc_delete k r else (k', v') :: assoc_delete k r
  end.

(** [Object.keys(o)] of a property list. *)
Definition assoc_keys (l : list (string * json)) : list string := map fst l.

(** Property read [v[k]] on an arbitrary value.  Reading a property of
    [undefined] or [null] throws a TypeError ([None]); properties of
    primitives and non-index properties of arrays read as [undefined]. *)
Definition get (k : string) (v : json) : option json :=
  match v with
  | JUndef | JNull => None
  | JObj l => Some (assoc_get k l)
  | _ => Some JUndef
  end.

(** ToBoolean. *)
Definition truthy (v : json) : bool :=
  match v with
  | JUndef | JNull => false
  | JBool b => b
  | JNum n => negb (Z.eqb n 0)
  | JStr s => negb (String.eqb s "")
  | JArr _ | JObj _ => true
  end.

(** [v == tag] for a string literal [tag] that is an identifier (non-empty,
    no comma): a string equal to [tag], or an array of one element whose
    string conversion is [tag]. *)
Fixpoint loose_eq_tag (tag : string) (v : json) : bool :=
  match v with
  | JStr s => String.eqb s tag
  | JArr [x] => loose_eq_tag tag x
  | _ => false
  end.

(** [typeof v == 'string']. *)
Definition is_string (v : json) : bool :=
  match v with JStr _ => true | _ => false end.

(** The elements visited by [for (x of v)]: the elements of an array, the
    characters of a string; anything else is not iterable (TypeError). *)
Fixpoint chars (s : string) : list json :=
  match s with
  | EmptyString => []
  | String c r => JStr (String c EmptyString) :: chars r
  end.

Definition iterate (v : json) : option (list json) :=
  match v with
  | JArr l => Some l
  | JStr s => Some (chars s)
  | _ => None
  end.

(** [k in v] for an object. *)
Definition has_key (k : string) (v : json) : bool :=
  match v with
  | JObj l => assoc_has k l
  | _ => false
  end.

End JS.
Import JS.

(* ================================================================== *)
(** ** Errors and the result of a promise *)
(* ================================================================== *)

(** A thrown value or a promise rejection.  Every error the code inspects
    or raises is an [Error] object with a [message]; [Parse.Error] and the
    driver's errors also carry a numeric [code]. *)
Inductive error_kind : Type :=
  ParseError | TypeError | DriverError | Unmodelled.

Record js_error : Type := mkError {
  err_kind : error_kind;
  err_code : option Z;
  err_message : string
}.

Inductive res (A : Type) : Type :=
| Ok : A -> res A
| Err : js_error -> res A.
Arguments Ok {A} _.
Arguments Err {A} _.

(** Error codes of the Parse SDK used by the controller. *)
Definition OBJECT_NOT_FOUND : Z := 101.
Definition INVALID_CLASS_NAME : Z := 103.

Definition parse_error (code : Z) (msg : string) : js_error :=
  mkError ParseError (Some code) msg.

Definition type_error (msg : string) : js_error :=
  mkError TypeError None msg.

Definition object_not_found : js_error :=
  parse_error OBJECT_NOT_FOUND "Object not found.".

(** The state-and-error monad of a promise chain over a state [S]: a step
    that fails leaves the state it reached and skips the rest of the chain. *)
Definition M (S A : Type) : Type := S -> S * res A.

Definition ret {S A} (a : A) : M S A := fun s => (s, Ok a).
Definition throw {S A} (e : js_error) : M S A := fun s => (s, Err e).
Definition bind {S A B} (m : M S A) (k : A -> M S B) : M S B :=
  fun s => match m s with
           | (s', Ok a) => k a s'
           | (s', Err e) => (s', Err e)
           end.
(** [p.catch(h)]. *)
Definition catch {S A} (m : M S A) (h : js_error -> M S A) : M S A :=
  fun s => match m s with
           | (s', Ok a) => (s', Ok a)
           | (s', Err e) => h e s'
           end.
(** A synchronous computation that may throw. *)
Definition lift_res {S A} (r : res A) : M S A := fun s => (s, r).
Definition or_type_error {S A} (msg : string) (o : option A) : M S A :=
  match o with Some a => ret a | None => throw (type_error msg) end.

Declare Scope promise_scope.
Delimit Scope promise_scope with promise.
Notation "x <- m ;; k" := (bind m (fun x => k))
  (at level 61, m at next level, right associativity) : promise_scope.
Notation "m ;;; k" := (bind m (fun _ => k))
  (at level 61, right associativity) : promise_scope.
Local Open Scope promise_scope.

(** [xs.map(f)] where each call may fail; calls run in order. *)
Fixpoint mapM {S A B} (f : A -> M S B) (l : list A) : M S (list B) :=
  match l with
  | [] => ret []
  | x :: r => y <- f x ;; ys <- mapM f r ;; ret (y :: ys)
  end.

(* ================================================================== *)
(** ** The storage adapter *)
(* ================================================================== *)

(** The [{ skip, limit, sort }] bag handed to the driver. *)
Record find_options : Type := mkOpts {
  skip : json;
  limit : json;
  sort : json
}.

Definition no_options : find_options := mkOpts JUndef JUndef JUndef.

(** The driver and the adapter are external: their operations act on a
    database state [DB] and resolve or reject.  Collections are named. *)
Class Store : Type := {
  DB : Type;
  (** [adapter.collection(name)] and [adapter.adaptiveCollection(name)] *)
  open_collection : string -> DB -> DB * res unit;
  (** [coll.find(query, opts).toArray()] *)
  driver_find : string -> json -> find_options -> DB -> DB * res (list json);
  driver_count : string -> json -> find_options -> DB -> DB * res json;
  driver_createIndex : string -> json -> DB -> DB * res unit;
  (** [coll.findAndModify(query, [], update, { new })], the driver's reply *)
  driver_findAndModify : string -> json -> json -> bool -> DB -> DB * res json;
  driver_insert : string -> list json -> DB -> DB * res json;
  (** [coll.update(filter, doc, options)] *)
  driver_update : string -> json -> json -> json -> DB -> DB * res json;
  (** [coll.remove(filter)], the driver's reply with [result.n] *)
  driver_remove : string -> json -> DB -> DB * res json
}.

(** The calls issued to the adapter and the driver, as a spy would record
    them. *)
Inductive call : Type :=
| CallCollection (name : string)
| CallAdaptiveCollection (name : string)
| CallSchemaLoad
| CallFind (coll : string) (query : json) (opts : find_options)
| CallCount (coll : string) (query : json) (opts : find_options)
| CallCreateIndex (coll : string) (index : json)
| CallFindAndModify (coll : string) (query update : json)
| CallInsert (coll : string) (docs : list json)
| CallUpdate (coll : string) (filter doc options : json)
| CallRemove (coll : string) (filter : json).

Section Connection.
Context {ST : Store}.

Record conn : Type := mkConn {
  db : DB;
  calls : list call
}.

(** Issue one call: log it and let the store answer. *)
Definition issue {A} (c : call) (op : DB -> DB * res A) : M conn A :=
  fun s => let (d, r) := op (db s) in (mkConn d (calls s ++ [c]), r).

End Connection.

(* ================================================================== *)
(** ** MongoCollection (the resilient collection) *)
(* ================================================================== *)

Module MongoCollection.

(** *** The two regular expressions of [find] *)

Fixpoint strip_prefix (p s : string) : option string :=
  match p with
  | EmptyString => Some s
  | String a p' =>
      match s with
      | String b s' => if Ascii.eqb a b then strip_prefix p' s' else None
      | EmptyString => None
      end
  end.

(** [.] matches any character but a line terminator. *)
Definition is_line_terminator (c : ascii) : bool :=
  (Nat.eqb (nat_of_ascii c) 10 || Nat.eqb (nat_of_ascii c) 13)%bool.

(** [/unable to find index for .geoNear/] matched at the start of [s]. *)
Definition geoNear_here (s : string) : bool :=
  match strip_prefix "unable to find index for " s with
  | Some (String c r) =>
      negb (is_line_terminator c) &&
      match strip_prefix "geoNear" r with Some _ => true | None => false end
  | _ => false
  end.

(** [s.match(/unable to find index for .geoNear/)] is not null. *)
Fixpoint match_geoNear (s : string) : bool :=
  geoNear_here s ||
  match s with
  | EmptyString => false
  | String _ r => match_geoNear r
  end.

(** [[A-Za-z_0-9]] *)
Definition is_word (c : ascii) : bool :=
  let n := nat_of_ascii c in
  ((Nat.leb 65 n && Nat.leb n 90) || (Nat.leb 97 n && Nat.leb n 122) ||
   Nat.eqb n 95 || (Nat.leb 48 n && Nat.leb n 57))%bool.

(** The longest run of word characters at the start of [s], and the rest. *)
Fixpoint span_word (s : string) : string * string :=
  match s with
  | EmptyString => (EmptyString, EmptyString)
  | String c r =>
      if is_word c
      then let (w, t) := span_word r in (String c w, t)
      else (EmptyString, s)
  end.

(** [/field=([A-Za-z_0-9]+) /] matched at the start of [s]; the capture.
    The class excludes the space, so only the longest run can be followed
    by one. *)
Definition field_here (s : string) : option string :=
  match strip_prefix "field=" s with
  | Some r =>
      match span_word r with
      | (String c w, String sp _) =>
          if Ascii.eqb sp " " then Some (String c w) else None
      | _ => None
      end
  | None => None
  end.

(** [s.match(/field=([A-Za-z_0-9]+) /)]: the capture of the leftmost match,
    [None] when [match] returns [null]. *)
Fixpoint match_field (s : string) : option string :=
  match field_here s with
  | Some w => Some w
  | None =>
      match s with
      | EmptyString => None
      | String _ r => match_field r
      end
  end.

Section Collection.
Context {ST : Store}.

(** A [MongoCollection] wraps the driver's collection of a given name. *)
Variable name : string.

Definition _rawFind (query : json) (opts : find_options) : M conn (list json) :=
  issue (CallFind name query opts) (driver_find name query opts).

Definition createIndex (index : json) : M conn unit :=
  issue (CallCreateIndex name index) (driver_createIndex name index).

(** [find(query, { skip, limit, sort })] *)
Definition find (query : json) (opts : find_options) : M conn (list json) :=
  catch (_rawFind query opts)
    (fun error =>
       if (negb (match err_code error with
                 | Some c => Z.eqb c 17007
                 | None => false
                 end)
           || negb (match_geoNear (err_message error)))%bool
       then throw error
       else
         key <- or_type_error "Cannot read property '1' of null"
                  (match_field (err_message error)) ;;
         if String.eqb key "" then throw error
         else
           createIndex (JObj [(key, JStr "2d")]) ;;;
           _rawFind query opts).

Definition count (query : json) (opts : find_options) : M conn json :=
  issue (CallCount name query opts) (driver_count name query opts).

(** [findOneAndUpdate(query, update)]: [document.value] of the reply to
    [findAndModify(query, [], update, { new: true })]. *)
Definition findOneAndUpdate (query update : json) : M conn json :=
  document <- issue (CallFindAndModify name query update)
                (driver_findAndModify name query update true) ;;
  or_type_error "Cannot read property 'value'" (get "value" document).

(** The error class [find] heals: code 17007 and a message that reports
    the missing index of a [$geoNear] query. *)
Definition missing_geo_index (e : js_error) : Prop :=
  err_code e = Some 17007%Z /\ match_geoNear (err_message e) = true.

End Collection.
End MongoCollection.

(* ================================================================== *)
(** ** Schema.js and transform.js *)
(* ================================================================== *)

(** The schema module and the transform module are collaborators of the
    controller; the controller only calls them.  A schema method or a
    transform that throws is an [Err]. *)
(** What [hasKeys] is handed: the array [Object.keys(query)], or the [Set]
    built by [keysForQuery], whose elements are keys or again sets. *)
Inductive key_collection : Type :=
| KeyArray : list string -> key_collection
| KeySet : list string -> key_collection
| SetOfSets : list key_collection -> key_collection.

Class Collaborators {ST : Store} : Type := {
  Schema : Type;
  (** [Schema.load(coll)] on the [_SCHEMA] collection *)
  Schema_load : DB -> DB * res Schema;
  classNameIsValid : string -> bool;
  (** [schema.getExpectedType(className, key)]: a type string or [undefined] *)
  getExpectedType : Schema -> string -> string -> json;
  hasKeys : Schema -> string -> key_collection -> bool;
  (** [schema.validatePermission(className, aclGroup, operation)] *)
  validatePermission : Schema -> string -> json -> string -> res unit;
  transformWhere : Schema -> string -> json -> res json;
  transformUpdate : Schema -> string -> json -> res json;
  transformCreate : Schema -> string -> json -> res json;
  transformKey : Schema -> string -> string -> res string;
  transform_untransformObject : Schema -> string -> json -> res json
}.

(* ================================================================== *)
(** ** More of JavaScript: string conversion, index keys *)
(* ================================================================== *)


Definition string_of_Z (n : Z) : string :=
  NilZero.string_of_int (Z.to_int n).

Definition string_of_nat (n : nat) : string :=
  NilZero.string_of_uint (Nat.to_uint n).

(** [String(v)], as a template literal or [String.prototype.concat] applies
    it.  An array joins its elements with commas, [null] and [undefined]
    elements as empty strings. *)
Fixpoint to_string (v : json) : string :=
  match v with
  | JUndef => "undefined"
  | JNull => "null"
  | JBool true => "true"
  | JBool false => "false"
  | JNum n => string_of_Z n
  | JStr s => s
  | JArr l =>
      (fix join (l : list json) : string :=
         match l with
         | [] => ""
         | x :: r =>
             let sx := match x with
                       | JUndef | JNull => ""
                       | _ => to_string x
                       end in
             match r with
             | [] => sx
             | _ => sx ++ "," ++ join r
             end
         end) l
  | JObj _ => "[object Object]"
  end.

(** The index properties ["0"], ["1"], ... of an array or a string. *)
Fixpoint index_props_from (i : nat) (l : list json) : list (string * json) :=
  match l with
  | [] => []
  | x :: r => (string_of_nat i, x) :: index_props_from (S i) r
  end.

Definition index_props (l : list json) : list (string * json) :=
  index_props_from 0 l.

(** The enumerable properties [for (k in v)] visits, with their values. *)
Definition enum_props (v : json) : list (string * json) :=
  match v with
  | JObj l => l
  | JArr l => index_props l
  | JStr s => index_props (chars s)
  | _ => []
  end.

(** [Object.keys(v)]; a TypeError on [undefined] and [null]. *)
Definition object_keys (v : json) : option (list string) :=
  match v with
  | JUndef | JNull => None
  | _ => Some (assoc_keys (enum_props v))
  end.

(** [a === b] on primitives; two objects or arrays met in different places
    of parsed data are never the same object. *)
Definition strict_eq (a b : json) : bool :=
  match a, b with
  | JUndef, JUndef => true
  | JNull, JNull => true
  | JBool x, JBool y => Bool.eqb x y
  | JNum x, JNum y => Z.eqb x y
  | JStr x, JStr y => String.eqb x y
  | _, _ => false
  end.

(** [hay.indexOf(needle) > -1] on strings. *)
Fixpoint contains (needle hay : string) : bool :=
  match MongoCollection.strip_prefix needle hay with
  | Some _ => true
  | None =>
      match hay with
      | EmptyString => false
      | String _ r => contains needle r
      end
  end.

(* ================================================================== *)
(** ** DatabaseController *)
(* ================================================================== *)

(** The recursion bound of the embedding was reached, or the code did
    something the value model cannot represent (a named property stored
    on an array).  Not a JavaScript error. *)
Definition unmodelled : js_error := mkError Unmodelled None "".

Module DatabaseController.

Section Controller.
Context {ST : Store} {CO : Collaborators}.

(** [this.collectionPrefix] *)
Variable collectionPrefix : string.

(** The controller: its connection and [this.schemaPromise].  In a chain
    that runs alone each promise has settled by the time the next step
    reads the field, so a promise is modelled by its outcome. *)
Record controller : Type := mkController {
  connection : conn;
  schemaPromise : option (res Schema)
}.

(** Run a step that only talks to the store. *)
Definition on_conn {A} (m : M conn A) : M controller A :=
  fun s => let (c, r) := m (connection s) in
           (mkController c (schemaPromise s), r).

Definition invalid_class_name (className : string) : js_error :=
  parse_error INVALID_CLASS_NAME ("invalid className: " ++ className).

Definition rawCollection (className : string) : M conn string :=
  let name := collectionPrefix ++ className in
  issue (CallCollection name) (open_collection name) ;;; ret name.

Definition collection (className : string) : M conn string :=
  if negb (classNameIsValid className)
  then throw (invalid_class_name className)
  else rawCollection className.

Definition adaptiveCollection (className : string) : M conn string :=
  let name := collectionPrefix ++ className in
  issue (CallAdaptiveCollection name) (open_collection name) ;;; ret name.

(** [this.schemaPromise = this.collection('_SCHEMA').then((coll) => {
       delete this.schemaPromise; return Schema.load(coll); })]
    followed to its outcome.  A synchronous throw of [collection] leaves
    the field as it was; a rejected handle leaves the rejected promise in
    the field; a resolved handle clears the field before the schema is
    read. *)
Definition start_load : M controller Schema :=
  fun s =>
    if negb (classNameIsValid "_SCHEMA")
    then (s, Err (invalid_class_name "_SCHEMA"))
    else
      match rawCollection "_SCHEMA" (connection s) with
      | (c, Err e) => (mkController c (Some (Err e)), Err e)
      | (c, Ok _) =>
          let (c', r) := issue CallSchemaLoad Schema_load c in
          (mkController c' None, r)
      end.

(** [loadSchema(acceptor = returnsTrue)] *)
Definition returnsTrue (_ : Schema) : res bool := Ok true.

Definition loadSchema (acceptor : Schema -> res bool) : M controller Schema :=
  fun s =>
    match schemaPromise s with
    | None => start_load s
    | Some p =>
        (schema <- lift_res p ;;
         accepted <- lift_res (acceptor schema) ;;
         if (accepted : bool) then ret schema else start_load) s
    end.

(** *** Relation edges *)

Definition join_class (key fromClassName : string) : string :=
  "_Join:" ++ key ++ ":" ++ fromClassName.

Definition edge_doc (fromId toId : json) : json :=
  JObj [("relatedId", toId); ("owningId", fromId)].

(** [addRelation(key, fromClassName, fromId, toId)].  The call of
    [collection] is synchronous; what it returns is the promise of the
    upsert, run later by [Promise.all]. *)
Definition addRelation (key fromClassName : string) (fromId toId : json)
  : M conn (M conn json) :=
  let doc := edge_doc fromId toId in
  let className := join_class key fromClassName in
  if negb (classNameIsValid className)
  then throw (invalid_class_name className)
  else
    let name := collectionPrefix ++ className in
    fun s =>
      let (s', opened) := issue (CallCollection name) (open_collection name) s in
      (s', Ok (lift_res opened ;;;
               issue (CallUpdate name doc doc (JObj [("upsert", JBool true)]))
                 (driver_update name doc doc (JObj [("upsert", JBool true)])))).

(** [removeRelation(key, fromClassName, fromId, toId)] *)
Definition removeRelation (key fromClassName : string) (fromId toId : json)
  : M conn (M conn json) :=
  let doc := edge_doc fromId toId in
  let className := join_class key fromClassName in
  if negb (classNameIsValid className)
  then throw (invalid_class_name className)
  else
    let name := collectionPrefix ++ className in
    fun s =>
      let (s', opened) := issue (CallCollection name) (open_collection name) s in
      (s', Ok (lift_res opened ;;;
               issue (CallRemove name doc) (driver_remove name doc))).

(** What the scan of an update collects: [pending] and [deleteMe]. *)
Definition scan : Type := (list (M conn json) * list string)%type.

Definition scan_nil : scan := ([], []).
Definition scan_app (a b : scan) : scan := ((fst a ++ fst b)%list, (snd a ++ snd b)%list).

(** The body of [if (op.__op == tag) { for (var object of op.objects)
    pending.push(edit(key, className, objectId, object.objectId));
    deleteMe.push(key); }] *)
Definition relation_edges
    (edit : string -> string -> json -> json -> M conn (M conn json))
    (tag : string) (className : string) (objectId : json)
    (props : list (string * json)) (key : string) : M conn scan :=
  if loose_eq_tag tag (assoc_get "__op" props)
  then
    objects <- or_type_error "op.objects is not iterable"
                 (iterate (assoc_get "objects" props)) ;;
    ps <- mapM (fun object =>
                  toId <- or_type_error "Cannot read property 'objectId'"
                            (get "objectId" object) ;;
                  edit key className objectId toId) objects ;;
    ret (ps, [key])
  else ret scan_nil.

(** [process(op, key)].  Only an object has an [__op]; the [ops] of a
    [Batch] are looked up in the property list and visited in order. *)
Fixpoint process (className : string) (objectId : json)
    (op : json) (key : string) {struct op} : M conn scan :=
  match op with
  | JObj props =>
      a <- relation_edges addRelation "AddRelation" className objectId props key ;;
      r <- relation_edges removeRelation "RemoveRelation" className objectId props key ;;
      b <- (if loose_eq_tag "Batch" (assoc_get "__op" props)
            then
              (fix ops_of (l : list (string * json)) : M conn scan :=
                 match l with
                 | [] => throw (type_error "op.ops is not iterable")
                 | (k, v) :: l' =>
                     if String.eqb "ops" k
                     then
                       match v with
                       | JArr xs =>
                           (fix each (xs : list json) : M conn scan :=
                              match xs with
                              | [] => ret scan_nil
                              | x :: xs' =>
                                  s1 <- process className objectId x key ;;
                                  s2 <- each xs' ;;
                                  ret (scan_app s1 s2)
                              end) xs
                       | JStr _ => ret scan_nil
                       | _ => throw (type_error "op.ops is not iterable")
                       end
                     else ops_of l'
                 end) props
            else ret scan_nil) ;;
      ret (scan_app a (scan_app r b))
  | _ => ret scan_nil
  end.

(** [for (var x of op.ops) process(x, key)] *)
Fixpoint process_each (className : string) (objectId : json)
    (xs : list json) (key : string) : M conn scan :=
  match xs with
  | [] => ret scan_nil
  | x :: xs' =>
      s1 <- process className objectId x key ;;
      s2 <- process_each className objectId xs' key ;;
      ret (scan_app s1 s2)
  end.

(** [for (var key in update) process(update[key], key)] *)
Fixpoint process_all (className : string) (objectId : json)
    (update : list (string * json)) : M conn scan :=
  match update with
  | [] => ret scan_nil
  | (key, op) :: rest =>
      s1 <- process className objectId op key ;;
      s2 <- process_all className objectId rest ;;
      ret (scan_app s1 s2)
  end.

(** [for (var key of deleteMe) delete update[key]] *)
Definition delete_keys (deleteMe : list string) (update : list (string * json))
  : list (string * json) :=
  fold_left (fun u key => assoc_delete key u) deleteMe update.

(** [Promise.all(pending)]: the pending promises in the order they were
    pushed. *)
Fixpoint all {S A} (pending : list (M S A)) : M S (list A) :=
  match pending with
  | [] => ret []
  | p :: r => x <- p ;; xs <- all r ;; ret (x :: xs)
  end.

(** [handleRelationUpdates(className, objectId, update)].  [update] is an
    object; the function mutates it, so the model returns the update it
    leaves behind. *)
Definition handleRelationUpdates (className : string) (objectId : json)
    (update : list (string * json)) : M conn (list (string * json)) :=
  let objectId := if truthy (assoc_get "objectId" update)
                  then assoc_get "objectId" update else objectId in
  sc <- process_all className objectId update ;;
  let update' := delete_keys (snd sc) update in
  all (fst sc) ;;;
  ret update'.

(** *** Relation reads *)

(** [joinTableName(className, key)], a template literal. *)
Definition joinTableName (className key : json) : string :=
  "_Join:" ++ to_string key ++ ":" ++ to_string className.

(** [results.map(r => r[field])] *)
Fixpoint pluck (field : string) (results : list json) : option (list json) :=
  match results with
  | [] => Some []
  | r :: rest =>
      match get field r, pluck field rest with
      | Some x, Some xs => Some (x :: xs)
      | _, _ => None
      end
  end.

(** [relatedIds(className, key, owningId)] *)
Definition relatedIds (className key owningId : json) : M conn (list json) :=
  coll <- adaptiveCollection (joinTableName className key) ;;
  results <- MongoCollection.find coll (JObj [("owningId", owningId)]) no_options ;;
  or_type_error "Cannot read property 'relatedId'" (pluck "relatedId" results).

(** [owningIds(className, key, relatedIds)] *)
Definition owningIds (className key : string) (relatedIds : list json)
  : M conn (list json) :=
  coll <- adaptiveCollection (joinTableName (JStr className) (JStr key)) ;;
  results <- MongoCollection.find coll
               (JObj [("relatedId", JObj [("$in", JArr relatedIds)])]) no_options ;;
  or_type_error "Cannot read property 'owningId'" (pluck "owningId" results).

(** [recv.concat(ids)] for an array [ids]: array concatenation, string
    concatenation on a string, no such method otherwise. *)
Definition js_concat (recv : json) (ids : list json) : option json :=
  match recv with
  | JArr l => Some (JArr (l ++ ids)%list)
  | JStr s => Some (JStr (s ++ to_string (JArr ids)))
  | _ => None
  end.

(** [v[k]] for a [v] known to be neither [undefined] nor [null]. *)
Definition prop (k : string) (v : json) : json :=
  match get k v with Some x => x | None => JUndef end.

(** *** reduceRelationKeys *)

(** The [then] callback after [relatedIds]: the query without
    [$relatedTo] and with its [objectId] replaced. *)
Definition relatedTo_rewrite (props : list (string * json)) (ids : list json)
  : option (list (string * json)) :=
  let props1 := assoc_delete "$relatedTo" props in
  let objectId := if truthy (assoc_get "objectId" props1)
                  then assoc_get "objectId" props1 else JObj [] in
  let queryIn := if truthy (prop "$in" objectId)
                 then prop "$in" objectId else JArr [] in
  match js_concat queryIn ids with
  | Some queryIn' =>
      Some (assoc_set "objectId" (JObj [("$in", queryIn')]) props1)
  | None => None
  end.

(** [reduceRelationKeys(className, query)].  The query is mutated in
    place; the model returns the query it leaves behind.  The branches of
    [Promise.all] run one after the other, in order.  [fuel] bounds the
    nesting of calls. *)
Fixpoint reduceRelationKeys (fuel : nat) (className : string) (query : json)
  : M conn json :=
  match fuel with
  | O => throw unmodelled
  | S fuel' =>
      match query with
      | JUndef | JNull => throw (type_error "Cannot read property '$or'")
      | JObj props =>
          if truthy (assoc_get "$or" props)
          then
            match assoc_get "$or" props with
            | JArr branches =>
                bs <- mapM (reduceRelationKeys fuel' className) branches ;;
                ret (JObj (assoc_set "$or" (JArr bs) props))
            | _ => throw (type_error "query.$or.map is not a function")
            end
          else
            let relatedTo := assoc_get "$relatedTo" props in
            if truthy relatedTo
            then
              let object := prop "object" relatedTo in
              cn <- or_type_error "Cannot read property 'className'"
                      (get "className" object) ;;
              ids <- relatedIds cn (prop "key" relatedTo) (prop "objectId" object) ;;
              props' <- or_type_error "queryIn.concat is not a function"
                          (relatedTo_rewrite props ids) ;;
              reduceRelationKeys fuel' className (JObj props')
            else ret query
      | _ => ret query
      end
  end.

(** *** reduceInRelation *)

(** The type string [t] matches the relation pattern: [relation<], any
    characters but line terminators, and a final [>]. *)
Fixpoint body_then_gt (r : string) : bool :=
  match r with
  | EmptyString => false
  | String c EmptyString => Ascii.eqb c ">"
  | String c r' => negb (MongoCollection.is_line_terminator c) && body_then_gt r'
  end.

Definition is_relation_type (t : string) : bool :=
  match MongoCollection.strip_prefix "relation<" t with
  | Some r => body_then_gt r
  | None => false
  end.

(** The synchronous part of the [map] callback for one key: [None] when
    the key is left alone, the related ids to look up otherwise. *)
Definition relation_constraint (schema : Schema) (className : string)
    (kv : string * json) : res (option (string * list json)) :=
  let (key, v) := kv in
  if (truthy v &&
      (truthy (prop "$in" v) || loose_eq_tag "Pointer" (prop "__type" v)))%bool
  then
    let t := getExpectedType schema className key in
    match (if truthy t
           then match t with
                | JStr s => Some (is_relation_type s)
                | _ => None
                end
           else Some false) with
    | None => Err (type_error "t.match is not a function")
    | Some false => Ok None
    | Some true =>
        if truthy (prop "$in" v)
        then
          match prop "$in" v with
          | JArr rs =>
              match pluck "objectId" rs with
              | Some ids => Ok (Some (key, ids))
              | None => Err (type_error "Cannot read property 'objectId'")
              end
          | _ => Err (type_error "query[key].$in.map is not a function")
          end
        else Ok (Some (key, [prop "objectId" v]))
    end
  else Ok None.

Fixpoint relation_constraints (schema : Schema) (className : string)
    (kvs : list (string * json)) : res (list (string * list json)) :=
  match kvs with
  | [] => Ok []
  | kv :: rest =>
      match relation_constraint schema className kv with
      | Err e => Err e
      | Ok o =>
          match relation_constraints schema className rest with
          | Err e => Err e
          | Ok l => Ok (match o with Some c => c :: l | None => l end)
          end
      end
  end.

(** [Object.assign({'$in': []}, src)] *)
Definition assign_in_default (src : json) : list (string * json) :=
  match src with
  | JObj l => fold_left (fun acc kv => assoc_set (fst kv) (snd kv) acc) l
                [("$in", JArr [])]
  | JArr xs => (index_props xs ++ [("$in", JArr [])])%list
  | JStr s => (index_props (chars s) ++ [("$in", JArr [])])%list
  | _ => [("$in", JArr [])]
  end.

(** The [then] callback after [owningIds] for one key. *)
Definition owning_rewrite (key : string) (ids : list json)
    (props : list (string * json)) : option (list (string * json)) :=
  let props1 := assoc_delete key props in
  let objectId := assign_in_default (assoc_get "objectId" props1) in
  match js_concat (assoc_get "$in" objectId) ids with
  | Some in' =>
      Some (assoc_set "objectId" (JObj (assoc_set "$in" in' objectId)) props1)
  | None => None
  end.

(** The callbacks of the keys found by the scan, in key order; each read
    of the join table is followed to its end before the next. *)
Fixpoint resolve_constraints (className : string)
    (pending : list (string * list json)) (props : list (string * json))
  : M conn (list (string * json)) :=
  match pending with
  | [] => ret props
  | (key, rel) :: rest =>
      ids <- owningIds className key rel ;;
      props' <- or_type_error "query.objectId.$in.concat is not a function"
                  (owning_rewrite key ids props) ;;
      resolve_constraints className rest props'
  end.

(** [reduceInRelation(className, query, schema)]: the query it leaves
    behind and the value its promise resolves to. *)
Fixpoint reduceInRelation (fuel : nat) (className : string) (query : json)
    (schema : Schema) : M conn (json * json) :=
  match fuel with
  | O => throw unmodelled
  | S fuel' =>
      match query with
      | JUndef | JNull => throw (type_error "Cannot read property '$or'")
      | JObj props =>
          if truthy (assoc_get "$or" props)
          then
            match assoc_get "$or" props with
            | JArr ors =>
                rs <- mapM (fun aQuery =>
                              reduceInRelation fuel' className aQuery schema) ors ;;
                ret (JObj (assoc_set "$or" (JArr (map snd rs)) props),
                     JArr (map (fun _ => JUndef) ors))
            | _ => throw (type_error "ors.map is not a function")
            end
          else
            pending <- lift_res (relation_constraints schema className props) ;;
            props' <- resolve_constraints className pending props ;;
            ret (JObj props', JObj props')
      | _ =>
          pending <- lift_res (relation_constraints schema className
                                 (enum_props query)) ;;
          match pending with
          | [] => ret (query, query)
          | _ => throw unmodelled
          end
      end
  end.

(** The two rewriting steps as [find] chains them:
    [reduceRelationKeys], then [reduceInRelation] on the same query. *)
Definition resolve_relations (fuel : nat) (className : string) (query : json)
    (schema : Schema) : M conn json :=
  query1 <- reduceRelationKeys fuel className query ;;
  reduced <- reduceInRelation fuel className query1 schema ;;
  ret (fst reduced).

(** *** The four operations *)

(** [keysForQuery(query)].  [memo.concat(aSet)] appends the set itself,
    so a query with a sublist yields a set of the sets of its branches. *)
Fixpoint keysForQuery (fuel : nat) (query : json) : res key_collection :=
  match fuel with
  | O => Err unmodelled
  | S fuel' =>
      match get "$and" query with
      | None => Err (type_error "Cannot read property '$and'")
      | Some and_ =>
          let sublist := if truthy and_ then and_ else prop "$or" query in
          if truthy sublist
          then
            match sublist with
            | JArr subs =>
                match
                  (fix each (l : list json) : res (list key_collection) :=
                     match l with
                     | [] => Ok []
                     | q :: r =>
                         match keysForQuery fuel' q, each r with
                         | Ok k, Ok ks => Ok (k :: ks)
                         | Err e, _ => Err e
                         | _, Err e => Err e
                         end
                     end) subs
                with
                | Ok ks => Ok (SetOfSets ks)
                | Err e => Err e
                end
            | _ => Err (type_error "sublist.reduce is not a function")
            end
          else
            match object_keys query with
            | Some ks => Ok (KeySet ks)
            | None => Err (type_error "Cannot convert undefined or null to object")
            end
      end
  end.

(** [this.untransformObject(schema, isMaster, aclGroup, className, mongoObject)] *)
Definition acl_index_of (aclGroup needle : json) : bool :=
  match aclGroup with
  | JArr l => existsb (strict_eq needle) l
  | JStr s => contains (to_string needle) s
  | _ => false
  end.

Definition delete_prop (k : string) (v : json) : json :=
  match v with
  | JObj l => JObj (assoc_delete k l)
  | _ => v
  end.

Definition untransformObject (schema : Schema) (isMaster : bool)
    (aclGroup : json) (className : string) (mongoObject : json) : res json :=
  match transform_untransformObject schema className mongoObject with
  | Err e => Err e
  | Ok object =>
      if negb (String.eqb className "_User") then Ok object
      else if isMaster then Ok object
      else
        match get "objectId" object with
        | None => Err (type_error "Cannot read property 'objectId'")
        | Some oid =>
            if acl_index_of aclGroup oid then Ok object
            else Ok (delete_prop "sessionToken" (delete_prop "authData" object))
        end
  end.

(** [var isMaster = !('acl' in options); var aclGroup = options.acl || [];] *)
Definition isMaster_of (options : list (string * json)) : bool :=
  negb (assoc_has "acl" options).

Definition aclGroup_of (options : list (string * json)) : json :=
  if truthy (assoc_get "acl" options) then assoc_get "acl" options else JArr [].

(** The write-permission disjunction conjoined when [options.acl] is set. *)
Definition with_write_perms (options : list (string * json)) (mongoWhere : json)
  : res json :=
  if truthy (assoc_get "acl" options)
  then
    match iterate (assoc_get "acl" options) with
    | None => Err (type_error "options.acl is not iterable")
    | Some entries =>
        let writePerms :=
          (JObj [("_wperm", JObj [("$exists", JBool false)])]
           :: map (fun entry => JObj [("_wperm", JObj [("$in", JArr [entry])])])
                entries) in
        Ok (JObj [("$and", JArr [mongoWhere; JObj [("$or", JArr writePerms)]])])
    end
  else Ok mongoWhere.

(** [if (!isMaster) return schema.validatePermission(...); return Promise.resolve();] *)
Definition check_permission (schema : Schema) (isMaster : bool)
    (className : string) (aclGroup : json) (op : string) : res unit :=
  if negb isMaster then validatePermission schema className aclGroup op
  else Ok tt.

(** [schema.hasKeys(className, Object.keys(query))] *)
Definition update_acceptor (className : string) (query : json)
    (schema : Schema) : res bool :=
  match object_keys query with
  | Some ks => Ok (hasKeys schema className (KeyArray ks))
  | None => Err (type_error "Cannot convert undefined or null to object")
  end.

(** [update(className, query, update, options)], up to the reply of
    [findOneAndUpdate]: the translated update and the document found. *)
Definition update_findOneAndUpdate (className : string) (query : json)
    (update : list (string * json)) (options : list (string * json))
  : M controller (json * json) :=
  let acceptor := update_acceptor className query in
  let isMaster := isMaster_of options in
  let aclGroup := aclGroup_of options in
  schema <- loadSchema acceptor ;;
  lift_res (check_permission schema isMaster className aclGroup "update") ;;;
  objectId <- or_type_error "Cannot read property 'objectId'"
                (get "objectId" query) ;;
  update' <- on_conn (handleRelationUpdates className objectId update) ;;
  collection <- on_conn (adaptiveCollection className) ;;
  mongoWhere <- lift_res (transformWhere schema className query) ;;
  mongoWhere <- lift_res (with_write_perms options mongoWhere) ;;
  mongoUpdate <- lift_res (transformUpdate schema className (JObj update')) ;;
  result <- on_conn (MongoCollection.findOneAndUpdate collection mongoWhere mongoUpdate) ;;
  ret (mongoUpdate, result).

(** The last [then] callback of [update]. *)
Definition update_response (mongoUpdate result : json) : res json :=
  if negb (truthy result) then Err object_not_found
  else
    match get "$inc" mongoUpdate with
    | None => Err (type_error "Cannot read property '$inc'")
    | Some inc =>
        if truthy inc
        then
          Ok (JObj (fold_left (fun response key =>
                                 assoc_set key (prop key result) response)
                      (assoc_keys (enum_props inc)) []))
        else Ok (JObj [])
    end.

Definition update (className : string) (query : json)
    (update : list (string * json)) (options : list (string * json))
  : M controller json :=
  found <- update_findOneAndUpdate className query update options ;;
  lift_res (update_response (fst found) (snd found)).

(** [destroy(className, query, options = {})], up to the reply of
    [coll.remove]. *)
Definition destroy_remove (className : string) (query : json)
    (options : list (string * json)) : M controller json :=
  let isMaster := isMaster_of options in
  let aclGroup := aclGroup_of options in
  schema <- loadSchema returnsTrue ;;
  lift_res (check_permission schema isMaster className aclGroup "delete") ;;;
  coll <- on_conn (collection className) ;;
  mongoWhere <- lift_res (transformWhere schema className query) ;;
  mongoWhere <- lift_res (with_write_perms options mongoWhere) ;;
  on_conn (issue (CallRemove coll mongoWhere) (driver_remove coll mongoWhere)).

(** The last [then] callback of [destroy]:
    [resp.result.n === 0 && className !== "_Session"] rejects. *)
Definition destroy_response (className : string) (resp : json) : res unit :=
  match get "result" resp with
  | None => Err (type_error "Cannot read property 'result'")
  | Some result =>
      match get "n" result with
      | None => Err (type_error "Cannot read property 'n'")
      | Some n =>
          if (strict_eq n (JNum 0) && negb (String.eqb className "_Session"))%bool
          then Err object_not_found
          else Ok tt
      end
  end.

Definition destroy (className : string) (query : json)
    (options : list (string * json)) : M controller unit :=
  resp <- destroy_remove className query options ;;
  lift_res (destroy_response className resp).

(** [create(className, object, options)] *)
Definition create (className : string) (object : list (string * json))
    (options : list (string * json)) : M controller json :=
  let isMaster := isMaster_of options in
  let aclGroup := aclGroup_of options in
  schema <- loadSchema returnsTrue ;;
  lift_res (check_permission schema isMaster className aclGroup "create") ;;;
  object' <- on_conn (handleRelationUpdates className JNull object) ;;
  coll <- on_conn (collection className) ;;
  mongoObject <- lift_res (transformCreate schema className (JObj object')) ;;
  on_conn (issue (CallInsert coll [mongoObject]) (driver_insert coll [mongoObject])).

(** The sort option translated key by key:
    [mongoOptions.sort[transformKey(schema, className, key)] = options.sort[key]]. *)
Fixpoint transform_sort (schema : Schema) (className : string)
    (entries : list (string * json)) (acc : list (string * json))
  : res (list (string * json)) :=
  match entries with
  | [] => Ok acc
  | (key, v) :: rest =>
      match transformKey schema className key with
      | Err e => Err e
      | Ok mongoKey => transform_sort schema className rest (assoc_set mongoKey v acc)
      end
  end.

Definition mongo_sort (schema : Schema) (className : string)
    (options : list (string * json)) : res json :=
  if truthy (assoc_get "sort" options)
  then
    match transform_sort schema className
            (enum_props (assoc_get "sort" options)) [] with
    | Ok l => Ok (JObj l)
    | Err e => Err e
    end
  else Ok JUndef.

Definition truthy_or_undef (v : json) : json :=
  if truthy v then v else JUndef.

(** The action whose permission [find] asks for. *)
Definition find_op (query : json) : res string :=
  match object_keys query with
  | None => Err (type_error "Cannot convert undefined or null to object")
  | Some k =>
      if (Nat.eqb (List.length k) 1 && is_string (prop "objectId" query))%bool
      then Ok "get" else Ok "find"
  end.

(** The read-permission disjunction conjoined for a caller with an ACL. *)
Definition with_read_perms (isMaster : bool) (aclGroup mongoWhere : json)
  : res json :=
  if negb isMaster
  then
    match iterate aclGroup with
    | None => Err (type_error "aclGroup is not iterable")
    | Some acls =>
        let orParts :=
          (JObj [("_rperm", JObj [("$exists", JBool false)])]
           :: JObj [("_rperm", JObj [("$in", JArr [JStr "*"])])]
           :: map (fun acl => JObj [("_rperm", JObj [("$in", JArr [acl])])]) acls) in
        Ok (JObj [("$and", JArr [mongoWhere; JObj [("$or", JArr orParts)]])])
    end
  else Ok mongoWhere.

Fixpoint untransform_all (schema : Schema) (isMaster : bool) (aclGroup : json)
    (className : string) (mongoResults : list json) : res (list json) :=
  match mongoResults with
  | [] => Ok []
  | r :: rest =>
      match untransformObject schema isMaster aclGroup className r with
      | Err e => Err e
      | Ok o =>
          match untransform_all schema isMaster aclGroup className rest with
          | Err e => Err e
          | Ok os => Ok (o :: os)
          end
      end
  end.

(** [schema.hasKeys(className, keysForQuery(query))] *)
Definition find_acceptor (fuel : nat) (className : string) (query : json)
    (schema : Schema) : res bool :=
  match keysForQuery fuel query with
  | Ok ks => Ok (hasKeys schema className ks)
  | Err e => Err e
  end.

(** [find(className, query, options = {})]; [fuel] bounds the nesting of
    the recursive rewriting of the query. *)
Definition find (fuel : nat) (className : string) (query : json)
    (options : list (string * json)) : M controller json :=
  let isMaster := isMaster_of options in
  let aclGroup := aclGroup_of options in
  let acceptor := find_acceptor fuel className query in
  schema <- loadSchema acceptor ;;
  sort_ <- lift_res (mongo_sort schema className options) ;;
  let mongoOptions := mkOpts (truthy_or_undef (assoc_get "skip" options))
                             (truthy_or_undef (assoc_get "limit" options))
                             sort_ in
  (if negb isMaster
   then op <- lift_res (find_op query) ;;
        lift_res (validatePermission schema className aclGroup op)
   else ret tt) ;;;
  query2 <- on_conn (resolve_relations fuel className query schema) ;;
  collection <- on_conn (adaptiveCollection className) ;;
  mongoWhere <- lift_res (transformWhere schema className query2) ;;
  mongoWhere <- lift_res (with_read_perms isMaster aclGroup mongoWhere) ;;
  if truthy (assoc_get "count" options)
  then on_conn (MongoCollection.count collection mongoWhere mongoOptions)
  else
    mongoResults <- on_conn (MongoCollection.find collection mongoWhere mongoOptions) ;;
    objects <- lift_res (untransform_all schema isMaster aclGroup className mongoResults) ;;
    ret (JArr objects).

(** *** What a spy on the adapter sees *)

(** The calls a schema load issues: opening [_SCHEMA] and reading it. *)
Definition is_schema_call (c : call) : Prop :=
  c = CallCollection (collectionPrefix ++ "_SCHEMA") \/ c = CallSchemaLoad.

(** Between [s] and [s'] the adapter saw schema-load calls only. *)
Definition schema_calls_only (s s' : controller) : Prop :=
  exists extra,
    calls (connection s') = (calls (connection s) ++ extra)%list /\
    Forall is_schema_call extra.

End Controller.
End DatabaseController.

(* ================================================================== *)
(** ** loadSchema under interleaved callers *)
(* ================================================================== *)

(** JavaScript runs one callback at a time.  Between callbacks several
    requests may call [loadSchema], and the adapter may settle the
    promises it handed out in any order.  The model is a transition system
    whose events are those calls and settlements; a load is the promise
    built by [this.collection('_SCHEMA').then(...)]. *)
Module EventLoop.

Section Loader.
Variable Schema : Type.

Inductive load_status : Type :=
| AwaitingHandle                 (* collection('_SCHEMA') still pending *)
| Reading                        (* Schema.load(coll) in flight *)
| Resolved (schema : Schema)
| Rejected (e : js_error).

(** A caller of [loadSchema]: the load whose promise it waits on, the
    acceptor its [then] callback will run ([None] when it was handed the
    load's promise itself), and what its own promise settled to. *)
Record caller : Type := mkCaller {
  follows : nat;
  acceptor : option (Schema -> res bool);
  outcome : option (res Schema)
}.

Record state : Type := mkState {
  field : option nat;            (* this.schemaPromise, by load number *)
  loads : list load_status;
  callers : list caller;
  opens : nat;                   (* calls of collection('_SCHEMA') *)
  reads : nat                    (* calls of Schema.load(coll) *)
}.

(** The controller as its constructor leaves it. *)
Definition init : state := mkState None [] [] 0 0.

Inductive event : Type :=
| Call (acc : Schema -> res bool)        (* a request calls loadSchema(acc) *)
| HandleReady (k : nat)                  (* the handle of load k resolves *)
| HandleFailed (k : nat) (e : js_error)
| Loaded (k : nat) (schema : Schema)     (* Schema.load of load k resolves *)
| LoadFailed (k : nat) (e : js_error)
| Reset.                                 (* deleteEverything() nulls the field *)

Fixpoint set_nth {A} (n : nat) (x : A) (l : list A) : list A :=
  match l, n with
  | [], _ => []
  | _ :: r, O => x :: r
  | y :: r, S n' => y :: set_nth n' x r
  end.

(** [this.schemaPromise = this.collection('_SCHEMA').then(...)]: a new
    load, stored in the field. *)
Definition start (st : state) : nat * state :=
  let k := List.length (loads st) in
  (k, mkState (Some k) (loads st ++ [AwaitingHandle])%list (callers st)
        (S (opens st)) (reads st)).

(** Load [k] resolved with [schema]: the callers waiting on it run, in
    the order they registered. *)
Fixpoint wake (k : nat) (schema : Schema) (waiting : list caller)
    (st : state) (done : list caller) : state :=
  match waiting with
  | [] => mkState (field st) (loads st) (rev done) (opens st) (reads st)
  | c :: rest =>
      match outcome c with
      | Some _ => wake k schema rest st (c :: done)
      | None =>
          if negb (Nat.eqb (follows c) k) then wake k schema rest st (c :: done)
          else
            match acceptor c with
            | None =>
                wake k schema rest st (mkCaller k None (Some (Ok schema)) :: done)
            | Some acc =>
                match acc schema with
                | Ok true =>
                    wake k schema rest st
                      (mkCaller k (Some acc) (Some (Ok schema)) :: done)
                | Ok false =>
                    let (k', st') := start st in
                    wake k schema rest st' (mkCaller k' None None :: done)
                | Err e =>
                    wake k schema rest st
                      (mkCaller k (Some acc) (Some (Err e)) :: done)
                end
            end
      end
  end.

(** Load [k] rejected: every promise derived from it rejects. *)
Definition fail_callers (k : nat) (e : js_error) (cs : list caller) : list caller :=
  map (fun c =>
         match outcome c with
         | Some _ => c
         | None => if Nat.eqb (follows c) k
                   then mkCaller (follows c) (acceptor c) (Some (Err e))
                   else c
         end) cs.

Definition step (st : state) (ev : event) : option state :=
  match ev with
  | Call acc =>
      match field st with
      | None =>
          let (k, st') := start st in
          Some (mkState (field st') (loads st')
                  (callers st' ++ [mkCaller k None None])%list
                  (opens st') (reads st'))
      | Some k =>
          match nth_error (loads st) k with
          | Some (Rejected e) =>
              Some (mkState (field st) (loads st)
                      (callers st ++ [mkCaller k (Some acc) (Some (Err e))])%list
                      (opens st) (reads st))
          | Some (Resolved schema) =>
              Some (wake k schema [mkCaller k (Some acc) None] st (rev (callers st)))
          | Some _ =>
              Some (mkState (field st) (loads st)
                      (callers st ++ [mkCaller k (Some acc) None])%list
                      (opens st) (reads st))
          | None => None
          end
      end
  | HandleReady k =>
      match nth_error (loads st) k with
      | Some AwaitingHandle =>
          (* delete this.schemaPromise; return Schema.load(coll); *)
          Some (mkState None (set_nth k Reading (loads st)) (callers st)
                  (opens st) (S (reads st)))
      | _ => None
      end
  | HandleFailed k e =>
      match nth_error (loads st) k with
      | Some AwaitingHandle =>
          Some (mkState (field st) (set_nth k (Rejected e) (loads st))
                  (fail_callers k e (callers st)) (opens st) (reads st))
      | _ => None
      end
  | Loaded k schema =>
      match nth_error (loads st) k with
      | Some Reading =>
          Some (wake k schema (callers st)
                  (mkState (field st) (set_nth k (Resolved schema) (loads st))
                     (callers st) (opens st) (reads st)) [])
      | _ => None
      end
  | LoadFailed k e =>
      match nth_error (loads st) k with
      | Some Reading =>
          Some (mkState (field st) (set_nth k (Rejected e) (loads st))
                  (fail_callers k e (callers st)) (opens st) (reads st))
      | _ => None
      end
  | Reset =>
      Some (mkState None (loads st) (callers st) (opens st) (reads st))
  end.

Fixpoint run (st : state) (tr : list event) : option state :=
  match tr with
  | [] => Some st
  | ev :: rest =>
      match step st ev with
      | Some st' => run st' rest
      | None => None
      end
  end.

Definition is_call (ev : event) : bool :=
  match ev with Call _ => true | _ => false end.

Definition unresolved (c : caller) : bool :=
  match outcome c with None => true | Some _ => false end.

(** Every call of the trace is issued while no earlier caller's promise
    has settled. *)
Fixpoint calls_before_any_resolves (st : state) (tr : list event) : bool :=
  match tr with
  | [] => true
  | ev :: rest =>
      (if is_call ev then forallb unresolved (callers st) else true) &&
      match step st ev with
      | Some st' => calls_before_any_resolves st' rest
      | None => false
      end
  end.

Definition all_resolved_with (schema : Schema) (st : state) : Prop :=
  Forall (fun c => outcome c = Some (Ok schema)) (callers st).

(** The field never holds a load whose handle has resolved. *)
Definition field_pending (st : state) : Prop :=
  forall k, field st = Some k ->
    nth_error (loads st) k = Some AwaitingHandle \/
    exists e, nth_error (loads st) k = Some (Rejected e).

(** [returnsTrue], the default acceptor. *)
Definition returnsTrue (_ : Schema) : res bool := Ok true.

(** The acceptors of the calls of a trace, in the order of the calls. *)
Fixpoint acceptors_of (tr : list event) : list (Schema -> res bool) :=
  match tr with
  | [] => []
  | Call acc :: rest => acc :: acceptors_of rest
  | _ :: rest => acceptors_of rest
  end.

(** [acceptor(schema)] returns a truthy value. *)
Definition accepts (schema : Schema) (acc : Schema -> res bool) : bool :=
  match acc schema with
  | Ok true => true
  | _ => false
  end.

(** [acceptor(schema)] returns a falsy value: the caller reloads. *)
Definition refuses (schema : Schema) (acc : Schema -> res bool) : bool :=
  match acc schema with
  | Ok false => true
  | _ => false
  end.

(** What a caller waiting on a load gets when the schema arrives and its
    acceptor, if it has one to run, does not refuse it: the schema, or the
    error the acceptor threw. *)
Definition answer (schema : Schema) (acc : option (Schema -> res bool))
  : res Schema :=
  match acc with
  | None => Ok schema
  | Some acc =>
      match acc schema with
      | Err e => Err e
      | Ok _ => Ok schema
      end
  end.

Definition awaits_handle (l : load_status) : bool :=
  match l with
  | AwaitingHandle => true
  | _ => false
  end.

(** A caller that cannot start a reload when a schema arrives: its
    promise has settled, or it was handed the promise of one of the first
    [n] loads as it is, with no acceptor to run. *)
Definition passive (n : nat) (c : caller) : bool :=
  match outcome c with
  | Some _ => true
  | None =>
      match acceptor c with
      | None => Nat.ltb (follows c) n
      | Some _ => false
      end
  end.

(** Nothing in flight can touch the field: it is empty, no load waits for
    its handle (whose resolution would delete the field), and no waiting
    caller has an acceptor to run (whose refusal would store a reload in
    it).  Reads may be in flight. *)
Definition quiet (st : state) : bool :=
  match field st with None => true | Some _ => false end
  && forallb (fun l => negb (awaits_handle l)) (loads st)
  && forallb (passive (List.length (loads st))) (callers st).

(** An event other than the resolution of a handle and a
    [deleteEverything]. *)
Definition keeps_field (ev : event) : bool :=
  match ev with
  | HandleReady _ | Reset => false
  | _ => true
  end.

End Loader.

Arguments AwaitingHandle {Schema}.
Arguments Reading {Schema}.
Arguments Resolved {Schema} _.
Arguments Rejected {Schema} _.
Arguments Call {Schema} _.
Arguments HandleReady {Schema} _.
Arguments HandleFailed {Schema} _ _.
Arguments Loaded {Schema} _ _.
Arguments LoadFailed {Schema} _ _.
Arguments Reset {Schema}.
Arguments init {Schema}.
Arguments step {Schema} _ _.
Arguments run {Schema} _ _.
Arguments field {Schema} _.
Arguments loads {Schema} _.
Arguments callers {Schema} _.
Arguments opens {Schema} _.
Arguments reads {Schema} _.
Arguments outcome {Schema} _.
Arguments follows {Schema} _.
Arguments acceptor {Schema} _.
Arguments calls_before_any_resolves {Schema} _ _.
Arguments all_resolved_with {Schema} _ _.
Arguments field_pending {Schema} _.
Arguments is_call {Schema} _.
Arguments returnsTrue {Schema} _.
Arguments acceptors_of {Schema} _.
Arguments accepts {Schema} _ _.
Arguments refuses {Schema} _ _.
Arguments answer {Schema} _ _.
Arguments awaits_handle {Schema} _.
Arguments passive {Schema} _ _.
Arguments quiet {Schema} _.
Arguments keeps_field {Schema} _.

End EventLoop.

(* ================================================================== *)
(** ** The vocabulary of the specification *)
(* ================================================================== *)

(** An operator object carries the tag [t] in [__op]. *)
Definition tagged (t : string) (props : list (string * json)) : bool :=
  loose_eq_tag t (assoc_get "__op" props).

(** In the words of the specification: the value is an [AddRelation] op, a
    [RemoveRelation] op, or a [Batch] op that contains one, at any depth of
    nested batches. *)
Fixpoint has_relation_op (op : json) : bool :=
  match op with
  | JObj props =>
      tagged "AddRelation" props || tagged "RemoveRelation" props ||
      (tagged "Batch" props &&
       (fix ops_in (l : list (string * json)) : bool :=
          match l with
          | [] => false
          | (k, v) :: l' =>
              if String.eqb "ops" k
              then match v with
                   | JArr xs =>
                       (fix any (xs : list json) : bool :=
                          match xs with
                          | [] => false
                          | x :: xs' => has_relation_op x || any xs'
                          end) xs
                   | _ => false
                   end
              else ops_in l'
          end) props)
  | _ => false
  end.

(** The keys of an object are pairwise distinct. *)
Definition is_object (props : list (string * json)) : Prop :=
  NoDup (assoc_keys props).

Section ScanVocabulary.
Context {ST : Store} {CO : Collaborators}.
Variable collectionPrefix : string.

(** What a successful scan of one operator leaves in [deleteMe]: copies of
    its key, at least one exactly when the operator has a relation op. *)
Definition scans_well (op : json) : Prop :=
  forall className objectId key s s' sc,
    DatabaseController.process collectionPrefix className objectId op key s
    = (s', Ok sc) ->
    Forall (eq key) (snd sc) /\ (has_relation_op op = true <-> snd sc <> []).

End ScanVocabulary.

(** In the words of the specification: the previous [objectId.$in] list
    if present, the empty list otherwise. *)
Definition priorIn (props : list (string * json)) : list json :=
  match assoc_get "objectId" props with
  | JObj o => match assoc_get "$in" o with
              | JArr l => l
              | _ => []
              end
  | _ => []
  end.

(** An [objectId.$in] that is present is a list. *)
Definition in_is_list (props : list (string * json)) : Prop :=
  match assoc_get "objectId" props with
  | JObj o => truthy (assoc_get "$in" o) = true ->
              exists l, assoc_get "$in" o = JArr l
  | _ => True
  end.

(* ================================================================== *)
(** ** The rest of the controller *)
(* ================================================================== *)

(** Every character of [s] is in [[A-Za-z_0-9]]. *)
Fixpoint all_word (s : string) : bool :=
  match s with
  | EmptyString => true
  | String c r => MongoCollection.is_word c && all_word r
  end.

(** No character of [s] is a line terminator. *)
Fixpoint one_line (s : string) : bool :=
  match s with
  | EmptyString => true
  | String c r => negb (MongoCollection.is_line_terminator c) && one_line r
  end.

Module DatabaseControllerRest.

(** The capture of the relation pattern ([relation<], any characters but
    line terminators, a final [>]) on [r], the text after [relation<]. *)
Fixpoint body_before_gt (r : string) : option string :=
  match r with
  | EmptyString => None
  | String c EmptyString => if Ascii.eqb c ">" then Some EmptyString else None
  | String c r' =>
      if MongoCollection.is_line_terminator c then None
      else match body_before_gt r' with
           | Some b => Some (String c b)
           | None => None
           end
  end.

(** [t.match] on the relation pattern: the capture [match[1]], [None]
    when the match is [null]. *)
Definition relation_target (t : string) : option string :=
  match MongoCollection.strip_prefix "relation<" t with
  | Some r => body_before_gt r
  | None => None
  end.

Section Rest.
Context {ST : Store} {CO : Collaborators}.
Variable collectionPrefix : string.

(** [redirectClassNameForKey(className, key)] *)
Definition redirectClassNameForKey (className key : string)
  : M DatabaseController.controller string :=
  schema <- DatabaseController.loadSchema collectionPrefix
              DatabaseController.returnsTrue ;;
  match getExpectedType schema className key with
  | JStr t =>
      match relation_target t with
      | Some target => ret target
      | None => ret className
      end
  | JUndef | JNull => throw (type_error "Cannot read property 'match'")
  | _ => throw (type_error "t.match is not a function")
  end.

(** [mongoFind(className, query, options = {})] *)
Definition mongoFind (className : string) (query : json) (options : find_options)
  : M conn (list json) :=
  collection <- DatabaseController.adaptiveCollection collectionPrefix className ;;
  MongoCollection.find collection query options.

(** No resolved schema is held in [this.schemaPromise]. *)
Definition no_schema_cached (s : DatabaseController.controller) : Prop :=
  match DatabaseController.schemaPromise s with
  | Some (Ok _) => False
  | _ => True
  end.

End Rest.
End DatabaseControllerRest.

(** [query['$and'] || query['$or']] *)
Definition sublist_of (query : json) : json :=
  if truthy (DatabaseController.prop "$and" query)
  then DatabaseController.prop "$and" query
  else DatabaseController.prop "$or" query.

(** A declared type that is not a relation: none at all, or a type string
    that does not match the relation pattern. *)
Definition not_relation (t : json) : Prop :=
  truthy t = false \/
  exists s, t = JStr s /\ DatabaseController.is_relation_type s = false.

(** The [objectId] constraint of the query is missing, or an object whose
    [$in], if it has one, is a list. *)
Definition objectId_mergeable (props : list (string * json)) : Prop :=
  assoc_get "objectId" props = JUndef \/
  exists o,
    assoc_get "objectId" props = JObj o /\ is_object o /\
    (assoc_has "$in" o = true -> exists l, assoc_get "$in" o = JArr l).

Section MoreVocabulary.
Context {ST : Store} {CO : Collaborators}.
Variable collectionPrefix : string.

(** A successful scan of an operator without a relation op does nothing:
    the connection is as before, nothing is pending, nothing is to be
    deleted. *)
Definition scans_quietly (op : json) : Prop :=
  forall className objectId key s s' sc,
    DatabaseController.process collectionPrefix className objectId op key s
    = (s', Ok sc) ->
    has_relation_op op = false ->
    s' = s /\ sc = DatabaseController.scan_nil.

(** A step keeps the property [P] of the controller, however it ends. *)
Definition keeps {A} (P : DatabaseController.controller -> Prop)
    (m : M DatabaseController.controller A) : Prop :=
  forall s, P s -> P (fst (m s)).

End MoreVocabulary.

(** *** The relation edges an update asks for *)

(** An edge to add ([adds = true]) or to remove under a relation key. *)
Record edge : Type := mkEdge {
  adds : bool;
  edge_key : string;
  edge_to : json
}.

(** The edges of the operator with tag [tag]: one per element of
    [op.objects], to that element's [objectId]. *)
Definition tagged_edges (tag : string) (add : bool)
    (props : list (string * json)) (key : string) : list edge :=
  if tagged tag props
  then match iterate (assoc_get "objects" props) with
       | Some objects =>
           map (fun object =>
                  mkEdge add key (DatabaseController.prop "objectId" object))
             objects
       | None => []
       end
  else [].

(** The edges of one value of the update, in the order [process] meets
    them: its own, then those of the operators of a [Batch]. *)
Fixpoint edges_of_op (op : json) (key : string) : list edge :=
  match op with
  | JObj props =>
      (tagged_edges "AddRelation" true props key ++
       tagged_edges "RemoveRelation" false props key ++
       if tagged "Batch" props
       then
         (fix ops_in (l : list (string * json)) : list edge :=
            match l with
            | [] => []
            | (k, v) :: l' =>
                if String.eqb "ops" k
                then match v with
                     | JArr xs =>
                         (fix each (xs : list json) : list edge :=
                            match xs with
                            | [] => []
                            | x :: xs' => (edges_of_op x key ++ each xs')%list
                            end) xs
                     | _ => []
                     end
                else ops_in l'
            end) props
       else [])%list
  | _ => []
  end.

Definition edges_of (update : list (string * json)) : list edge :=
  flat_map (fun kv => edges_of_op (snd kv) (fst kv)) update.

Section EdgeCalls.
Context {ST : Store} {CO : Collaborators}.
Variable collectionPrefix : string.

(** The join collection of an edge of class [className]. *)
Definition edge_collection (className : string) (e : edge) : string :=
  collectionPrefix ++ DatabaseController.joinTableName (JStr className)
                        (JStr (edge_key e)).

(** The opening of the join collection of an edge. *)
Definition edge_open (className : string) (e : edge) : call :=
  CallCollection (edge_collection className e).

(** The write of an edge owned by [owner]: an upsert of the edge document,
    or its removal. *)
Definition edge_write (className : string) (owner : json) (e : edge) : call :=
  let doc := DatabaseController.edge_doc owner (edge_to e) in
  if adds e
  then CallUpdate (edge_collection className e) doc doc
         (JObj [("upsert", JBool true)])
  else CallRemove (edge_collection className e) doc.

(** The pending promise of an edge: the outcome of opening its collection,
    then its write. *)
Definition pends (className : string) (owner : json) (e : edge)
    (p : M conn json) : Prop :=
  exists opened : res unit,
    p = (lift_res opened ;;;
         if adds e
         then issue (edge_write className owner e)
                (driver_update (edge_collection className e)
                   (DatabaseController.edge_doc owner (edge_to e))
                   (DatabaseController.edge_doc owner (edge_to e))
                   (JObj [("upsert", JBool true)]))
         else issue (edge_write className owner e)
                (driver_remove (edge_collection className e)
                   (DatabaseController.edge_doc owner (edge_to e)))).

(** A successful scan has opened the join collection of each edge of the
    operator, in order, and holds one pending promise per edge. *)
Definition scans_edges (op : json) : Prop :=
  forall className owner key s s' sc,
    DatabaseController.process collectionPrefix className owner op key s
    = (s', Ok sc) ->
    calls s' = (calls s ++ map (edge_open className) (edges_of_op op key))%list /\
    Forall2 (pends className owner) (edges_of_op op key) (fst sc).

(** What the synchronous part of [addRelation] or [removeRelation] does:
    it opens the join collection and returns the pending write. *)
Definition opens_edge (add : bool)
    (edit : string -> string -> json -> json -> M conn (M conn json)) : Prop :=
  forall key className owner toId s s1 p,
    edit key className owner toId s = (s1, Ok p) ->
    calls s1 = (calls s ++ [edge_open className (mkEdge add key toId)])%list /\
    pends className owner (mkEdge add key toId) p.

End EdgeCalls.

(** *** Counting in the loader *)

Section LoaderVocabulary.
Variable Schema : Type.

(** The loads still waiting for their handle. *)
Fixpoint awaiting (l : list (EventLoop.load_status Schema)) : nat :=
  match l with
  | [] => 0
  | EventLoop.AwaitingHandle :: r => S (awaiting r)
  | _ :: r => awaiting r
  end.

(** Every load was opened once, and the loads that are not waiting for
    their handle account for the reads. *)
Definition loads_accounted (st : EventLoop.state Schema) : Prop :=
  EventLoop.opens st = List.length (EventLoop.loads st) /\
  EventLoop.reads st + awaiting (EventLoop.loads st)
  <= List.length (EventLoop.loads st).

(** A caller of a set of calls that share load [k]: it waits on [k] and
    runs no acceptor (the first caller) or one of [accs]. *)
Definition on_load (k : nat) (accs : list (Schema -> res bool))
    (c : EventLoop.caller Schema) : Prop :=
  EventLoop.follows c = k /\
  (EventLoop.acceptor c = None \/
   exists acc, EventLoop.acceptor c = Some acc /\ In acc accs).

(** A load that has not got its handle: still waiting, or failed. *)
Definition handle_pending (s : EventLoop.load_status Schema) : Prop :=
  s = EventLoop.AwaitingHandle \/ exists e, s = EventLoop.Rejected e.

(** How far the shared load has come: the reads it has cost on top of
    the [r] made before, and what its callers have. *)
Definition progress (r : nat) (s : EventLoop.load_status Schema)
    (reads : nat) (mine : list (EventLoop.caller Schema)) : Prop :=
  match s with
  | EventLoop.AwaitingHandle =>
      reads = r /\ Forall (fun c => EventLoop.outcome c = None) mine
  | EventLoop.Reading =>
      reads = S r /\ Forall (fun c => EventLoop.outcome c = None) mine
  | EventLoop.Rejected e =>
      reads <= S r /\
      Forall (fun c => EventLoop.outcome c = Some (Err e)) mine
  | EventLoop.Resolved schema =>
      reads = S r /\
      Forall (fun c => EventLoop.outcome c
                       = Some (EventLoop.answer schema (EventLoop.acceptor c)))
        mine
  end.

(** One load, number [k] and in status [s], started on top of the [k]
    loads, [m] callers, [o] opens and [r] reads there were, and shared by
    every caller after the first [m]. *)
Definition one_shared_load (k m o r : nat) (accs : list (Schema -> res bool))
    (s : EventLoop.load_status Schema) (st : EventLoop.state Schema) : Prop :=
  exists oldl oldc mine,
    EventLoop.loads st = (oldl ++ [s])%list /\
    EventLoop.callers st = (oldc ++ mine)%list /\
    List.length oldl = k /\ List.length oldc = m /\
    forallb (fun l => negb (EventLoop.awaits_handle l)) oldl = true /\
    forallb (EventLoop.passive k) oldc = true /\
    Forall (on_load k accs) mine /\
    EventLoop.opens st = S o /\
    progress r s (EventLoop.reads st) mine.

(** Load [k] resolved with a schema that one of [accs] refuses. *)
Definition refused (k : nat) (accs : list (Schema -> res bool))
    (st : EventLoop.state Schema) : Prop :=
  exists schema,
    nth_error (EventLoop.loads st) k = Some (EventLoop.Resolved schema) /\
    existsb (EventLoop.refuses schema) accs = true.

End LoaderVocabulary.

Arguments awaiting {Schema} _.
Arguments loads_accounted {Schema} _.
Arguments on_load {Schema} _ _ _.
Arguments handle_pending {Schema} _.
Arguments progress {Schema} _ _ _ _.
Arguments one_shared_load {Schema} _ _ _ _ _ _ _.
Arguments refused {Schema} _ _ _.

(* ================================================================== *)
(** ** GlobalConfigRouter *)
(* ================================================================== *)

Module GlobalConfigRouter.

(** The two methods of the driver's raw collection the router calls. *)
Class ConfigDriver {ST : Store} : Type := {
  (** [coll.findOne(filter)]: the document, or [null] *)
  driver_findOne : string -> json -> DB -> DB * res json;
  (** [coll.findOneAndUpdate(filter, update)] of the driver *)
  driver_findOneAndUpdate : string -> json -> json -> DB -> DB * res json
}.

(** [Parse.Error.INVALID_KEY_NAME] *)
Definition INVALID_KEY_NAME : Z := 105.

(** The body both [catch] handlers answer with. *)
Definition not_found (error : string) : json :=
  JObj [("status", JNum 404);
        ("response", JObj [("code", JNum INVALID_KEY_NAME);
                           ("error", JStr error)])].

Section Router.
Context {ST : Store} {CD : ConfigDriver}.

(** [req.config.database.collectionPrefix] *)
Variable collectionPrefix : string.

(** A call on the raw collection; the spy of the controller has no entry
    for it. *)
Definition on_raw {A} (op : DB -> DB * res A) : M conn A :=
  fun s => let (d, r) := op (db s) in (mkConn d (calls s), r).

(** [req.config.database.rawCollection('_GlobalConfig')] *)
Definition globalConfigCollection : M conn string :=
  let name := collectionPrefix ++ "_GlobalConfig" in
  issue (CallCollection name) (open_collection name) ;;; ret name.

(** [getGlobalConfig(req)] *)
Definition getGlobalConfig : M conn json :=
  catch
    (coll <- globalConfigCollection ;;
     globalConfig <- on_raw (driver_findOne coll (JObj [("_id", JNum 1)])) ;;
     params <- or_type_error "Cannot read property 'params'"
                 (get "params" globalConfig) ;;
     ret (JObj [("response", JObj [("params", params)])]))
    (fun _ => ret (not_found "config does not exist")).

(** [updateGlobalConfig(req)], [body] being [req.body] *)
Definition updateGlobalConfig (body : json) : M conn json :=
  catch
    (coll <- globalConfigCollection ;;
     on_raw (driver_findOneAndUpdate coll (JObj [("_id", JNum 1)])
               (JObj [("$set", body)])) ;;;
     ret (JObj [("response", JObj [("result", JBool true)])]))
    (fun _ => ret (not_found "config cannot be updated")).

End Router.
End GlobalConfigRouter.

(* ================================================================== *)
(** ** A scripted store and a small schema, to run the code on *)
(* ================================================================== *)

Module Sample.

(** A store that answers each driver call with the next scripted reply,
    as a test double does.  When the script has no fitting reply at its
    head the call resolves with an empty answer. *)
Inductive reply : Type :=
| Docs (r : res (list json))
| Value (r : res json)
| Done (r : res unit).

Definition next_docs (d : list reply) : list reply * res (list json) :=
  match d with
  | Docs r :: d' => (d', r)
  | _ => (d, Ok [])
  end.

Definition next_value (dflt : json) (d : list reply) : list reply * res json :=
  match d with
  | Value r :: d' => (d', r)
  | _ => (d, Ok dflt)
  end.

Definition next_done (d : list reply) : list reply * res unit :=
  match d with
  | Done r :: d' => (d', r)
  | _ => (d, Ok tt)
  end.

#[global] Instance scripted : Store := {|
  DB := list reply;
  open_collection := fun _ d => (d, Ok tt);
  driver_find := fun _ _ _ d => next_docs d;
  driver_count := fun _ _ _ d => next_value (JNum 0) d;
  driver_createIndex := fun _ _ d => next_done d;
  driver_findAndModify := fun _ _ _ _ d => next_value (JObj [("value", JNull)]) d;
  driver_insert := fun _ _ d => next_value JUndef d;
  driver_update := fun _ _ _ _ d => next_value JUndef d;
  driver_remove := fun _ _ d =>
    next_value (JObj [("result", JObj [("n", JNum 0)])]) d
|}.

(** A schema: the declared type of each (class, field), and the classes
    whose operations are closed to every ACL group. *)
Record schema : Type := mkSchema {
  field_types : list (string * string * string);
  locked : list string
}.

Fixpoint type_of (className key : string) (l : list (string * string * string))
  : json :=
  match l with
  | [] => JUndef
  | (c, k, t) :: r =>
      if (String.eqb c className && String.eqb k key)%bool then JStr t
      else type_of className key r
  end.

Definition OPERATION_FORBIDDEN : Z := 119.

Definition permission_denied : js_error :=
  parse_error OPERATION_FORBIDDEN "Permission denied for this action.".

(** The update translation of the sample: an [Increment] goes to [$inc]
    under its key, anything else to [$set]. *)
Fixpoint split_update (l : list (string * json))
  : list (string * json) * list (string * json) :=
  match l with
  | [] => ([], [])
  | (k, v) :: r =>
      let (incs, sets) := split_update r in
      match v with
      | JObj p =>
          if loose_eq_tag "Increment" (assoc_get "__op" p)
          then ((k, assoc_get "amount" p) :: incs, sets)
          else (incs, (k, v) :: sets)
      | _ => (incs, (k, v) :: sets)
      end
  end.

Definition sample_transformUpdate (u : json) : res json :=
  match u with
  | JObj l =>
      let (incs, sets) := split_update l in
      Ok (JObj ((match sets with [] => [] | _ => [("$set", JObj sets)] end) ++
                (match incs with [] => [] | _ => [("$inc", JObj incs)] end))%list)
  | _ => Ok (JObj [])
  end.

(** The schema the store holds. *)
Definition stored_schema : schema :=
  mkSchema [("Post", "likes", "relation<_User>")] ["Locked"].

#[global] Instance collaborators : Collaborators := {|
  Schema := schema;
  Schema_load := fun d => (d, Ok stored_schema);
  classNameIsValid := fun _ => true;
  getExpectedType := fun s c k => type_of c k (field_types s);
  hasKeys := fun _ _ _ => true;
  validatePermission := fun s c _ _ =>
    if existsb (String.eqb c) (locked s) then Err permission_denied else Ok tt;
  transformWhere := fun _ _ q => Ok q;
  transformUpdate := fun _ _ u => sample_transformUpdate u;
  transformCreate := fun _ _ o => Ok o;
  transformKey := fun _ _ k => Ok k;
  transform_untransformObject := fun _ _ o => Ok o
|}.

(** A fresh controller over a scripted store. *)
Definition connected (log : list call) (script : list reply) : conn :=
  mkConn script log.

(** The driver's error for a [$nearSphere] query on a field without a
    geospatial index. *)
Definition no_geo_index : js_error :=
  mkError DriverError (Some 17007%Z)
    ("Unable to execute query: error processing query: ns=test.Place " ++
     "Tree: GEONEAR  field=location maxdist=1.79769e+308 isNearSphere=1 " ++
     "planner returned error: unable to find index for $geoNear query").

Definition near_query : json :=
  JObj [("location", JObj [("$nearSphere", JArr [JNum 30; JNum 40])])].

(** The query of the specification's example: the users related to post
    [p1] through [likes]. *)
Definition liked_by_p1 : json :=
  JObj [("object", JObj [("className", JStr "Post"); ("objectId", JStr "p1")]);
        ("key", JStr "likes")].

(** The two edges (p1, u1) and (p1, u2) of the join table, as the find on
    it returns them. *)
Definition likes_edges : reply :=
  Docs (Ok [JObj [("owningId", JStr "p1"); ("relatedId", JStr "u1")];
            JObj [("owningId", JStr "p1"); ("relatedId", JStr "u2")]]).

Definition pointer_to_u1 : json :=
  JObj [("__type", JStr "Pointer"); ("className", JStr "_User");
        ("objectId", JStr "u1")].

Definition after (log : list call) (script : list reply)
  : DatabaseController.controller :=
  DatabaseController.mkController (mkConn script log) None.

Definition fresh (script : list reply) : DatabaseController.controller :=
  after [] script.

End Sample.

(** More of the sample: the schema as the controller holds it, and a
    user record as the store returns it. *)
Module Sample2.

Definition loaded_schema : @Schema Sample.scripted Sample.collaborators :=
  Sample.stored_schema.

Definition user_u1 : json :=
  JObj [("objectId", JStr "u1"); ("username", JStr "ann");
        ("authData", JObj []); ("sessionToken", JStr "r:1")].

(** A [$nearSphere] query on a nested field, and the driver's error for it
    when the field has no geospatial index: the planner prints the dotted
    path. *)
Definition near_nested_query : json :=
  JObj [("address.location", JObj [("$nearSphere", JArr [JNum 30; JNum 40])])].

Definition no_geo_index_nested : js_error :=
  mkError DriverError (Some 17007%Z)
    ("Unable to execute query: error processing query: ns=test.Place " ++
     "Tree: GEONEAR  field=address.location maxdist=1.79769e+308 " ++
     "isNearSphere=1 " ++
     "planner returned error: unable to find index for $geoNear query").

(** A query with a [$relatedTo] clause and an [objectId] equality next to
    an [$or]. *)
Definition related_beside_or : json :=
  JObj [("$or", JArr [JObj [("name", JStr "x")]]);
        ("objectId", JStr "u9");
        ("$relatedTo", Sample.liked_by_p1)].

End Sample2.

(** The collaborators of the sample with a schema module that rejects a
    class name holding a space. *)
Module Sample3.

Definition strict_names : @Collaborators Sample.scripted := {|
  Schema := Sample.schema;
  Schema_load := fun d => (d, Ok Sample.stored_schema);
  classNameIsValid := fun c => negb (contains " " c);
  getExpectedType := fun s c k => Sample.type_of c k (Sample.field_types s);
  hasKeys := fun _ _ _ => true;
  validatePermission := fun s c _ _ =>
    if existsb (String.eqb c) (Sample.locked s)
    then Err Sample.permission_denied else Ok tt;
  transformWhere := fun _ _ q => Ok q;
  transformUpdate := fun _ _ u => Sample.sample_transformUpdate u;
  transformCreate := fun _ _ o => Ok o;
  transformKey := fun _ _ k => Ok k;
  transform_untransformObject := fun _ _ o => Ok o
|}.

Definition fresh (script : list Sample.reply)
  : @DatabaseController.controller Sample.scripted strict_names :=
  @DatabaseController.mkController Sample.scripted strict_names
    (mkConn script []) None.

Definition after (log : list call) (script : list Sample.reply)
  : @DatabaseController.controller Sample.scripted strict_names :=
  @DatabaseController.mkController Sample.scripted strict_names
    (mkConn script log) None.

End Sample3.

(** A driver for the configuration collection over the scripted store. *)
Module Sample4.

#[global] Instance config_driver : @GlobalConfigRouter.ConfigDriver Sample.scripted := {|
  GlobalConfigRouter.driver_findOne := fun _ _ d => Sample.next_value JNull d;
  GlobalConfigRouter.driver_findOneAndUpdate := fun _ _ _ d =>
    Sample.next_value (JObj [("value", JNull)]) d
|}.

(** The driver refusing a write. *)
Definition not_authorized : js_error :=
  mkError DriverError (Some 13%Z) "not authorized on test to execute command".

End Sample4.

(* ================================================================== *)
(** * Properties *)
(* ================================================================== *)

(** ** Property lists *)

Lemma assoc_get_set_same k v l : assoc_get k (assoc_set k v l) = v.
Proof.
  induction l as [|[k' v'] l IH]; cbn.
  - now rewrite String.eqb_refl.
  - destruct (String.eqb k k') eqn:E; cbn; rewrite E; auto.
Qed.

Lemma assoc_get_set_other k k' v l :
  k <> k' -> assoc_get k (assoc_set k' v l) = assoc_get k l.
Proof.
  intros Hne. induction l as [|[k0 v0] l IH]; cbn.
  - apply String.eqb_neq in Hne. now rewrite Hne.
  - destruct (String.eqb k' k0) eqn:E; cbn.
    + apply String.eqb_eq in E. subst k0.
      apply String.eqb_neq in Hne. now rewrite Hne.
    + destruct (String.eqb k k0); auto.
Qed.

Lemma assoc_has_set k k' v l :
  assoc_has k (assoc_set k' v l) = (String.eqb k k' || assoc_has k l)%bool.
Proof.
  induction l as [|[k0 v0] l IH]; cbn.
  - now destruct (String.eqb k k').
  - destruct (String.eqb k' k0) eqn:E; cbn.
    + apply String.eqb_eq in E. subst k0.
      now destruct (String.eqb k k').
    + rewrite IH. destruct (String.eqb k k0), (String.eqb k k'); reflexivity.
Qed.

Lemma assoc_has_delete k k' l :
  assoc_has k (assoc_delete k' l)
  = (negb (String.eqb k k') && assoc_has k l)%bool.
Proof.
  induction l as [|[k0 v0] l IH]; cbn.
  - now rewrite andb_false_r.
  - destruct (String.eqb k' k0) eqn:E; cbn.
    + apply String.eqb_eq in E. subst k0. rewrite IH.
      now destruct (String.eqb k k').
    + rewrite IH. destruct (String.eqb k k0) eqn:E0; [|reflexivity].
      apply String.eqb_eq in E0. subst k0.
      rewrite String.eqb_sym in E. now rewrite E.
Qed.

Lemma assoc_get_delete_same k l : assoc_get k (assoc_delete k l) = JUndef.
Proof.
  induction l as [|[k0 v0] l IH]; cbn; [reflexivity|].
  destruct (String.eqb k k0) eqn:E; cbn; [assumption|now rewrite E].
Qed.

Lemma assoc_get_delete_other k k' l :
  k <> k' -> assoc_get k (assoc_delete k' l) = assoc_get k l.
Proof.
  intros Hne. induction l as [|[k0 v0] l IH]; cbn; [reflexivity|].
  destruct (String.eqb k' k0) eqn:E; cbn.
  - apply String.eqb_eq in E. subst k0.
    apply String.eqb_neq in Hne. now rewrite Hne.
  - now destruct (String.eqb k k0).
Qed.

Lemma assoc_has_In k l : assoc_has k l = true <-> In k (assoc_keys l).
Proof.
  induction l as [|[k0 v0] l IH]; cbn.
  - split; [discriminate|tauto].
  - destruct (String.eqb k k0) eqn:E.
    + apply String.eqb_eq in E. subst. tauto.
    + apply String.eqb_neq in E. rewrite IH. split; [tauto|].
      intros [H|H]; [congruence|assumption].
Qed.

(** The response object built by [Object.keys(inc).forEach(key =>
    response[key] = result[key])]. *)
Lemma response_has (f : string -> json) ks acc k :
  assoc_has k (fold_left (fun r key => assoc_set key (f key) r) ks acc) = true
  <-> In k ks \/ assoc_has k acc = true.
Proof.
  revert acc. induction ks as [|k0 ks IH]; intros acc; cbn.
  - tauto.
  - rewrite IH, assoc_has_set. rewrite orb_true_iff, String.eqb_eq.
    split; intros H; intuition congruence.
Qed.

Lemma response_get (f : string -> json) ks acc k :
  In k ks ->
  assoc_get k (fold_left (fun r key => assoc_set key (f key) r) ks acc) = f k.
Proof.
  revert acc. induction ks as [|k0 ks IH]; intros acc Hin; [destruct Hin|].
  cbn. destruct (in_dec string_dec k ks) as [Hk|Hk].
  - now apply IH.
  - destruct Hin as [->|Hin]; [|contradiction].
    clear IH.
    assert (G : forall acc', assoc_get k acc' = f k ->
              assoc_get k (fold_left (fun r key => assoc_set key (f key) r) ks acc')
              = f k).
    { induction ks as [|k1 ks IH]; intros acc' Hacc; [assumption|].
      cbn. apply IH.
      - intros H. apply Hk. now right.
      - rewrite assoc_get_set_other; [assumption|].
        intros ->. apply Hk. now left. }
    apply G. apply assoc_get_set_same.
Qed.

Import DatabaseController.
Local Open Scope Z_scope.

(** ** Elementary facts about the promise monad *)

Lemma bind_ok {S A B} (m : M S A) (k : A -> M S B) s s' a :
  m s = (s', Ok a) -> bind m k s = k a s'.
Proof. intros H. unfold bind. now rewrite H. Qed.

Lemma bind_err {S A B} (m : M S A) (k : A -> M S B) s s' e :
  m s = (s', Err e) -> bind m k s = (s', Err e).
Proof. intros H. unfold bind. now rewrite H. Qed.

Lemma lift_res_run {S A} (r : res A) (s : S) : lift_res r s = (s, r).
Proof. reflexivity. Qed.

(** ** destroy *)

Section DestroyProps.
Context {ST : Store} {CO : Collaborators}.
Variable collectionPrefix : string.

Lemma destroy_after_remove className query options s s' resp :
  destroy_remove collectionPrefix className query options s = (s', Ok resp) ->
  destroy collectionPrefix className query options s
  = (s', destroy_response className resp).
Proof.
  intros H. unfold destroy. now rewrite (bind_ok _ _ _ _ _ H).
Qed.

(** C6.  Whenever [destroy] gets as far as the removal and the store
    reports [n] removed documents: with [n = 0] the operation is rejected
    with ObjectNotFound for every class but [_Session], for which it
    succeeds; with [n >= 1] it succeeds for every class. *)
Theorem destroy_zero_removed_not_found
    (className : string) (query : json) (options : list (string * json))
    (s s' : controller) (resp result : json) (n : Z)
    (Hremove : destroy_remove collectionPrefix className query options s
               = (s', Ok resp))
    (Hresult : get "result" resp = Some result)
    (Hn : get "n" result = Some (JNum n)) :
  (n = 0 -> className <> "_Session" ->
     destroy collectionPrefix className query options s
     = (s', Err object_not_found)) /\
  (n = 0 -> className = "_Session" ->
     destroy collectionPrefix className query options s = (s', Ok tt)) /\
  (1 <= n ->
     destroy collectionPrefix className query options s = (s', Ok tt)).
Proof.
  rewrite (destroy_after_remove _ _ _ _ _ _ Hremove).
  unfold destroy_response. rewrite Hresult, Hn. cbn [strict_eq].
  repeat split.
  - intros -> Hc. apply String.eqb_neq in Hc. now rewrite Hc.
  - intros -> ->. reflexivity.
  - intros Hpos. destruct (Z.eqb_spec n 0) as [->|_]; [lia|reflexivity].
Qed.

End DestroyProps.

(** A run of [destroy] on a class where the store removes nothing. *)
Lemma destroy_zero_removed_not_found_witness :
  snd (destroy "" "Post" (JObj []) [] (Sample.fresh [])) = Err object_not_found.
Proof.
  destruct (destroy_zero_removed_not_found "" "Post" (JObj []) []
              (Sample.fresh [])
              (Sample.after
                 [CallCollection "_SCHEMA"; CallSchemaLoad;
                  CallCollection "Post"; CallRemove "Post" (JObj [])] [])
              (JObj [("result", JObj [("n", JNum 0)])])
              (JObj [("n", JNum 0)]) 0
              eq_refl eq_refl eq_refl) as [H _].
  rewrite H; [reflexivity | reflexivity | discriminate].
Defined.

(** ** update *)

Section UpdateProps.
Context {ST : Store} {CO : Collaborators}.
Variable collectionPrefix : string.

Lemma update_after_find className query upd options s s' mongoUpdate result :
  update_findOneAndUpdate collectionPrefix className query upd options s
  = (s', Ok (mongoUpdate, result)) ->
  update collectionPrefix className query upd options s
  = (s', update_response mongoUpdate result).
Proof.
  intros H. unfold update. now rewrite (bind_ok _ _ _ _ _ H).
Qed.

(** C5, as the code has it.  Whenever [update] gets as far as
    [findOneAndUpdate] and no document matched (the reply's [value] is
    [null], or any falsy value), the operation is rejected with
    ObjectNotFound, whatever the class: the session class is no
    exception. *)
Theorem update_zero_matches_not_found
    (className : string) (query : json) (upd options : list (string * json))
    (s s' : controller) (mongoUpdate result : json)
    (Hfind : update_findOneAndUpdate collectionPrefix className query upd
               options s = (s', Ok (mongoUpdate, result)))
    (Hnone : truthy result = false) :
  update collectionPrefix className query upd options s
  = (s', Err object_not_found).
Proof.
  rewrite (update_after_find _ _ _ _ _ _ _ _ Hfind).
  unfold update_response. now rewrite Hnone.
Qed.

End UpdateProps.

(** C5 fails as stated: an update of a [_Session] object that matches no
    document is rejected with ObjectNotFound, it does not succeed. *)
Lemma update_session_zero_matches_rejected :
  snd (update "" "_Session" (JObj [("objectId", JStr "s1")])
         [("installationId", JStr "i1")] []
         (Sample.fresh [Sample.Value (Ok (JObj [("value", JNull)]))]))
  = Err object_not_found.
Proof. vm_compute. reflexivity. Qed.

Lemma update_zero_matches_not_found_witness :
  snd (update "" "_Session" (JObj [("objectId", JStr "s1")])
         [("installationId", JStr "i1")] []
         (Sample.fresh [Sample.Value (Ok (JObj [("value", JNull)]))]))
  = Err object_not_found
  /\ snd (update "" "Post" (JObj [("objectId", JStr "p1")])
            [("title", JStr "A")] [] (Sample.fresh []))
     = Err object_not_found.
Proof.
  split.
  - rewrite (update_zero_matches_not_found "" "_Session"
               (JObj [("objectId", JStr "s1")])
               [("installationId", JStr "i1")] []
               (Sample.fresh [Sample.Value (Ok (JObj [("value", JNull)]))])
               (Sample.after
                  [CallCollection "_SCHEMA"; CallSchemaLoad;
                   CallAdaptiveCollection "_Session";
                   CallFindAndModify "_Session" (JObj [("objectId", JStr "s1")])
                     (JObj [("$set", JObj [("installationId", JStr "i1")])])] [])
               (JObj [("$set", JObj [("installationId", JStr "i1")])]) JNull
               eq_refl eq_refl).
    reflexivity.
  - rewrite (update_zero_matches_not_found "" "Post"
               (JObj [("objectId", JStr "p1")]) [("title", JStr "A")] []
               (Sample.fresh [])
               (Sample.after
                  [CallCollection "_SCHEMA"; CallSchemaLoad;
                   CallAdaptiveCollection "Post";
                   CallFindAndModify "Post" (JObj [("objectId", JStr "p1")])
                     (JObj [("$set", JObj [("title", JStr "A")])])] [])
               (JObj [("$set", JObj [("title", JStr "A")])]) JNull
               eq_refl eq_refl).
    reflexivity.
Defined.

(** ** The chain of a resolved promise *)

Lemma bind_inv_ok {S A B} (m : M S A) (k : A -> M S B) s s' b :
  bind m k s = (s', Ok b) ->
  exists s1 a, m s = (s1, Ok a) /\ k a s1 = (s', Ok b).
Proof.
  unfold bind. destruct (m s) as [s1 [a|e]]; intros H.
  - now exists s1, a.
  - discriminate.
Qed.

Lemma lift_res_inv_ok {S A} (r : res A) (s s' : S) a :
  lift_res r s = (s', Ok a) -> s' = s /\ r = Ok a.
Proof. unfold lift_res. intros H. now inversion H. Qed.

Lemma or_type_error_inv_ok {S A} msg (o : option A) (s s' : S) a :
  or_type_error msg o s = (s', Ok a) -> s' = s /\ o = Some a.
Proof.
  destruct o; cbn; unfold ret, throw; intros H; inversion H; auto.
Qed.

Lemma on_conn_inv_ok {ST : Store} {CO : Collaborators} {A}
    (m : M conn A) (s s' : controller) a :
  on_conn m s = (s', Ok a) ->
  exists c, m (connection s) = (c, Ok a) /\
            s' = mkController c (schemaPromise s).
Proof.
  unfold on_conn. destruct (m (connection s)) as [c r]. intros H.
  inversion H. subst. now exists c.
Qed.

Lemma issue_inv_ok {ST : Store} {A} (c : call) (op : DB -> DB * res A)
    (s s' : conn) a :
  issue c op s = (s', Ok a) ->
  exists d, op (db s) = (d, Ok a) /\ s' = mkConn d (calls s ++ [c]).
Proof.
  unfold issue. destruct (op (db s)) as [d r]. intros H.
  inversion H. subst. now exists d.
Qed.

Ltac chain H :=
  repeat match type of H with
    | bind _ _ _ = (_, Ok _) =>
        let s1 := fresh "s" in
        let a := fresh "a" in
        let H1 := fresh "Hstep" in
        apply bind_inv_ok in H; destruct H as (s1 & a & H1 & H)
    end.

Section IncrementProps.
Context {ST : Store} {CO : Collaborators}.
Variable collectionPrefix : string.

(** What [update] hands to its last callback is the translation of the
    update left by [handleRelationUpdates] and the [value] of the driver's
    reply to [findAndModify(..., { new: true })]: the document after the
    change. *)
Lemma update_found_is_new_document className query upd options s s'
    mongoUpdate result :
  update_findOneAndUpdate collectionPrefix className query upd options s
  = (s', Ok (mongoUpdate, result)) ->
  exists schema upd' coll mongoWhere d d' document,
    transformUpdate schema className (JObj upd') = Ok mongoUpdate /\
    driver_findAndModify coll mongoWhere mongoUpdate true d
    = (d', Ok document) /\
    get "value" document = Some result.
Proof.
  intros H. unfold update_findOneAndUpdate in H. chain H.
  apply lift_res_inv_ok in Hstep6 as [-> Hmu].
  apply on_conn_inv_ok in Hstep7 as (c & Hf & ->).
  unfold MongoCollection.findOneAndUpdate in Hf.
  apply bind_inv_ok in Hf as (c1 & document & Hissue & Hf).
  apply issue_inv_ok in Hissue as (d' & Hd & ->).
  apply or_type_error_inv_ok in Hf as [-> Hval].
  inversion H; subst.
  now exists a, a2, a3, a5, (db (connection s6)), d', document.
Qed.

(** C8.  When the translated update has an [$inc] object and a document
    matched, [update] resolves to an object whose keys are exactly the keys
    of [$inc], each mapped to the value of that key in the document the
    store returned after the change (the reply to [findAndModify] with
    [new: true]), not to the amount. *)
Theorem update_returns_incremented_values
    (className : string) (query : json) (upd options : list (string * json))
    (s s' : controller) (mongoUpdate result : json)
    (inc : list (string * json))
    (Hfind : update_findOneAndUpdate collectionPrefix className query upd
               options s = (s', Ok (mongoUpdate, result)))
    (Hmatched : truthy result = true)
    (Hinc : get "$inc" mongoUpdate = Some (JObj inc)) :
  exists response,
    update collectionPrefix className query upd options s
    = (s', Ok (JObj response)) /\
    (forall key, assoc_has key response = true <-> In key (assoc_keys inc)) /\
    (forall key, In key (assoc_keys inc) ->
                 assoc_get key response = prop key result) /\
    (exists coll mongoWhere d d' document,
       driver_findAndModify coll mongoWhere mongoUpdate true d
       = (d', Ok document) /\
       get "value" document = Some result).
Proof.
  eexists. split; [|split; [|split]].
  - rewrite (update_after_find _ _ _ _ _ _ _ _ _ Hfind).
    unfold update_response. rewrite Hmatched, Hinc. cbn. reflexivity.
  - intros key. rewrite response_has. cbn. intuition discriminate.
  - intros key Hin. now apply response_get.
  - destruct (update_found_is_new_document _ _ _ _ _ _ _ _ Hfind)
      as (_ & _ & coll & w & d & d' & doc & _ & Hd & Hv).
    now exists coll, w, d, d', doc.
Qed.

End IncrementProps.

(** The example of the specification: the counter stood at 41, the store
    answers with the document after the increment, [update] returns
    [{count: 42}]. *)
Lemma update_returns_incremented_values_witness :
  snd (update "" "Counter" (JObj [("objectId", JStr "c1")])
         [("count", JObj [("__op", JStr "Increment"); ("amount", JNum 1)])] []
         (Sample.fresh
            [Sample.Value (Ok (JObj [("value",
               JObj [("_id", JStr "c1"); ("count", JNum 42)])]))]))
  = Ok (JObj [("count", JNum 42)]).
Proof.
  destruct (update_returns_incremented_values "" "Counter"
              (JObj [("objectId", JStr "c1")])
              [("count", JObj [("__op", JStr "Increment"); ("amount", JNum 1)])]
              []
              (Sample.fresh
                 [Sample.Value (Ok (JObj [("value",
                    JObj [("_id", JStr "c1"); ("count", JNum 42)])]))])
              (Sample.after
                 [CallCollection "_SCHEMA"; CallSchemaLoad;
                  CallAdaptiveCollection "Counter";
                  CallFindAndModify "Counter" (JObj [("objectId", JStr "c1")])
                    (JObj [("$inc", JObj [("count", JNum 1)])])] [])
              (JObj [("$inc", JObj [("count", JNum 1)])])
              (JObj [("_id", JStr "c1"); ("count", JNum 42)])
              [("count", JNum 1)]
              eq_refl eq_refl eq_refl) as (response & Hrun & _).
  rewrite Hrun. vm_compute in Hrun. now inversion Hrun.
Defined.

(** ** Permission comes first *)

Section PermissionProps.
Context {ST : Store} {CO : Collaborators}.
Variable collectionPrefix : string.

Lemma start_load_calls s s' r :
  start_load collectionPrefix s = (s', r) -> schema_calls_only collectionPrefix s s'.
Proof.
  unfold start_load.
  destruct (negb (classNameIsValid "_SCHEMA")).
  - intros H. inversion H. subst. exists []. split; [now rewrite app_nil_r|constructor].
  - unfold rawCollection, bind, issue, ret.
    destruct (open_collection (collectionPrefix ++ "_SCHEMA") (db (connection s)))
      as [d [[]|e]]; cbn.
    + destruct (Schema_load d) as [d' r']. intros H. inversion H. subst. cbn.
      exists [CallCollection (collectionPrefix ++ "_SCHEMA"); CallSchemaLoad].
      split.
      * now rewrite <- app_assoc.
      * apply Forall_cons; [now left|].
        apply Forall_cons; [now right|apply Forall_nil].
    + intros H. inversion H. subst. cbn.
      exists [CallCollection (collectionPrefix ++ "_SCHEMA")].
      split; [reflexivity|]. apply Forall_cons; [now left|apply Forall_nil].
Qed.

Lemma loadSchema_calls acceptor s s' r :
  loadSchema collectionPrefix acceptor s = (s', r) -> schema_calls_only collectionPrefix s s'.
Proof.
  unfold loadSchema. destruct (schemaPromise s) as [[schema|e]|].
  - unfold bind, lift_res. destruct (acceptor schema) as [[|]|e].
    + unfold ret. intros H. inversion H. subst.
      exists []. split; [now rewrite app_nil_r|constructor].
    + apply start_load_calls.
    + intros H. inversion H. subst.
      exists []. split; [now rewrite app_nil_r|constructor].
  - unfold bind, lift_res. intros H. inversion H. subst.
    exists []. split; [now rewrite app_nil_r|constructor].
  - apply start_load_calls.
Qed.

Lemma denied_check schema className options op e :
  assoc_has "acl" options = true ->
  validatePermission schema className (aclGroup_of options) op = Err e ->
  check_permission schema (isMaster_of options) className
    (aclGroup_of options) op = Err e.
Proof.
  intros Hacl Hperm. unfold check_permission, isMaster_of.
  now rewrite Hacl.
Qed.

(** C1.  A caller whose options carry an [acl] and whom the loaded schema
    denies the action of the operation gets the rejection of
    [validatePermission] from [update], [create], [destroy] and [find],
    and the controller stops in the state the schema load left: the
    adapter has seen the calls of the schema load and nothing else, no
    relation-table read or write, no find, insert, update or remove.
    ([find] translates the sort keys and picks [get] or [find] before it
    asks for permission; the statement is for a query and a sort for which
    these succeed.) *)
Theorem permission_denied_issues_no_store_call
    (className : string) (options : list (string * json)) (e : js_error)
    (Hacl : assoc_has "acl" options = true) :
  (forall query upd s s1 schema,
     loadSchema collectionPrefix (update_acceptor className query) s
     = (s1, Ok schema) ->
     validatePermission schema className (aclGroup_of options) "update" = Err e ->
     update collectionPrefix className query upd options s = (s1, Err e) /\
     schema_calls_only collectionPrefix s s1) /\
  (forall object s s1 schema,
     loadSchema collectionPrefix returnsTrue s = (s1, Ok schema) ->
     validatePermission schema className (aclGroup_of options) "create" = Err e ->
     create collectionPrefix className object options s = (s1, Err e) /\
     schema_calls_only collectionPrefix s s1) /\
  (forall query s s1 schema,
     loadSchema collectionPrefix returnsTrue s = (s1, Ok schema) ->
     validatePermission schema className (aclGroup_of options) "delete" = Err e ->
     destroy collectionPrefix className query options s = (s1, Err e) /\
     schema_calls_only collectionPrefix s s1) /\
  (forall fuel query s s1 schema sort_ op,
     loadSchema collectionPrefix (find_acceptor fuel className query) s
     = (s1, Ok schema) ->
     mongo_sort schema className options = Ok sort_ ->
     find_op query = Ok op ->
     validatePermission schema className (aclGroup_of options) op = Err e ->
     find collectionPrefix fuel className query options s = (s1, Err e) /\
     schema_calls_only collectionPrefix s s1).
Proof.
  repeat split; try (eapply loadSchema_calls; eassumption).
  - unfold update, update_findOneAndUpdate.
    erewrite bind_err; [reflexivity|].
    erewrite bind_ok by eassumption.
    erewrite bind_err; [reflexivity|].
    now rewrite lift_res_run, (denied_check _ _ _ _ _ Hacl H0).
  - unfold create.
    erewrite bind_ok by eassumption.
    erewrite bind_err; [reflexivity|].
    now rewrite lift_res_run, (denied_check _ _ _ _ _ Hacl H0).
  - unfold destroy, destroy_remove.
    erewrite bind_err; [reflexivity|].
    erewrite bind_ok by eassumption.
    erewrite bind_err; [reflexivity|].
    now rewrite lift_res_run, (denied_check _ _ _ _ _ Hacl H0).
  - unfold find.
    erewrite bind_ok by eassumption.
    erewrite bind_ok by (rewrite lift_res_run, H0; reflexivity).
    erewrite bind_err; [reflexivity|].
    unfold isMaster_of. rewrite Hacl. cbn [negb].
    erewrite bind_ok by (rewrite lift_res_run, H1; reflexivity).
    now rewrite lift_res_run, H2.
Qed.

End PermissionProps.

(** The four operations on a class closed to every ACL group, called with
    [{acl: ["u1"]}]: each is rejected with the permission error after the
    two calls of the schema load. *)
Lemma permission_denied_issues_no_store_call_witness :
  let options := [("acl", JArr [JStr "u1"])] in
  let loaded := Sample.after [CallCollection "_SCHEMA"; CallSchemaLoad] [] in
  let related :=
    JObj [("$relatedTo", JObj [("object", JObj [("className", JStr "Post");
                                                 ("objectId", JStr "p1")]);
                                ("key", JStr "likes")])] in
  update "" "Locked" (JObj [("objectId", JStr "x1")])
    [("likes", JObj [("__op", JStr "AddRelation");
                     ("objects", JArr [JObj [("objectId", JStr "u2")]])])]
    options (Sample.fresh [])
  = (loaded, Err Sample.permission_denied) /\
  create "" "Locked" [("title", JStr "A")] options (Sample.fresh [])
  = (loaded, Err Sample.permission_denied) /\
  destroy "" "Locked" (JObj [("objectId", JStr "x1")]) options (Sample.fresh [])
  = (loaded, Err Sample.permission_denied) /\
  DatabaseController.find "" 5 "Locked" related options (Sample.fresh [])
  = (loaded, Err Sample.permission_denied).
Proof.
  intros options loaded related.
  destruct (permission_denied_issues_no_store_call "" "Locked" options
              Sample.permission_denied eq_refl) as (Hu & Hc & Hd & Hf).
  split; [|split; [|split]].
  - refine (proj1 (Hu _ _ (Sample.fresh []) loaded Sample.stored_schema
                     eq_refl eq_refl)).
  - refine (proj1 (Hc _ (Sample.fresh []) loaded Sample.stored_schema
                     eq_refl eq_refl)).
  - refine (proj1 (Hd _ (Sample.fresh []) loaded Sample.stored_schema
                     eq_refl eq_refl)).
  - refine (proj1 (Hf 5%nat related (Sample.fresh []) loaded Sample.stored_schema
                     JUndef "find" eq_refl eq_refl eq_refl eq_refl)).
Defined.

(** ** The resilient find *)

Section ResilientFind.
Context {ST : Store}.
Variable name : string.

Lemma field_here_nonempty s key :
  MongoCollection.field_here s = Some key -> key <> "".
Proof.
  unfold MongoCollection.field_here.
  destruct (MongoCollection.strip_prefix "field=" s) as [r|]; [|discriminate].
  destruct (MongoCollection.span_word r) as [[|c w] [|sp t]]; try discriminate.
  destruct (Ascii.eqb sp " "); [|discriminate].
  intros H. inversion H. discriminate.
Qed.

Lemma match_field_nonempty s key :
  MongoCollection.match_field s = Some key -> key <> "".
Proof.
  induction s as [|c s IH]; cbn [MongoCollection.match_field].
  - destruct (MongoCollection.field_here "") eqn:E; [|discriminate].
    intros H. inversion H. subst. eapply field_here_nonempty; eassumption.
  - destruct (MongoCollection.field_here (String c s)) eqn:E.
    + intros H. inversion H. subst. eapply field_here_nonempty; eassumption.
    + exact IH.
Qed.

Lemma not_geo_index_throws e :
  ~ MongoCollection.missing_geo_index e ->
  (negb (match err_code e with Some c => Z.eqb c 17007 | None => false end)
   || negb (MongoCollection.match_geoNear (err_message e)))%bool = true.
Proof.
  unfold MongoCollection.missing_geo_index. intros Hn.
  destruct (err_code e) as [c|]; [|reflexivity].
  destruct (Z.eqb_spec c 17007) as [->|]; [|reflexivity].
  destruct (MongoCollection.match_geoNear (err_message e)); [|reflexivity].
  exfalso. apply Hn. now split.
Qed.

Lemma geo_index_caught e :
  MongoCollection.missing_geo_index e ->
  (negb (match err_code e with Some c => Z.eqb c 17007 | None => false end)
   || negb (MongoCollection.match_geoNear (err_message e)))%bool = false.
Proof.
  intros [Hc Hm]. now rewrite Hc, Hm.
Qed.

(** The index creation failing: its error is the outcome and the find is
    not issued again. *)
Lemma find_index_creation_fails query opts s d1 e key d2 e' :
  driver_find name query opts (db s) = (d1, Err e) ->
  MongoCollection.missing_geo_index e ->
  MongoCollection.match_field (err_message e) = Some key ->
  driver_createIndex name (JObj [(key, JStr "2d")]) d1 = (d2, Err e') ->
  MongoCollection.find name query opts s
  = (mkConn d2 (calls s ++ [CallFind name query opts;
                            CallCreateIndex name (JObj [(key, JStr "2d")])]),
     Err e').
Proof.
  intros H Hgeo Hkey Hidx.
  unfold MongoCollection.find, MongoCollection._rawFind,
    MongoCollection.createIndex, catch, issue.
  rewrite H, (geo_index_caught e Hgeo), Hkey.
  unfold bind, or_type_error, ret. cbn.
  pose proof (match_field_nonempty _ _ Hkey) as Hne.
  apply String.eqb_neq in Hne. rewrite Hne. cbn.
  rewrite Hidx. cbn. now rewrite <- !app_assoc.
Qed.

(** [find] issues the driver's find.  If that resolves, so does
    [find], with the same documents.  If it fails with an error that is not
    of the missing-geo-index class, [find] rejects with that very error and
    has issued nothing else.  If it fails with a missing-geo-index error
    whose message names a field, [find] creates the index [{field: '2d'}]
    and then issues the same find once more, exactly once: whatever the
    second find gives, documents or an error, is the outcome of [find];
    if the index cannot be created, that error is the outcome and no
    second find is issued. *)
Theorem find_retries_once_after_geo_index
    (query : json) (opts : find_options) (s : conn) :
  (forall d1 docs,
     driver_find name query opts (db s) = (d1, Ok docs) ->
     MongoCollection.find name query opts s
     = (mkConn d1 (calls s ++ [CallFind name query opts]), Ok docs)) /\
  (forall d1 e,
     driver_find name query opts (db s) = (d1, Err e) ->
     ~ MongoCollection.missing_geo_index e ->
     MongoCollection.find name query opts s
     = (mkConn d1 (calls s ++ [CallFind name query opts]), Err e)) /\
  (forall d1 e key d2 d3 outcome,
     driver_find name query opts (db s) = (d1, Err e) ->
     MongoCollection.missing_geo_index e ->
     MongoCollection.match_field (err_message e) = Some key ->
     driver_createIndex name (JObj [(key, JStr "2d")]) d1 = (d2, Ok tt) ->
     driver_find name query opts d2 = (d3, outcome) ->
     MongoCollection.find name query opts s
     = (mkConn d3 (calls s ++ [CallFind name query opts;
                               CallCreateIndex name (JObj [(key, JStr "2d")]);
                               CallFind name query opts]),
        outcome)) /\
  (forall d1 e key d2 e',
     driver_find name query opts (db s) = (d1, Err e) ->
     MongoCollection.missing_geo_index e ->
     MongoCollection.match_field (err_message e) = Some key ->
     driver_createIndex name (JObj [(key, JStr "2d")]) d1 = (d2, Err e') ->
     MongoCollection.find name query opts s
     = (mkConn d2 (calls s ++ [CallFind name query opts;
                               CallCreateIndex name (JObj [(key, JStr "2d")])]),
        Err e')).
Proof.
  split; [|split; [|split]];
    [| | |intros; eapply find_index_creation_fails; eassumption];
    unfold MongoCollection.find, MongoCollection._rawFind,
      MongoCollection.createIndex, catch, issue.
  - intros d1 docs H. now rewrite H.
  - intros d1 e H Hn. rewrite H, (not_geo_index_throws e Hn). reflexivity.
  - intros d1 e key d2 d3 outcome H Hgeo Hkey Hidx Hagain.
    rewrite H, (geo_index_caught e Hgeo), Hkey.
    unfold bind, or_type_error, ret. cbn.
    pose proof (match_field_nonempty _ _ Hkey) as Hne.
    apply String.eqb_neq in Hne. rewrite Hne. cbn.
    rewrite Hidx. cbn. rewrite Hagain.
    now rewrite <- !app_assoc.
Qed.

(** A missing-geo-index error whose message names no field: reading the
    capture of the failed match throws before the original error could be
    rethrown. *)
Lemma find_geo_error_without_field query opts s d1 e :
  driver_find name query opts (db s) = (d1, Err e) ->
  MongoCollection.missing_geo_index e ->
  MongoCollection.match_field (err_message e) = None ->
  MongoCollection.find name query opts s
  = (mkConn d1 (calls s ++ [CallFind name query opts]),
     Err (type_error "Cannot read property '1' of null")).
Proof.
  intros H Hgeo Hkey.
  unfold MongoCollection.find, MongoCollection._rawFind, catch, issue.
  rewrite H, (geo_index_caught e Hgeo), Hkey. reflexivity.
Qed.

End ResilientFind.

(** C7 does not hold of the code.  The driver fails with an error of the
    missing-geo-index class whose detail names the nested field
    [address.location].  The pattern for the field name does not match a
    dotted path, and the capture of the failed match is read before the
    guard that would rethrow the driver's error: [find] rejects with a
    [TypeError], no index is created and the find is not issued again. *)
Theorem find_throws_on_unnamed_geo_field :
  MongoCollection.missing_geo_index Sample2.no_geo_index_nested /\
  MongoCollection.find "Place" Sample2.near_nested_query no_options
    (Sample.connected []
       [Sample.Docs (Err Sample2.no_geo_index_nested); Sample.Done (Ok tt);
        Sample.Docs (Ok [JObj [("_id", JStr "a")]])])
  = (Sample.connected
       [CallFind "Place" Sample2.near_nested_query no_options]
       [Sample.Done (Ok tt); Sample.Docs (Ok [JObj [("_id", JStr "a")]])],
     Err (type_error "Cannot read property '1' of null")) /\
  type_error "Cannot read property '1' of null" <> Sample2.no_geo_index_nested.
Proof.
  split; [split; vm_compute; reflexivity|].
  split; [vm_compute; reflexivity|discriminate].
Qed.

(** A [$nearSphere] query on a collection without the index: the driver
    fails, the index on [location] is created, the second find answers. *)
Lemma find_retries_once_after_geo_index_witness :
  MongoCollection.find "Place" Sample.near_query no_options
    (Sample.connected []
       [Sample.Docs (Err Sample.no_geo_index); Sample.Done (Ok tt);
        Sample.Docs (Ok [JObj [("_id", JStr "a")]])])
  = (Sample.connected
       [CallFind "Place" Sample.near_query no_options;
        CallCreateIndex "Place" (JObj [("location", JStr "2d")]);
        CallFind "Place" Sample.near_query no_options] [],
     Ok [JObj [("_id", JStr "a")]]).
Proof.
  refine (proj1 (proj2 (proj2 (find_retries_once_after_geo_index "Place"
            Sample.near_query no_options
            (Sample.connected []
               [Sample.Docs (Err Sample.no_geo_index); Sample.Done (Ok tt);
                Sample.Docs (Ok [JObj [("_id", JStr "a")]])]))))
          [Sample.Done (Ok tt); Sample.Docs (Ok [JObj [("_id", JStr "a")]])]
          Sample.no_geo_index "location"
          [Sample.Docs (Ok [JObj [("_id", JStr "a")]])] []
          (Ok [JObj [("_id", JStr "a")]])
          eq_refl (conj eq_refl _) _ eq_refl eq_refl).
  - vm_compute. reflexivity.
  - vm_compute. reflexivity.
Defined.

(** ** Relation operators leave the update *)

(** Induction on a value, with the hypothesis for every element of an
    array and every property value of an object. *)
Lemma json_nested_ind (P : json -> Prop) :
  P JUndef -> P JNull -> (forall b, P (JBool b)) -> (forall n, P (JNum n)) ->
  (forall s, P (JStr s)) ->
  (forall l, Forall P l -> P (JArr l)) ->
  (forall l, Forall (fun kv => P (snd kv)) l -> P (JObj l)) ->
  forall v, P v.
Proof.
  intros HU HN HB HZ HS HA HO.
  fix IH 1. intros [| |b|n|s|l|l].
  - exact HU.
  - exact HN.
  - apply HB.
  - apply HZ.
  - apply HS.
  - apply HA. induction l as [|x l IHl]; constructor; [apply IH|exact IHl].
  - apply HO. induction l as [|[k x] l IHl]; constructor; [apply IH|exact IHl].
Qed.

Lemma has_relation_op_obj props :
  has_relation_op (JObj props)
  = (tagged "AddRelation" props || tagged "RemoveRelation" props ||
     (tagged "Batch" props &&
      match assoc_get "ops" props with
      | JArr xs => existsb has_relation_op xs
      | _ => false
      end))%bool.
Proof.
  cbn [has_relation_op]. f_equal. f_equal.
  induction props as [|[k v] props IH]; [reflexivity|].
  cbn [assoc_get]. destruct (String.eqb "ops" k); [|exact IH].
  destruct v; reflexivity.
Qed.

Section RelationUpdateProps.
Context {ST : Store} {CO : Collaborators}.
Variable collectionPrefix : string.

Local Abbreviation process := (process collectionPrefix).
Local Abbreviation process_each := (process_each collectionPrefix).
Local Abbreviation process_all := (process_all collectionPrefix).
Local Abbreviation handleRelationUpdates :=
  (handleRelationUpdates collectionPrefix).

Lemma batch_ops_lookup className objectId key props :
  (fix ops_of (l : list (string * json)) : M conn scan :=
     match l with
     | [] => throw (type_error "op.ops is not iterable")
     | (k, v) :: l' =>
         if String.eqb "ops" k
         then
           match v with
           | JArr xs =>
               (fix each (xs : list json) : M conn scan :=
                  match xs with
                  | [] => ret scan_nil
                  | x :: xs' =>
                      s1 <- process className objectId x key ;;
                      s2 <- each xs' ;;
                      ret (scan_app s1 s2)
                  end) xs
           | JStr _ => ret scan_nil
           | _ => throw (type_error "op.ops is not iterable")
           end
         else ops_of l'
     end) props
  = match assoc_get "ops" props with
    | JArr xs => process_each className objectId xs key
    | JStr _ => ret scan_nil
    | _ => throw (type_error "op.ops is not iterable")
    end.
Proof.
  induction props as [|[k v] props IH]; [reflexivity|].
  cbn [assoc_get]. destruct (String.eqb "ops" k); [|exact IH].
  destruct v as [| | | | |xs|]; try reflexivity.
  clear IH. induction xs as [|x xs IHx]; [reflexivity|].
  cbn [DatabaseController.process_each]. now rewrite <- IHx.
Qed.

Lemma process_obj className objectId props key :
  process className objectId (JObj props) key
  = (a <- relation_edges (addRelation collectionPrefix) "AddRelation"
            className objectId props key ;;
     r <- relation_edges (removeRelation collectionPrefix) "RemoveRelation"
            className objectId props key ;;
     b <- (if tagged "Batch" props
           then match assoc_get "ops" props with
                | JArr xs => process_each className objectId xs key
                | JStr _ => ret scan_nil
                | _ => throw (type_error "op.ops is not iterable")
                end
           else ret scan_nil) ;;
     ret (scan_app a (scan_app r b))).
Proof.
  cbn [DatabaseController.process]. unfold tagged.
  now rewrite batch_ops_lookup.
Qed.

Lemma relation_edges_deleteMe edit tag className objectId props key s s' sc :
  relation_edges edit tag className objectId props key s = (s', Ok sc) ->
  snd sc = if tagged tag props then [key] else [].
Proof.
  unfold relation_edges, tagged.
  destruct (loose_eq_tag tag (assoc_get "__op" props)).
  - intros H. chain H. unfold ret in H. now inversion H.
  - unfold ret, scan_nil. intros H. now inversion H.
Qed.

Lemma process_each_deleteMe className objectId xs key :
  Forall (scans_well collectionPrefix) xs ->
  forall s s' sc,
    process_each className objectId xs key s = (s', Ok sc) ->
    Forall (eq key) (snd sc) /\
    (existsb has_relation_op xs = true <-> snd sc <> []).
Proof.
  induction 1 as [|x xs Hx Hxs IH]; intros s s' sc H.
  - cbn in H. unfold ret in H. inversion H. cbn. split; [constructor|].
    split; [discriminate|congruence].
  - cbn [DatabaseController.process_each] in H. chain H.
    unfold ret in H. inversion H. subst. clear H.
    destruct (Hx _ _ _ _ _ _ Hstep) as [F1 E1].
    destruct (IH _ _ _ Hstep0) as [F2 E2].
    cbn [scan_app snd existsb]. split.
    + apply Forall_app. now split.
    + rewrite orb_true_iff, E1, E2.
      destruct (snd a), (snd a0); cbn; split; intros; try discriminate;
        intuition congruence.
Qed.

Lemma process_scans_well op : scans_well collectionPrefix op.
Proof.
  enough (G : scans_well collectionPrefix op /\
              match op with
              | JArr xs => Forall (scans_well collectionPrefix) xs
              | _ => True
              end)
    by apply G.
  induction op as [| |b|n|t|l IH|props IH] using json_nested_ind;
    try (split; [|exact I]; intros className objectId key s s' sc H;
         cbn in H; unfold ret in H; inversion H; cbn;
         split; [constructor|split; [discriminate|congruence]]).
  - split.
    + intros className objectId key s s' sc H.
      cbn in H. unfold ret in H. inversion H. cbn.
      split; [constructor|split; [discriminate|congruence]].
    + eapply Forall_impl; [|exact IH]. now intros x [Hx _].
  - split; [|exact I].
    intros className objectId key s s' sc H.
    rewrite process_obj in H. chain H.
    unfold ret in H. inversion H. subst. clear H.
    apply relation_edges_deleteMe in Hstep, Hstep0.
    rewrite has_relation_op_obj. cbn [scan_app snd].
    rewrite Hstep, Hstep0.
    assert (Hb : Forall (eq key) (snd a1) /\
                 ((tagged "Batch" props &&
                   match assoc_get "ops" props with
                   | JArr xs => existsb has_relation_op xs
                   | _ => false
                   end)%bool = true <-> snd a1 <> [])).
    { destruct (tagged "Batch" props).
      - assert (Hops : match assoc_get "ops" props with
                       | JArr xs => Forall (scans_well collectionPrefix) xs
                       | _ => True
                       end).
        { clear - IH. induction IH as [|[k v] props [_ Hv] _ IHp]; [exact I|].
          cbn [assoc_get]. destruct (String.eqb "ops" k); [exact Hv|exact IHp]. }
        destruct (assoc_get "ops" props) as [| | | |t|xs|o];
          try (unfold throw in Hstep1; discriminate).
        + unfold ret in Hstep1. inversion Hstep1. cbn.
          split; [constructor|split; [discriminate|congruence]].
        + cbn [andb]. eapply process_each_deleteMe; eassumption.
      - unfold ret in Hstep1. inversion Hstep1. cbn.
        split; [constructor|split; [discriminate|congruence]]. }
    destruct Hb as [Fb Eb]. split.
    + destruct (tagged "AddRelation" props), (tagged "RemoveRelation" props);
        cbn; repeat constructor; assumption.
    + rewrite !orb_true_iff, Eb.
      destruct (tagged "AddRelation" props), (tagged "RemoveRelation" props);
        cbn; split; intros; try discriminate; intuition congruence.
Qed.

Lemma process_all_deleteMe className objectId update :
  forall s s' sc,
    process_all className objectId update s = (s', Ok sc) ->
    forall key,
      In key (snd sc) <->
      exists op, In (key, op) update /\ has_relation_op op = true.
Proof.
  induction update as [|[k op] update IH]; intros s s' sc H key.
  - cbn in H. unfold ret in H. inversion H. cbn.
    split; [tauto|]. intros (op & [] & _).
  - cbn [DatabaseController.process_all] in H. chain H.
    unfold ret in H. inversion H. subst. clear H.
    destruct (process_scans_well op _ _ _ _ _ _ Hstep) as [F1 E1].
    specialize (IH _ _ _ Hstep0 key).
    cbn [scan_app snd]. rewrite in_app_iff, IH. split.
    + intros [Hin|(op' & Hin & Hop)].
      * rewrite Forall_forall in F1. specialize (F1 _ Hin). subst key.
        exists op. split; [now left|]. apply E1. intros E. now rewrite E in Hin.
      * exists op'. split; [now right|assumption].
    + intros (op' & [Heq|Hin] & Hop).
      * inversion Heq. subst. left. apply E1 in Hop.
        destruct (snd a) as [|k' r] eqn:Es; [congruence|].
        rewrite Forall_forall in F1. rewrite (F1 k' (or_introl eq_refl)).
        now left.
      * right. now exists op'.
Qed.

Lemma assoc_delete_filter key l :
  assoc_delete key l = filter (fun kv => negb (String.eqb key (fst kv))) l.
Proof.
  induction l as [|[k v] l IH]; [reflexivity|].
  cbn. destruct (String.eqb key k); cbn; now rewrite IH.
Qed.

Lemma delete_keys_filter deleteMe update :
  delete_keys deleteMe update
  = filter (fun kv => negb (existsb (String.eqb (fst kv)) deleteMe)) update.
Proof.
  unfold delete_keys. revert update.
  induction deleteMe as [|d ds IH]; intros update; cbn.
  - induction update as [|kv u IHu]; [reflexivity|]. cbn. now rewrite <- IHu.
  - rewrite IH, assoc_delete_filter. clear IH.
    induction update as [|[k v] u IHu]; [reflexivity|].
    cbn. rewrite (String.eqb_sym k d).
    destruct (String.eqb d k); cbn; [exact IHu|].
    destruct (existsb (String.eqb k) ds); cbn; now rewrite IHu.
Qed.

Lemma handleRelationUpdates_result className objectId update s s' update' :
  handleRelationUpdates className objectId update s = (s', Ok update') ->
  exists s1 sc,
    process_all className
      (if truthy (assoc_get "objectId" update)
       then assoc_get "objectId" update else objectId) update s = (s1, Ok sc) /\
    update' = delete_keys (snd sc) update.
Proof.
  unfold DatabaseController.handleRelationUpdates. intros H. chain H.
  unfold ret in H. inversion H. subst. now exists s0, a.
Qed.

(** C10.  When [handleRelationUpdates] resolves, the update it leaves
    behind is the update it was given without the top-level keys whose
    value is an [AddRelation] op, a [RemoveRelation] op or a [Batch] that
    contains one; every other key stays, in place and unchanged.  A
    [Batch] that contains a relation op goes as a whole: its key is absent
    afterwards, and with it every other operator of that batch. *)
Theorem relation_keys_deleted
    (className : string) (objectId : json)
    (update update' : list (string * json)) (s s' : conn)
    (Hobj : is_object update)
    (Hrun : handleRelationUpdates className objectId update s = (s', Ok update')) :
  update' = filter (fun kv => negb (has_relation_op (snd kv))) update /\
  (forall key props,
     In (key, JObj props) update ->
     tagged "Batch" props = true ->
     has_relation_op (JObj props) = true ->
     assoc_has key update' = false).
Proof.
  apply handleRelationUpdates_result in Hrun as (s1 & sc & Hscan & ->).
  pose proof (process_all_deleteMe _ _ _ _ _ _ Hscan) as Hdel.
  assert (E : delete_keys (snd sc) update
              = filter (fun kv => negb (has_relation_op (snd kv))) update).
  { rewrite delete_keys_filter. apply filter_ext_in.
    intros [k v] Hin. cbn [fst snd]. f_equal.
    destruct (has_relation_op v) eqn:Ev.
    - apply existsb_exists. exists k. split; [|apply String.eqb_refl].
      apply Hdel. now exists v.
    - destruct (existsb (String.eqb k) (snd sc)) eqn:Ex; [|reflexivity].
      apply existsb_exists in Ex as (k' & Hk' & Heq).
      apply String.eqb_eq in Heq. subst k'.
      apply Hdel in Hk' as (v' & Hin' & Hv').
      assert (v' = v); [|congruence].
      clear - Hobj Hin Hin'. unfold is_object, assoc_keys in Hobj.
      induction update as [|[k0 v0] u IH]; [destruct Hin|].
      cbn in Hobj. inversion Hobj as [|? ? Hnotin Hnd]. subst.
      destruct Hin as [Hin|Hin], Hin' as [Hin'|Hin'].
      + congruence.
      + inversion Hin. subst. exfalso. apply Hnotin.
        now apply (in_map fst _ (k, v')).
      + inversion Hin'. subst. exfalso. apply Hnotin.
        now apply (in_map fst _ (k, v)).
      + now apply IH. }
  split; [exact E|].
  intros key props Hin _ Hrel. rewrite E.
  destruct (assoc_has key _) eqn:Eh; [|reflexivity].
  apply assoc_has_In in Eh. unfold assoc_keys in Eh.
  apply in_map_iff in Eh as ([k v] & Hk & Hf). cbn in Hk. subst k.
  apply filter_In in Hf as [Hin' Hv]. cbn in Hv.
  assert (v = JObj props); [|subst; now rewrite Hrel in Hv].
  clear - Hobj Hin Hin'. unfold is_object, assoc_keys in Hobj.
  induction update as [|[k0 v0] u IH]; [destruct Hin|].
  cbn in Hobj. inversion Hobj as [|? ? Hnotin Hnd]. subst.
  destruct Hin as [Hin|Hin], Hin' as [Hin'|Hin'].
  + congruence.
  + inversion Hin. subst. exfalso. apply Hnotin.
    now apply (in_map fst _ (key, v)).
  + inversion Hin'. subst. exfalso. apply Hnotin.
    now apply (in_map fst _ (key, JObj props)).
  + now apply IH.
Qed.

End RelationUpdateProps.

(** An update with a title, a relation added under [friends], and under
    [likes] a batch of a relation op and an increment: only the title is
    left, the increment of the batch is gone with its key. *)
Lemma relation_keys_deleted_witness :
  let add := JObj [("__op", JStr "AddRelation");
                   ("objects", JArr [JObj [("objectId", JStr "u2")]])] in
  let update :=
    [("title", JStr "A");
     ("friends", add);
     ("likes", JObj [("__op", JStr "Batch");
                     ("ops", JArr [add;
                                   JObj [("__op", JStr "Increment");
                                         ("amount", JNum 1)]])])] in
  snd (handleRelationUpdates "" "Post" (JStr "p1") update
         (Sample.connected [] []))
  = Ok [("title", JStr "A")].
Proof.
  intros add update.
  destruct (handleRelationUpdates "" "Post" (JStr "p1") update
              (Sample.connected [] [])) as [s' r] eqn:Hrun.
  assert (Hok : r = Ok (delete_keys ["friends"; "likes"] update)).
  { vm_compute in Hrun. inversion Hrun. reflexivity. }
  subst r.
  assert (Hobj : is_object update).
  { unfold is_object. cbn.
    repeat (constructor; [cbn; intuition discriminate|]). constructor. }
  destruct (relation_keys_deleted "" "Post" (JStr "p1") update _
              (Sample.connected [] []) s' Hobj Hrun) as [E _].
  cbn [snd]. now rewrite E.
Defined.

(** ** $relatedTo *)

Section RelatedToProps.
Context {ST : Store} {CO : Collaborators}.
Variable collectionPrefix : string.

Lemma relatedTo_rewrite_list props ids :
  in_is_list props ->
  relatedTo_rewrite props ids
  = Some (assoc_set "objectId" (JObj [("$in", JArr (priorIn props ++ ids)%list)])
            (assoc_delete "$relatedTo" props)).
Proof.
  unfold in_is_list, relatedTo_rewrite, priorIn.
  rewrite (assoc_get_delete_other "objectId" "$relatedTo") by discriminate.
  destruct (assoc_get "objectId" props) as [| |b|n|t|l|o]; cbn; try reflexivity.
  - destruct b; reflexivity.
  - destruct (negb (n =? 0)%Z); reflexivity.
  - destruct (negb (t =? "")%string); reflexivity.
  - intros Hin. destruct (truthy (assoc_get "$in" o)) eqn:Et.
    + destruct (Hin eq_refl) as [l ->]. reflexivity.
    + destruct (assoc_get "$in" o); try discriminate; reflexivity.
Qed.

(** On a query object with a [$relatedTo] clause (and no [$or] at
    that level, which is handled first), once the related ids are read,
    [reduceRelationKeys] removes [$relatedTo] and sets [objectId] to
    [{$in: priorIn ++ relatedIds}]: the earlier [objectId] constraint is
    replaced whole, so a constraint of another shape, such as a plain
    string, is dropped and not intersected.  Any recursion bound of two or
    more gives this result. *)
Theorem relatedTo_replaces_objectId
    (fuel : nat) (className : string) (props : list (string * json))
    (s s' : conn) (cn : json) (ids : list json)
    (Hor : truthy (assoc_get "$or" props) = false)
    (Hrel : truthy (assoc_get "$relatedTo" props) = true)
    (Hcn : get "className" (prop "object" (assoc_get "$relatedTo" props))
           = Some cn)
    (Hids : relatedIds collectionPrefix cn
              (prop "key" (assoc_get "$relatedTo" props))
              (prop "objectId" (prop "object" (assoc_get "$relatedTo" props))) s
            = (s', Ok ids))
    (Hin : in_is_list props) :
  let query' :=
    assoc_set "objectId" (JObj [("$in", JArr (priorIn props ++ ids)%list)])
      (assoc_delete "$relatedTo" props) in
  reduceRelationKeys collectionPrefix (S (S fuel)) className (JObj props) s
  = (s', Ok (JObj query')) /\
  assoc_has "$relatedTo" query' = false /\
  assoc_get "objectId" query' = JObj [("$in", JArr (priorIn props ++ ids)%list)] /\
  (forall x, assoc_get "objectId" props = JStr x ->
             assoc_get "objectId" query' = JObj [("$in", JArr ids)]).
Proof.
  intros query'. split; [|split; [|split]].
  - cbn [reduceRelationKeys]. rewrite Hor, Hrel.
    unfold or_type_error at 1. rewrite Hcn.
    unfold bind at 1, ret at 1.
    unfold bind at 1. rewrite Hids.
    rewrite (relatedTo_rewrite_list _ _ Hin).
    unfold or_type_error, bind, ret. fold query'.
    assert (Hor' : truthy (assoc_get "$or" query') = false).
    { unfold query'. rewrite assoc_get_set_other by discriminate.
      now rewrite assoc_get_delete_other by discriminate. }
    assert (Hrel' : truthy (assoc_get "$relatedTo" query') = false).
    { unfold query'. rewrite assoc_get_set_other by discriminate.
      now rewrite assoc_get_delete_same. }
    now rewrite Hor', Hrel'.
  - unfold query'. rewrite assoc_has_set, assoc_has_delete. reflexivity.
  - unfold query'. apply assoc_get_set_same.
  - intros x Hx. unfold query'. rewrite assoc_get_set_same.
    unfold priorIn. now rewrite Hx.
Qed.

End RelatedToProps.

(** C9 does not hold of the code.  With an [$or] next to the
    [$relatedTo] clause, [reduceRelationKeys] returns after rewriting the
    branches of the [$or]: the join table is not read, the clause stays in
    the query and the [objectId] equality is neither replaced nor
    dropped. *)
Theorem relatedTo_beside_or_keeps_objectId :
  reduceRelationKeys "" 5 "_User" Sample2.related_beside_or
    (Sample.connected [] [Sample.likes_edges])
  = (Sample.connected [] [Sample.likes_edges], Ok Sample2.related_beside_or) /\
  prop "objectId" Sample2.related_beside_or = JStr "u9" /\
  truthy (prop "$relatedTo" Sample2.related_beside_or) = true.
Proof.
  split; [vm_compute; reflexivity|]. split; reflexivity.
Qed.

(** The example of the specification: with the edges (p1, u1) and (p1, u2)
    in the join table of [likes], the query rewrites to
    [{objectId: {$in: ["u1", "u2"]}}]; an [objectId] equality next to the
    clause is dropped. *)
Lemma relatedTo_replaces_objectId_witness :
  snd (reduceRelationKeys "" 2 "_User"
         (JObj [("$relatedTo", Sample.liked_by_p1)])
         (Sample.connected [] [Sample.likes_edges]))
  = Ok (JObj [("objectId", JObj [("$in", JArr [JStr "u1"; JStr "u2"])])]) /\
  snd (reduceRelationKeys "" 2 "_User"
         (JObj [("objectId", JStr "u9"); ("$relatedTo", Sample.liked_by_p1)])
         (Sample.connected [] [Sample.likes_edges]))
  = Ok (JObj [("objectId", JObj [("$in", JArr [JStr "u1"; JStr "u2"])])]).
Proof.
  split.
  - destruct (relatedTo_replaces_objectId "" 0 "_User"
                [("$relatedTo", Sample.liked_by_p1)]
                (Sample.connected [] [Sample.likes_edges])
                (Sample.connected
                   [CallAdaptiveCollection "_Join:likes:Post";
                    CallFind "_Join:likes:Post"
                      (JObj [("owningId", JStr "p1")]) no_options] [])
                (JStr "Post") [JStr "u1"; JStr "u2"]
                eq_refl eq_refl eq_refl eq_refl I) as [H _].
    now rewrite H.
  - destruct (relatedTo_replaces_objectId "" 0 "_User"
                [("objectId", JStr "u9"); ("$relatedTo", Sample.liked_by_p1)]
                (Sample.connected [] [Sample.likes_edges])
                (Sample.connected
                   [CallAdaptiveCollection "_Join:likes:Post";
                    CallFind "_Join:likes:Post"
                      (JObj [("owningId", JStr "p1")]) no_options] [])
                (JStr "Post") [JStr "u1"; JStr "u2"]
                eq_refl eq_refl eq_refl eq_refl I) as [H _].
    now rewrite H.
Defined.

(** ** Queries the rewriting does not clear *)

(** C2 does not hold of the code.  A [$relatedTo] clause or a relation
    pointer next to an [$or] is left in the query, with no read of the
    join table: both functions return after rewriting the branches.  And
    the branch of an [$or] that is itself an [$or] is overwritten by
    [reduceInRelation] with the array its inner [Promise.all] resolves to,
    so its constraints are lost instead of resolved. *)
Theorem relations_next_to_or_stay :
  resolve_relations "" 5 "_User"
    (JObj [("$or", JArr [JObj [("name", JStr "x")]]);
           ("$relatedTo", Sample.liked_by_p1)])
    Sample.stored_schema (Sample.connected [] [Sample.likes_edges])
  = (Sample.connected [] [Sample.likes_edges],
     Ok (JObj [("$or", JArr [JObj [("name", JStr "x")]]);
               ("$relatedTo", Sample.liked_by_p1)])) /\
  resolve_relations "" 5 "Post"
    (JObj [("$or", JArr [JObj [("title", JStr "A")]]);
           ("likes", Sample.pointer_to_u1)])
    Sample.stored_schema (Sample.connected [] [])
  = (Sample.connected [] [],
     Ok (JObj [("$or", JArr [JObj [("title", JStr "A")]]);
               ("likes", Sample.pointer_to_u1)])) /\
  snd (resolve_relations "" 5 "Post"
         (JObj [("$or", JArr [JObj [("$or",
                   JArr [JObj [("likes", Sample.pointer_to_u1)]])]])])
         Sample.stored_schema
         (Sample.connected []
            [Sample.Docs (Ok [JObj [("owningId", JStr "p1");
                                    ("relatedId", JStr "u1")]])]))
  = Ok (JObj [("$or", JArr [JArr [JUndef]])]).
Proof.
  split; [|split]; vm_compute; reflexivity.
Qed.

(** ** loadSchema under interleaved callers *)

Section LoaderProps.
Import EventLoop.
Local Open Scope nat_scope.
Variable Schema : Type.

Lemma run_app (st : state Schema) tr1 tr2 :
  run st (tr1 ++ tr2)
  = match run st tr1 with Some st' => run st' tr2 | None => None end.
Proof.
  revert st. induction tr1 as [|ev tr1 IH]; intros st; cbn; [reflexivity|].
  destruct (step st ev); [apply IH|reflexivity].
Qed.

Lemma nth_error_set_nth_same {A} (l : list A) k x y :
  nth_error l k = Some y -> nth_error (set_nth k x l) k = Some x.
Proof.
  revert k. induction l as [|a l IH]; intros [|k]; cbn; try discriminate; auto.
Qed.

Lemma nth_error_set_nth_other {A} (l : list A) k k' x :
  k <> k' -> nth_error (set_nth k' x l) k = nth_error l k.
Proof.
  revert k k'. induction l as [|a l IH]; intros [|k] [|k'] Hne; cbn;
    try reflexivity; try congruence.
  apply IH. congruence.
Qed.

Lemma length_set_nth {A} (l : list A) k x :
  List.length (set_nth k x l) = List.length l.
Proof.
  revert k. induction l as [|a l IH]; intros [|k]; cbn; auto.
Qed.

Lemma start_field_pending (st : state Schema) :
  field_pending (snd (start Schema st)).
Proof.
  unfold start, field_pending. cbn. intros k Hk. inversion Hk. subst.
  left. rewrite nth_error_app2 by lia. now rewrite Nat.sub_diag.
Qed.

Lemma start_keeps_loads (st : state Schema) k :
  k < List.length (loads st) ->
  nth_error (loads (snd (start Schema st))) k = nth_error (loads st) k.
Proof.
  intros Hk. unfold start. cbn. now rewrite nth_error_app1.
Qed.

Lemma wake_field_pending k schema waiting (st : state Schema) done :
  field_pending st -> field_pending (wake Schema k schema waiting st done).
Proof.
  revert st done. induction waiting as [|c rest IH]; intros st done Hst.
  - exact Hst.
  - cbn [wake]. destruct (outcome c); [now apply IH|].
    destruct (negb (Nat.eqb (follows c) k)); [now apply IH|].
    destruct (acceptor c) as [acc|]; [|now apply IH].
    destruct (acc schema) as [[|]|e]; try now apply IH.
    apply IH. apply start_field_pending.
Qed.

Lemma step_field_pending (st st' : state Schema) ev :
  field_pending st -> step st ev = Some st' -> field_pending st'.
Proof.
  intros Hst Hstep. destruct ev as [acc|k|k e|k schema|k e|]; cbn in Hstep.
  - destruct (field st) as [k|] eqn:Ef.
    + destruct (Hst k Ef) as [Hk|[e Hk]]; rewrite Hk in Hstep;
        inversion Hstep; subst; intros k' Hk'; cbn in *;
        try rewrite Ef in Hk'; inversion Hk'; subst; eauto.
    + inversion Hstep. subst. intros k' Hk'. cbn in *. inversion Hk'. subst.
      left. rewrite nth_error_app2 by lia. now rewrite Nat.sub_diag.
  - destruct (nth_error (loads st) k) as [[| | |]|]; try discriminate.
    inversion Hstep. subst. intros k' Hk'. discriminate.
  - destruct (nth_error (loads st) k) as [[| | |]|] eqn:Ek; try discriminate.
    inversion Hstep. subst. intros k' Hk'. cbn in *.
    destruct (Nat.eq_dec k' k) as [->|Hne].
    + right. exists e. eapply nth_error_set_nth_same; eassumption.
    + rewrite nth_error_set_nth_other by assumption. now apply Hst.
  - destruct (nth_error (loads st) k) as [[| | |]|] eqn:Ek; try discriminate.
    inversion Hstep. subst. apply wake_field_pending.
    intros k' Hk'. cbn in *.
    destruct (Nat.eq_dec k' k) as [->|Hne].
    + destruct (Hst k Hk') as [H|[e H]]; rewrite Ek in H; discriminate.
    + rewrite nth_error_set_nth_other by assumption. now apply Hst.
  - destruct (nth_error (loads st) k) as [[| | |]|] eqn:Ek; try discriminate.
    inversion Hstep. subst. intros k' Hk'. cbn in *.
    destruct (Nat.eq_dec k' k) as [->|Hne].
    + right. exists e. eapply nth_error_set_nth_same; eassumption.
    + rewrite nth_error_set_nth_other by assumption. now apply Hst.
  - inversion Hstep. subst. intros k' Hk'. discriminate.
Qed.

Lemma run_field_pending (st st' : state Schema) tr :
  field_pending st -> run st tr = Some st' -> field_pending st'.
Proof.
  revert st. induction tr as [|ev tr IH]; intros st Hst Hrun; cbn in Hrun.
  - inversion Hrun. now subst.
  - destruct (step st ev) as [st1|] eqn:Es; [|discriminate].
    eapply IH; [|eassumption]. eapply step_field_pending; eassumption.
Qed.

(** C4, as the code has it.  The field [schemaPromise] is cleared when the
    handle of [_SCHEMA] resolves, before the schema is read, so a resolved
    schema is never kept: in every state the controller can reach, the
    field is empty or holds a load still waiting for its handle (or one
    whose handle failed).  A [loadSchema] call that finds the field empty,
    whatever its acceptor, starts a new load, and the schema collection is
    read again as soon as its handle resolves.  In particular the field is
    empty once every load started so far has resolved. *)
Theorem resolved_schema_is_read_again
    (tr : list (event Schema)) (st : state Schema)
    (Hrun : run init tr = Some st) :
  field_pending st /\
  (forall acc, field st = None ->
     exists st' st'',
       step st (Call acc) = Some st' /\
       field st' = Some (List.length (loads st)) /\
       opens st' = S (opens st) /\
       step st' (HandleReady (List.length (loads st))) = Some st'' /\
       reads st'' = S (reads st)) /\
  (Forall (fun l => exists schema, l = Resolved schema) (loads st) ->
   field st = None).
Proof.
  assert (Hp : field_pending st).
  { eapply run_field_pending; [|exact Hrun]. intros k Hk. discriminate. }
  split; [exact Hp|split].
  - intros acc Hf. cbn. rewrite Hf. cbn.
    eexists. eexists. split; [reflexivity|]. cbn.
    split; [reflexivity|]. split; [reflexivity|].
    rewrite nth_error_app2 by lia. rewrite Nat.sub_diag. cbn.
    split; reflexivity.
  - intros Hall. destruct (field st) as [k|] eqn:Ef; [|reflexivity].
    rewrite Forall_forall in Hall.
    destruct (Hp k Ef) as [Hk|[e Hk]]; apply nth_error_In in Hk;
      destruct (Hall _ Hk) as [schema Hs]; discriminate.
Qed.

(** *** Calls issued before the first handle resolves *)

Lemma load_at (oldl : list (load_status Schema)) s k x :
  nth_error (oldl ++ [s]) k = Some x ->
  (k < List.length oldl /\ nth_error oldl k = Some x) \/
  (k = List.length oldl /\ x = s).
Proof.
  intros H. destruct (Nat.lt_ge_cases k (List.length oldl)) as [Hlt|Hge].
  - left. split; [exact Hlt|]. now rewrite nth_error_app1 in H.
  - right. rewrite nth_error_app2 in H by exact Hge.
    destruct (k - List.length oldl) as [|j] eqn:Ej; cbn in H.
    + inversion H. split; [lia|reflexivity].
    + destruct j; discriminate.
Qed.

Lemma load_awaiting (oldl : list (load_status Schema)) s k :
  forallb (fun l => negb (awaits_handle l)) oldl = true ->
  nth_error (oldl ++ [s]) k = Some AwaitingHandle ->
  k = List.length oldl /\ s = AwaitingHandle.
Proof.
  intros Hold H. apply load_at in H as [[_ H]|[-> <-]]; [|now split].
  apply nth_error_In in H. rewrite forallb_forall in Hold.
  apply Hold in H. discriminate.
Qed.

Lemma set_nth_old {A} (l l' : list A) k x :
  k < List.length l -> set_nth k x (l ++ l') = (set_nth k x l ++ l')%list.
Proof.
  revert k. induction l as [|a l IH]; intros [|k] Hk; cbn in *;
    try lia; try reflexivity.
  f_equal. apply IH. lia.
Qed.

Lemma set_nth_last {A} (l : list A) s x :
  set_nth (List.length l) x (l ++ [s]) = (l ++ [x])%list.
Proof.
  induction l as [|a l IH]; cbn; [reflexivity|]. now f_equal.
Qed.

Lemma forallb_set_nth {A} (P : A -> bool) (l : list A) k x :
  forallb P l = true -> P x = true -> forallb P (set_nth k x l) = true.
Proof.
  revert k. induction l as [|a l IH]; intros [|k] Hl Hx; cbn in *;
    try reflexivity; apply andb_true_iff in Hl as [Ha Hl];
    apply andb_true_iff; split; auto.
Qed.

(** *** What the arrival of a schema does to the callers *)

Lemma wake_length k schema waiting (st : state Schema) done :
  List.length (callers (wake Schema k schema waiting st done))
  = List.length done + List.length waiting.
Proof.
  revert st done. induction waiting as [|c rest IH]; intros st done.
  - cbn. rewrite length_rev. lia.
  - cbn [wake]. cbn [List.length]. rewrite <- Nat.add_succ_comm.
    destruct (outcome c); [exact (IH st (c :: done))|].
    destruct (negb (Nat.eqb (follows c) k)); [exact (IH st (c :: done))|].
    destruct (acceptor c) as [acc|]; [|exact (IH st (_ :: done))].
    destruct (acc schema) as [[|]|e]; try exact (IH st (_ :: done)).
    exact (IH _ (_ :: done)).
Qed.

Lemma wake_keeps_loads k schema waiting (st : state Schema) done j :
  j < List.length (loads st) ->
  nth_error (loads (wake Schema k schema waiting st done)) j
  = nth_error (loads st) j.
Proof.
  revert st done. induction waiting as [|c rest IH]; intros st done Hj.
  - reflexivity.
  - cbn [wake]. destruct (outcome c); [now apply IH|].
    destruct (negb (Nat.eqb (follows c) k)); [now apply IH|].
    destruct (acceptor c) as [acc|]; [|now apply IH].
    destruct (acc schema) as [[|]|e]; try now apply IH.
    etransitivity; [apply IH|].
    + unfold start. cbn. rewrite length_app. lia.
    + now apply start_keeps_loads.
Qed.

(** When no waiting caller of load [k] refuses the schema, each of them
    is answered and nothing else changes. *)
Lemma wake_unrefused k schema waiting (st : state Schema) done :
  Forall (fun c => outcome c = None -> follows c = k ->
                   match acceptor c with
                   | None => True
                   | Some acc => refuses schema acc = false
                   end) waiting ->
  wake Schema k schema waiting st done
  = mkState Schema (field st) (loads st)
      (rev done ++
       map (fun c => match outcome c with
                     | Some _ => c
                     | None => if Nat.eqb (follows c) k
                               then mkCaller Schema k (acceptor c)
                                      (Some (answer schema (acceptor c)))
                               else c
                     end) waiting)
      (opens st) (reads st).
Proof.
  revert done. induction waiting as [|c rest IH]; intros done Hw.
  - cbn. now rewrite app_nil_r.
  - inversion Hw as [|? ? Hc Hrest]. subst. cbn [wake map].
    destruct (outcome c) eqn:Eo.
    + rewrite (IH _ Hrest). cbn. now rewrite <- app_assoc.
    + destruct (Nat.eqb (follows c) k) eqn:Ef; cbn [negb].
      * apply Nat.eqb_eq in Ef. specialize (Hc eq_refl Ef).
        destruct (acceptor c) as [acc|]; cbn [answer].
        -- unfold refuses in Hc.
           destruct (acc schema) as [[|]|e]; try discriminate;
             rewrite (IH _ Hrest); cbn; now rewrite <- app_assoc.
        -- rewrite (IH _ Hrest). cbn. now rewrite <- app_assoc.
      * rewrite (IH _ Hrest). cbn. now rewrite <- app_assoc.
Qed.

Lemma passive_no_reload k k' schema (oldc : list (caller Schema)) :
  forallb (passive k) oldc = true ->
  Forall (fun c => outcome c = None -> follows c = k' ->
                   match acceptor c with
                   | None => True
                   | Some acc => refuses schema acc = false
                   end) oldc.
Proof.
  intros H. apply Forall_forall. intros c Hc Ho _.
  rewrite forallb_forall in H. specialize (H c Hc).
  unfold passive in H. rewrite Ho in H.
  now destruct (acceptor c).
Qed.

Lemma passive_after_schema k k' schema (oldc : list (caller Schema)) :
  forallb (passive k) oldc = true ->
  forallb (passive k)
    (map (fun c => match outcome c with
                   | Some _ => c
                   | None => if Nat.eqb (follows c) k'
                             then mkCaller Schema k' (acceptor c)
                                    (Some (answer schema (acceptor c)))
                             else c
                   end) oldc) = true.
Proof.
  intros H. rewrite forallb_forall in *. intros c' Hc'.
  apply in_map_iff in Hc' as (c & <- & Hc). specialize (H c Hc).
  destruct (outcome c) eqn:Eo; [exact H|].
  destruct (Nat.eqb (follows c) k'); [reflexivity|exact H].
Qed.

Lemma passive_after_failure k k' e (oldc : list (caller Schema)) :
  forallb (passive k) oldc = true ->
  forallb (passive k) (fail_callers Schema k' e oldc) = true.
Proof.
  intros H. unfold fail_callers. rewrite forallb_forall in *. intros c' Hc'.
  apply in_map_iff in Hc' as (c & <- & Hc). specialize (H c Hc).
  destruct (outcome c) eqn:Eo; [exact H|].
  destruct (Nat.eqb (follows c) k'); [reflexivity|exact H].
Qed.

(** The callers of load [k] are not touched by what happens to another
    load. *)
Lemma others_after_schema k k' schema accs (mine : list (caller Schema)) :
  k' <> k -> Forall (on_load k accs) mine ->
  map (fun c => match outcome c with
                | Some _ => c
                | None => if Nat.eqb (follows c) k'
                          then mkCaller Schema k' (acceptor c)
                                 (Some (answer schema (acceptor c)))
                          else c
                end) mine = mine.
Proof.
  intros Hne Hm. rewrite <- (map_id mine) at 2. apply map_ext_in.
  intros c Hc. rewrite Forall_forall in Hm. destruct (Hm c Hc) as [Hf _].
  destruct (outcome c); [reflexivity|].
  destruct (Nat.eqb_spec (follows c) k'); [congruence|reflexivity].
Qed.

Lemma others_after_failure k k' e accs (mine : list (caller Schema)) :
  k' <> k -> Forall (on_load k accs) mine ->
  fail_callers Schema k' e mine = mine.
Proof.
  intros Hne Hm. unfold fail_callers. rewrite <- (map_id mine) at 2.
  apply map_ext_in.
  intros c Hc. rewrite Forall_forall in Hm. destruct (Hm c Hc) as [Hf _].
  destruct (outcome c); [reflexivity|].
  destruct (Nat.eqb_spec (follows c) k'); [congruence|reflexivity].
Qed.

Lemma passive_elsewhere k e (oldc : list (caller Schema)) :
  forallb (passive k) oldc = true ->
  fail_callers Schema k e oldc = oldc.
Proof.
  intros H. unfold fail_callers. rewrite <- (map_id oldc) at 2.
  apply map_ext_in. intros c Hc.
  rewrite forallb_forall in H. specialize (H c Hc). unfold passive in H.
  destruct (outcome c); [reflexivity|].
  destruct (acceptor c); [discriminate|].
  apply Nat.ltb_lt in H.
  destruct (Nat.eqb_spec (follows c) k); [lia|reflexivity].
Qed.

Lemma mine_after_schema k schema accs (mine : list (caller Schema)) :
  Forall (on_load k accs) mine ->
  Forall (fun c => outcome c = None) mine ->
  let mine' := map (fun c => match outcome c with
                             | Some _ => c
                             | None => if Nat.eqb (follows c) k
                                       then mkCaller Schema k (acceptor c)
                                              (Some (answer schema (acceptor c)))
                                       else c
                             end) mine in
  Forall (on_load k accs) mine' /\
  Forall (fun c => outcome c = Some (answer schema (acceptor c))) mine'.
Proof.
  intros Hm Hw mine'. subst mine'. split; apply Forall_map;
    rewrite Forall_forall in *; intros c Hc;
    destruct (Hm c Hc) as [Hf Ha]; rewrite (Hw c Hc), Hf, Nat.eqb_refl.
  - split; [reflexivity|exact Ha].
  - reflexivity.
Qed.

Lemma mine_after_failure k e accs (mine : list (caller Schema)) :
  Forall (on_load k accs) mine ->
  Forall (fun c => outcome c = None) mine ->
  Forall (on_load k accs) (fail_callers Schema k e mine) /\
  Forall (fun c => outcome c = Some (Err e)) (fail_callers Schema k e mine).
Proof.
  intros Hm Hw. unfold fail_callers. split; apply Forall_map;
    rewrite Forall_forall in *; intros c Hc;
    destruct (Hm c Hc) as [Hf Ha]; rewrite (Hw c Hc), Hf, Nat.eqb_refl.
  - split; [reflexivity|exact Ha].
  - reflexivity.
Qed.

(** *** One step of a shared load *)

Lemma skipn_old {A} (oldc mine : list A) :
  skipn (List.length oldc) (oldc ++ mine) = mine.
Proof.
  induction oldc as [|a oldc IH]; [reflexivity|exact IH].
Qed.

Lemma step_keeps_callers (st st' : state Schema) ev :
  is_call ev = false -> step st ev = Some st' ->
  List.length (callers st') = List.length (callers st).
Proof.
  intros Hev Hstep. destruct ev as [acc|k|k e|k schema|k e|];
    [discriminate| | | | |]; cbn in Hstep;
    try (destruct (nth_error (loads st) k) as [[| | |]|]; try discriminate);
    inversion Hstep; subst; cbn;
    try reflexivity; try (unfold fail_callers; now rewrite length_map).
  now rewrite wake_length.
Qed.

Lemma step_keeps_refusal k accs (st st' : state Schema) ev :
  is_call ev = false -> refused k accs st -> step st ev = Some st' ->
  refused k accs st'.
Proof.
  intros Hev (schema & Hk & Hacc) Hstep. exists schema. split; [|exact Hacc].
  assert (Hlt : k < List.length (loads st)).
  { apply nth_error_Some. now rewrite Hk. }
  destruct ev as [acc|j|j e|j s|j e|]; [discriminate| | | | |];
    cbn in Hstep;
    try (destruct (nth_error (loads st) j) as [[| | |]|] eqn:Ej;
         try discriminate);
    inversion Hstep; subst; cbn; try exact Hk;
    try (rewrite wake_keeps_loads by (cbn; now rewrite length_set_nth));
    cbn; (rewrite nth_error_set_nth_other; [exact Hk|congruence]).
Qed.

Lemma not_on_load k j accs (mine : list (caller Schema)) schema :
  j <> k -> Forall (on_load k accs) mine ->
  Forall (fun c => outcome c = None -> follows c = j ->
                   match acceptor c with
                   | None => True
                   | Some acc => refuses schema acc = false
                   end) mine.
Proof.
  intros Hne Hm. eapply Forall_impl; [|exact Hm].
  intros c [Hf _] _ Hj. congruence.
Qed.

Lemma on_load_unrefused k accs (mine : list (caller Schema)) schema :
  existsb (refuses schema) accs = false -> Forall (on_load k accs) mine ->
  Forall (fun c => outcome c = None -> follows c = k ->
                   match acceptor c with
                   | None => True
                   | Some acc => refuses schema acc = false
                   end) mine.
Proof.
  intros Hacc Hm. eapply Forall_impl; [|exact Hm].
  intros c [_ [Ha|(acc & Ha & Hin)]] _ _; rewrite Ha; [exact I|].
  destruct (refuses schema acc) eqn:E; [|reflexivity].
  apply not_true_iff_false in Hacc. exfalso. apply Hacc.
  apply existsb_exists. now exists acc.
Qed.

(** A settlement of the adapter's promises, or a [deleteEverything],
    leaves the shared load shared, unless its schema arrives and an
    acceptor refuses it. *)
Lemma step_shared_load k m o r accs s (st st' : state Schema) ev :
  is_call ev = false -> one_shared_load k m o r accs s st ->
  step st ev = Some st' ->
  (exists s', one_shared_load k m o r accs s' st' /\
              (keeps_field ev = true ->
               field st' = field st /\
               (handle_pending s -> handle_pending s'))) \/
  (s = Reading /\ refused k accs st').
Proof.
  intros Hev (oldl & oldc & mine & Hl & Hc & Hlen & Hm & Hold & Hpas
              & Hmine & Ho & Hprog) Hstep.
  destruct st as [f ls cs op rd]. cbn in Hl, Hc, Ho, Hprog.
  subst ls cs op k m.
  destruct ev as [acc|j|j e|j schema|j e|]; [discriminate| | | | |];
    cbn in Hstep.
  - (* the handle of a load resolves: it is the shared one *)
    destruct (nth_error (oldl ++ [s]) j) as [[| | |]|] eqn:Ej;
      try discriminate.
    destruct (load_awaiting _ _ _ Hold Ej) as [-> ->].
    inversion Hstep. subst. clear Hstep. left. exists Reading.
    split; [|discriminate].
    exists oldl, oldc, mine. cbn. rewrite set_nth_last.
    destruct Hprog as [-> Hw]. repeat split; auto.
  - (* the handle fails *)
    destruct (nth_error (oldl ++ [s]) j) as [[| | |]|] eqn:Ej;
      try discriminate.
    destruct (load_awaiting _ _ _ Hold Ej) as [-> ->].
    inversion Hstep. subst. clear Hstep. left. exists (Rejected e).
    destruct Hprog as [-> Hw].
    destruct (mine_after_failure _ e _ _ Hmine Hw) as [Hmine' Hout].
    split.
    + exists oldl, oldc, (fail_callers Schema (List.length oldl) e mine).
      cbn. rewrite set_nth_last. unfold fail_callers at 1.
      rewrite map_app. fold (fail_callers Schema (List.length oldl) e oldc).
      fold (fail_callers Schema (List.length oldl) e mine).
      rewrite (passive_elsewhere _ e _ Hpas).
      repeat split; auto.
    + intros _. cbn. split; [reflexivity|]. intros _. right. now exists e.
  - (* a schema arrives *)
    destruct (nth_error (oldl ++ [s]) j) as [[| | |]|] eqn:Ej;
      try discriminate.
    inversion Hstep. subst st'. clear Hstep.
    apply load_at in Ej as [[Hlt Ej]|[-> <-]].
    + (* of an earlier load *)
      assert (Hne : j <> List.length oldl) by lia.
      rewrite wake_unrefused.
      2:{ apply Forall_app. split;
            [now apply (passive_no_reload (List.length oldl))
            |now apply (not_on_load (List.length oldl) j accs)]. }
      left. exists s. cbn. split.
      * eexists (set_nth j (Resolved schema) oldl), _, mine.
        rewrite set_nth_old by exact Hlt. rewrite map_app.
        rewrite (others_after_schema _ _ schema _ _ Hne Hmine).
        split; [reflexivity|]. split; [reflexivity|].
        rewrite length_set_nth, length_map.
        split; [reflexivity|]. split; [reflexivity|].
        split; [now apply forallb_set_nth|].
        split; [now apply passive_after_schema|].
        repeat split; auto.
      * intros _. split; [reflexivity|]. auto.
    + (* of the shared load *)
      destruct Hprog as [-> Hw].
      destruct (existsb (refuses schema) accs) eqn:Eacc.
      * right. split; [reflexivity|]. exists schema. split; [|exact Eacc].
        rewrite wake_keeps_loads;
          cbn; rewrite set_nth_last.
        -- rewrite nth_error_app2 by lia. now rewrite Nat.sub_diag.
        -- rewrite length_app. cbn. lia.
      * rewrite wake_unrefused.
        2:{ apply Forall_app. split;
              [now apply (passive_no_reload (List.length oldl))
              |now apply (on_load_unrefused (List.length oldl) accs)]. }
        destruct (mine_after_schema _ schema _ _ Hmine Hw) as [Hmine' Hout].
        left. exists (Resolved schema). cbn. split.
        -- eexists oldl, _, _. rewrite set_nth_last, map_app.
           split; [reflexivity|]. split; [reflexivity|].
           rewrite length_map.
           split; [reflexivity|]. split; [reflexivity|].
           split; [exact Hold|].
           split; [now apply passive_after_schema|].
           repeat split; auto.
        -- intros _. split; [reflexivity|].
           intros [H|[e H]]; discriminate.
  - (* a read fails *)
    destruct (nth_error (oldl ++ [s]) j) as [[| | |]|] eqn:Ej;
      try discriminate.
    inversion Hstep. subst st'. clear Hstep. cbn.
    unfold fail_callers. rewrite map_app.
    fold (fail_callers Schema j e oldc). fold (fail_callers Schema j e mine).
    apply load_at in Ej as [[Hlt Ej]|[-> <-]].
    + assert (Hne : j <> List.length oldl) by lia.
      rewrite (others_after_failure _ _ e _ _ Hne Hmine).
      left. exists s. split.
      * eexists (set_nth j (Rejected e) oldl), _, mine. cbn.
        rewrite set_nth_old by exact Hlt.
        split; [reflexivity|]. split; [reflexivity|].
        rewrite length_set_nth. unfold fail_callers. rewrite length_map.
        split; [reflexivity|]. split; [reflexivity|].
        split; [now apply forallb_set_nth|].
        split; [now apply (passive_after_failure _ j e)|].
        repeat split; auto.
      * intros _. split; [reflexivity|]. auto.
    + destruct Hprog as [-> Hw].
      destruct (mine_after_failure _ e _ _ Hmine Hw) as [Hmine' Hout].
      left. exists (Rejected e). split.
      * eexists oldl, _, _. cbn. rewrite set_nth_last.
        split; [reflexivity|]. split; [reflexivity|].
        unfold fail_callers at 1. rewrite length_map.
        split; [reflexivity|]. split; [reflexivity|].
        split; [exact Hold|].
        split; [now apply passive_after_failure|].
        repeat split; auto.
      * intros _. split; [reflexivity|]. intros _. right. now exists e.
  - (* deleteEverything *)
    inversion Hstep. subst. left. exists s. split; [|discriminate].
    now exists oldl, oldc, mine.
Qed.

(** A call made while the field holds the shared load joins it. *)
Lemma call_joins_shared_load k m o r accs s (st st' : state Schema) acc :
  one_shared_load k m o r accs s st -> field st = Some k ->
  handle_pending s -> In acc accs -> step st (Call acc) = Some st' ->
  one_shared_load k m o r accs s st' /\ field st' = Some k /\
  List.length (callers st') = S (List.length (callers st)).
Proof.
  intros (oldl & oldc & mine & Hl & Hc & Hlen & Hm & Hold & Hpas
          & Hmine & Ho & Hprog) Hf Hpend Hin Hstep.
  destruct st as [f ls cs op rd]. cbn in Hl, Hc, Ho, Hprog, Hf.
  subst ls cs op k m f. cbn in Hstep.
  rewrite nth_error_app2, Nat.sub_diag in Hstep by lia. cbn in Hstep.
  assert (Hnew : forall out,
            on_load (List.length oldl) accs
              (mkCaller Schema (List.length oldl) (Some acc) out)).
  { intros out. split; [reflexivity|]. right. now exists acc. }
  destruct Hpend as [->|[e ->]]; inversion Hstep; subst; clear Hstep; cbn;
    (split; [|split; [reflexivity|rewrite !length_app; cbn; lia]]);
    eexists oldl, oldc, (mine ++ [_])%list; cbn; rewrite <- app_assoc;
    destruct Hprog as [Hr Hw];
    repeat split; auto; apply Forall_app; split; auto.
Qed.

Lemma run_window k m o r accs (window : list (event Schema)) :
  forall st st',
    (exists s, one_shared_load k m o r accs s st /\ handle_pending s) ->
    field st = Some k ->
    forallb keeps_field window = true ->
    incl (acceptors_of window) accs ->
    run st window = Some st' ->
    (exists s, one_shared_load k m o r accs s st' /\ handle_pending s) /\
    List.length (callers st')
    = List.length (callers st) + List.length (acceptors_of window).
Proof.
  induction window as [|ev window IH]; intros st st' Hst Hf Hwin Hinc Hrun.
  - cbn in Hrun. inversion Hrun. subst. split; [exact Hst|cbn; lia].
  - cbn in Hwin, Hrun. apply andb_true_iff in Hwin as [Hev Hwin].
    destruct (step st ev) as [st1|] eqn:Es; [|discriminate].
    destruct Hst as (s & Hs & Hpend).
    destruct (is_call ev) eqn:Ecall.
    + destruct ev as [acc| | | | |]; try discriminate. cbn in Hinc.
      destruct (call_joins_shared_load _ _ _ _ _ _ _ _ acc Hs Hf Hpend
                  (Hinc acc (or_introl eq_refl)) Es) as (Hs1 & Hf1 & Hlen).
      destruct (IH st1 st') as [H1 H2]; auto.
      * now exists s.
      * intros a Ha. apply Hinc. now right.
      * split; [exact H1|]. rewrite H2, Hlen. cbn. lia.
    + pose proof (step_keeps_callers _ _ _ Ecall Es) as Hlen.
      destruct (step_shared_load _ _ _ _ _ _ _ _ _ Ecall Hs Es)
        as [(s' & Hs' & Hkeep)|[-> _]].
      * destruct (Hkeep Hev) as [Hf1 Hp].
        assert (Hacc : acceptors_of (ev :: window) = acceptors_of window).
        { destruct ev; try reflexivity; discriminate. }
        rewrite Hacc in *.
        destruct (IH st1 st') as [H1 H2]; auto.
        -- exists s'. auto.
        -- congruence.
        -- split; [exact H1|]. now rewrite H2, Hlen.
      * destruct Hpend as [H|[e H]]; discriminate.
Qed.

Lemma run_rest k m o r accs (rest : list (event Schema)) :
  forall st st',
    (exists s, one_shared_load k m o r accs s st) \/ refused k accs st ->
    forallb (fun ev => negb (is_call ev)) rest = true ->
    run st rest = Some st' ->
    ((exists s, one_shared_load k m o r accs s st') \/ refused k accs st') /\
    List.length (callers st') = List.length (callers st).
Proof.
  induction rest as [|ev rest IH]; intros st st' Hst Hrest Hrun.
  - cbn in Hrun. inversion Hrun. subst. now split.
  - cbn in Hrest, Hrun. apply andb_true_iff in Hrest as [Hev Hrest].
    apply negb_true_iff in Hev.
    destruct (step st ev) as [st1|] eqn:Es; [|discriminate].
    pose proof (step_keeps_callers _ _ _ Hev Es) as Hlen.
    destruct (IH st1 st') as [H1 H2]; auto; [|split; [exact H1|congruence]].
    destruct Hst as [[s Hs]|Href].
    + destruct (step_shared_load _ _ _ _ _ _ _ _ _ Hev Hs Es)
        as [(s' & Hs' & _)|[_ Href]]; [left; now exists s'|now right].
    + right. eapply step_keeps_refusal; eassumption.
Qed.

(** The first call on a quiet controller starts the load the others
    will share. *)
Lemma first_call_starts_load accs (st0 st1 : state Schema) acc0 :
  quiet st0 = true -> step st0 (Call acc0) = Some st1 ->
  one_shared_load (List.length (loads st0)) (List.length (callers st0))
    (opens st0) (reads st0) accs AwaitingHandle st1 /\
  field st1 = Some (List.length (loads st0)) /\
  List.length (callers st1) = S (List.length (callers st0)).
Proof.
  unfold quiet. intros Hq Hstep.
  apply andb_true_iff in Hq as [Hq Hpas].
  apply andb_true_iff in Hq as [Hf Hold].
  destruct st0 as [f ls cs op rd]. cbn in *.
  destruct f; [discriminate|]. inversion Hstep. subst. clear Hstep. cbn.
  split; [|split; [reflexivity|rewrite length_app; cbn; lia]].
  exists ls, cs, [mkCaller Schema (List.length ls) None None]. cbn.
  repeat split; auto.
  constructor; [|constructor]. split; [reflexivity|now left].
Qed.

(** C3, as the code has it.  Take a controller on which nothing in
    flight can touch the field [schemaPromise]: the field is empty, no
    load waits for its handle and no waiting caller has an acceptor to
    run.  A first call of [loadSchema] starts load [k].  Every further
    call made before the handle of [_SCHEMA] resolves (and before a
    [deleteEverything]), with any acceptor and however the calls are
    interleaved with the settlement of earlier reads or the failure of
    the handle, joins that load.  Whatever the adapter does after the
    last call, unless the schema arrives and an acceptor refuses it, the
    calls have caused one load, one opening of [_SCHEMA] and at most one
    read, and every caller waits on load [k].  Once the read has resolved
    with a schema that no acceptor refuses, the schema collection was
    read exactly once for these calls and every caller is answered from
    that one schema: with the schema itself, unless its own acceptor
    threw; so when every acceptor accepts it, every caller has the same
    schema. *)
Theorem calls_before_handle_share_one_read
    (st0 st : state Schema) (acc0 : Schema -> res bool)
    (window rest : list (event Schema))
    (Hquiet : quiet st0 = true)
    (Hwindow : forallb keeps_field window = true)
    (Hrest : forallb (fun ev => negb (is_call ev)) rest = true)
    (Hrun : run st0 (Call acc0 :: window ++ rest) = Some st) :
  let k := List.length (loads st0) in
  let mine := skipn (List.length (callers st0)) (callers st) in
  let unrefused schema :=
    existsb (refuses schema) (acceptors_of window) = false in
  List.length mine = S (List.length (acceptors_of window)) /\
  ((forall schema,
      nth_error (loads st) k = Some (Resolved schema) -> unrefused schema) ->
   List.length (loads st) = S k /\ opens st = S (opens st0) /\
   reads st <= S (reads st0) /\ Forall (fun c => follows c = k) mine) /\
  (forall schema,
     nth_error (loads st) k = Some (Resolved schema) -> unrefused schema ->
     reads st = S (reads st0) /\
     Forall (fun c => outcome c = Some (answer schema (acceptor c))) mine /\
     (forallb (accepts schema) (acceptors_of window) = true ->
      Forall (fun c => outcome c = Some (Ok schema)) mine)).
Proof.
  intros k mine unrefused. subst mine unrefused.
  cbn [run] in Hrun.
  destruct (step st0 (Call acc0)) as [st1|] eqn:E1; [|discriminate].
  rewrite run_app in Hrun.
  destruct (run st1 window) as [st2|] eqn:E2; [|discriminate].
  destruct (first_call_starts_load (acceptors_of window) _ _ _ Hquiet E1)
    as (H1 & Hf1 & Hlen1).
  destruct (run_window k (List.length (callers st0)) (opens st0) (reads st0)
              (acceptors_of window) window st1 st2)
    as [(s2 & H2 & _) Hlen2]; auto using incl_refl.
  { exists AwaitingHandle. split; [exact H1|now left]. }
  destruct (run_rest k (List.length (callers st0)) (opens st0) (reads st0)
              (acceptors_of window) rest st2 st) as [H3 Hlen3]; auto.
  { left. now exists s2. }
  split.
  { rewrite length_skipn, Hlen3, Hlen2, Hlen1. lia. }
  destruct H3 as [(s & oldl & oldc & mine & Hl & Hc & Hlen & Hm & Hold & Hpas
                   & Hmine & Ho & Hprog)|(schema' & Hk & Hno)].
  - assert (Hk : nth_error (loads st) k = Some s).
    { rewrite Hl. subst k. rewrite <- Hlen.
      rewrite nth_error_app2, Nat.sub_diag by lia. reflexivity. }
    assert (Hmy : skipn (List.length (callers st0)) (callers st) = mine).
    { rewrite Hc, <- Hm. apply skipn_old. }
    rewrite Hmy. split.
    + intros _. rewrite Hl, length_app. cbn.
      split; [subst k; lia|]. split; [exact Ho|]. split.
      * destruct s; cbn in Hprog; destruct Hprog; lia.
      * eapply Forall_impl; [|exact Hmine]. now intros c [Hfc _].
    + intros schema Hs _. rewrite Hk in Hs. inversion Hs. subst s.
      destruct Hprog as [Hr Hout].
      split; [exact Hr|]. split; [exact Hout|].
      intros Hacc. rewrite Forall_forall in *. intros c Hin.
      rewrite (Hout c Hin).
      destruct (Hmine c Hin) as [_ [Ha|(acc & Ha & Hacc')]]; rewrite Ha;
        [reflexivity|].
      rewrite forallb_forall in Hacc. specialize (Hacc acc Hacc').
      unfold accepts in Hacc. cbn.
      destruct (acc schema) as [[|]|e]; try discriminate. reflexivity.
  - split.
    + intros Hall. specialize (Hall _ Hk). congruence.
    + intros schema Hs Hall. rewrite Hk in Hs. inversion Hs. subst.
      congruence.
Qed.
End LoaderProps.

(** C3 fails as stated.  Two [loadSchema()] calls, the second issued after
    the handle of the first has resolved and while its read is in flight:
    no caller has its schema yet when the second call is made, and the
    schema collection is read twice. *)
Lemma call_during_read_reads_twice :
  let tr := [EventLoop.Call EventLoop.returnsTrue; EventLoop.HandleReady 0;
             EventLoop.Call EventLoop.returnsTrue; EventLoop.HandleReady 1;
             EventLoop.Loaded 0 Sample.stored_schema;
             EventLoop.Loaded 1 Sample.stored_schema] in
  EventLoop.calls_before_any_resolves EventLoop.init tr = true /\
  exists st, EventLoop.run EventLoop.init tr = Some st /\
             EventLoop.reads st = 2%nat /\
             EventLoop.all_resolved_with Sample.stored_schema st.
Proof.
  split; [vm_compute; reflexivity|].
  eexists. split; [vm_compute; reflexivity|]. split; [reflexivity|].
  repeat constructor.
Qed.

(** The quiet controller is needed.  Two callers refuse the schema of
    load [0] and each starts a reload; the handle of the first reload
    resolves and deletes the field, a call starts load [3]; the handle of
    the second reload resolves and deletes the field again, and the next
    call, made while load [3] still waits for its handle, starts load
    [4]. *)
Lemma earlier_handle_splits_callers :
  let refuse := fun _ : Sample.schema => Ok false in
  exists st,
    EventLoop.run EventLoop.init
      [EventLoop.Call EventLoop.returnsTrue; EventLoop.Call refuse;
       EventLoop.Call refuse; EventLoop.HandleReady 0;
       EventLoop.Loaded 0 Sample.stored_schema;
       EventLoop.HandleReady 1; EventLoop.Call EventLoop.returnsTrue;
       EventLoop.HandleReady 2; EventLoop.Call EventLoop.returnsTrue]
    = Some st /\
    map EventLoop.follows (skipn 3 (EventLoop.callers st)) = [3; 4]%nat /\
    nth_error (EventLoop.loads st) 3 = Some EventLoop.AwaitingHandle /\
    nth_error (EventLoop.loads st) 4 = Some EventLoop.AwaitingHandle.
Proof.
  eexists. split; [vm_compute; reflexivity|]. repeat split.
Qed.

(** A controller with a read in flight: a call starts load [1], two more
    calls with acceptors of their own join it, one of them after the
    earlier read has resolved; then the handle and the schema of load [1]
    arrive.  One more read, and the three callers have the schema. *)
Lemma calls_before_handle_share_one_read_witness :
  let busy := EventLoop.mkState Sample.schema None [EventLoop.Reading]
                [EventLoop.mkCaller Sample.schema 0 None None] 1 1 in
  let has_title := fun schema : Sample.schema =>
                     Ok (hasKeys schema "Post" (KeySet ["title"])) in
  let window := [EventLoop.Call has_title;
                 EventLoop.Loaded 0 Sample.stored_schema;
                 EventLoop.Call EventLoop.returnsTrue] in
  let rest := [EventLoop.HandleReady 1;
               EventLoop.Loaded 1 Sample.stored_schema] in
  let final :=
    EventLoop.mkState Sample.schema None
      [EventLoop.Resolved Sample.stored_schema;
       EventLoop.Resolved Sample.stored_schema]
      [EventLoop.mkCaller Sample.schema 0 None (Some (Ok Sample.stored_schema));
       EventLoop.mkCaller Sample.schema 1 None (Some (Ok Sample.stored_schema));
       EventLoop.mkCaller Sample.schema 1 (Some has_title)
         (Some (Ok Sample.stored_schema));
       EventLoop.mkCaller Sample.schema 1 (Some EventLoop.returnsTrue)
         (Some (Ok Sample.stored_schema))] 2 2 in
  EventLoop.run busy (EventLoop.Call EventLoop.returnsTrue :: window ++ rest)
  = Some final /\
  EventLoop.reads final = 2%nat /\
  Forall (fun c => EventLoop.outcome c = Some (Ok Sample.stored_schema))
    (skipn 1 (EventLoop.callers final)).
Proof.
  intros busy has_title window rest final.
  assert (Hrun : EventLoop.run busy
                   (EventLoop.Call EventLoop.returnsTrue :: window ++ rest)
                 = Some final) by (vm_compute; reflexivity).
  split; [exact Hrun|].
  split;
    [apply (proj1 (proj2 (proj2 (calls_before_handle_share_one_read
                                   Sample.schema busy final
                                   EventLoop.returnsTrue window rest
                                   eq_refl eq_refl eq_refl Hrun))
                     Sample.stored_schema eq_refl eq_refl))|].
  apply (proj2 (proj2 (proj2 (proj2 (calls_before_handle_share_one_read
                         Sample.schema
                         busy final EventLoop.returnsTrue window rest
                         eq_refl eq_refl eq_refl Hrun))
           Sample.stored_schema eq_refl eq_refl)));
    vm_compute; reflexivity.
Defined.

(** C4 fails as stated.  A load runs to its end and resolves; the next
    [loadSchema()] opens [_SCHEMA] and reads the schema again, and its
    caller waits for that read instead of being handed the earlier
    schema. *)
Lemma load_after_resolution_reads_again :
  exists st,
    EventLoop.run EventLoop.init
      [EventLoop.Call EventLoop.returnsTrue; EventLoop.HandleReady 0;
       EventLoop.Loaded 0 Sample.stored_schema;
       EventLoop.Call EventLoop.returnsTrue; EventLoop.HandleReady 1]
    = Some st /\
    EventLoop.opens st = 2%nat /\ EventLoop.reads st = 2%nat /\
    map EventLoop.outcome (EventLoop.callers st)
    = [Some (Ok Sample.stored_schema); None].
Proof.
  eexists. split; [vm_compute; reflexivity|]. repeat split.
Qed.

(** After a load that ran to its end the field is empty, and the next
    call starts a second load and a second read. *)
Lemma resolved_schema_is_read_again_witness :
  exists st,
    EventLoop.run EventLoop.init
      [EventLoop.Call EventLoop.returnsTrue; EventLoop.HandleReady 0;
       EventLoop.Loaded 0 Sample.stored_schema]
    = Some st /\
    EventLoop.field st = None /\
    exists st' st'',
      EventLoop.step st (EventLoop.Call EventLoop.returnsTrue) = Some st' /\
      EventLoop.step st' (EventLoop.HandleReady 1) = Some st'' /\
      EventLoop.reads st'' = 2%nat.
Proof.
  eexists. split; [reflexivity|].
  destruct (resolved_schema_is_read_again Sample.schema
              [EventLoop.Call EventLoop.returnsTrue; EventLoop.HandleReady 0;
               EventLoop.Loaded 0 Sample.stored_schema] _ eq_refl)
    as (_ & Hcall & Hnone).
  assert (Hf : EventLoop.field
                 (EventLoop.mkState Sample.schema None
                    [EventLoop.Resolved Sample.stored_schema]
                    [EventLoop.mkCaller Sample.schema 0 None
                       (Some (Ok Sample.stored_schema))] 1 1) = None).
  { apply Hnone. repeat constructor. now exists Sample.stored_schema. }
  split; [exact Hf|].
  destruct (Hcall EventLoop.returnsTrue Hf) as (st' & st'' & H1 & _ & _ & H2 & H3).
  now exists st', st''.
Defined.

(** * Further properties *)

(** ** The matchers of the resilient find *)

Lemma strip_prefix_app p s r :
  MongoCollection.strip_prefix p s = Some r -> s = p ++ r.
Proof.
  revert s. induction p as [|a p IH]; intros s; cbn.
  - intros H. now inversion H.
  - destruct s as [|b s]; [discriminate|].
    destruct (Ascii.eqb_spec a b) as [->|]; [|discriminate].
    intros H. cbn. f_equal. now apply IH.
Qed.

Lemma strip_prefix_of_app p r : MongoCollection.strip_prefix p (p ++ r) = Some r.
Proof.
  induction p as [|a p IH]; cbn; [reflexivity|].
  now rewrite Ascii.eqb_refl.
Qed.

Lemma span_word_app s w t :
  MongoCollection.span_word s = (w, t) -> s = w ++ t /\ all_word w = true.
Proof.
  revert w t. induction s as [|c s IH]; intros w t; cbn.
  - intros H. inversion H. now split.
  - destruct (MongoCollection.is_word c) eqn:Ec.
    + destruct (MongoCollection.span_word s) as [w' t'].
      intros H. inversion H. subst.
      destruct (IH _ _ eq_refl) as [-> Hw]. cbn. now rewrite Ec.
    + intros H. inversion H. now split.
Qed.

Lemma field_here_sound s key :
  MongoCollection.field_here s = Some key ->
  key <> "" /\ all_word key = true /\
  exists post, s = "field=" ++ key ++ " " ++ post.
Proof.
  unfold MongoCollection.field_here.
  destruct (MongoCollection.strip_prefix "field=" s) as [r|] eqn:Ep;
    [|discriminate].
  destruct (MongoCollection.span_word r) as [w t] eqn:Es.
  destruct w as [|c w]; [discriminate|].
  destruct t as [|sp t]; [discriminate|].
  destruct (Ascii.eqb_spec sp " ") as [->|]; [|discriminate].
  intros H. inversion H. subst.
  apply strip_prefix_app in Ep. apply span_word_app in Es as [Hr Hw].
  split; [discriminate|]. split; [exact Hw|].
  exists t. now rewrite Ep, Hr.
Qed.

Lemma match_field_word (message key : string) :
  MongoCollection.match_field message = Some key ->
  key <> "" /\ all_word key = true.
Proof.
  induction message as [|c m IH]; cbn [MongoCollection.match_field].
  - destruct (MongoCollection.field_here "") eqn:E; [|discriminate].
    intros H. inversion H. subst.
    destruct (field_here_sound _ _ E) as (H1 & H2 & _). now split.
  - destruct (MongoCollection.field_here (String c m)) eqn:E; [|exact IH].
    intros H. inversion H. subst.
    destruct (field_here_sound _ _ E) as (H1 & H2 & _). now split.
Qed.

(** The capture of [/field=([A-Za-z_0-9]+) /] is a non-empty run of word
    characters that stands in the message between [field=] and a space. *)
Theorem match_field_sound (message key : string)
    (Hmatch : MongoCollection.match_field message = Some key) :
  key <> "" /\ all_word key = true /\
  exists pre post, message = pre ++ "field=" ++ key ++ " " ++ post.
Proof.
  induction message as [|c m IH]; cbn [MongoCollection.match_field] in Hmatch.
  - destruct (MongoCollection.field_here "") eqn:E; [|discriminate].
    inversion Hmatch. subst.
    destruct (field_here_sound _ _ E) as (H1 & H2 & post & H3).
    split; [exact H1|]. split; [exact H2|]. now exists "", post.
  - destruct (MongoCollection.field_here (String c m)) eqn:E.
    + inversion Hmatch. subst.
      destruct (field_here_sound _ _ E) as (H1 & H2 & post & H3).
      split; [exact H1|]. split; [exact H2|]. now exists "", post.
    + destruct (IH Hmatch) as (H1 & H2 & pre & post & H3).
      split; [exact H1|]. split; [exact H2|].
      exists (String c pre), post. cbn. now rewrite H3.
Qed.

Lemma match_field_sound_witness :
  "location" <> "" /\ all_word "location" = true /\
  exists pre post,
    err_message Sample.no_geo_index
    = pre ++ "field=" ++ "location" ++ " " ++ post.
Proof.
  apply (match_field_sound (err_message Sample.no_geo_index) "location").
  vm_compute. reflexivity.
Defined.

Lemma geoNear_here_spec s :
  MongoCollection.geoNear_here s = true <->
  exists c post,
    MongoCollection.is_line_terminator c = false /\
    s = "unable to find index for " ++ String c ("geoNear" ++ post).
Proof.
  unfold MongoCollection.geoNear_here. split.
  - destruct (MongoCollection.strip_prefix "unable to find index for " s)
      as [[|c r]|] eqn:Ep; try discriminate.
    intros H. apply andb_true_iff in H as [Hc Hg].
    destruct (MongoCollection.strip_prefix "geoNear" r) as [post|] eqn:Eg;
      [|discriminate].
    apply strip_prefix_app in Ep, Eg. subst.
    exists c, post. split; [|reflexivity].
    now destruct (MongoCollection.is_line_terminator c).
  - intros (c & post & Hc & ->).
    rewrite (strip_prefix_of_app "unable to find index for ").
    rewrite Hc. cbn [negb andb].
    now rewrite (strip_prefix_of_app "geoNear").
Qed.

(** The message matches [/unable to find index for .geoNear/] exactly when
    it contains that text with one character, not a line terminator, in
    the place of the dot. *)
Theorem match_geoNear_spec (message : string) :
  MongoCollection.match_geoNear message = true <->
  exists pre c post,
    MongoCollection.is_line_terminator c = false /\
    message = pre ++ "unable to find index for " ++ String c ("geoNear" ++ post).
Proof.
  induction message as [|a m IH]; cbn [MongoCollection.match_geoNear].
  - rewrite orb_false_r, geoNear_here_spec. split.
    + intros (c & post & Hc & H). now exists "", c, post.
    + intros ([|x pre] & c & post & Hc & H); [now exists c, post|].
      discriminate.
  - rewrite orb_true_iff, geoNear_here_spec, IH. split.
    + intros [(c & post & Hc & H)|(pre & c & post & Hc & H)].
      * now exists "", c, post.
      * exists (String a pre), c, post. split; [exact Hc|].
        cbn. now rewrite H.
    + intros ([|x pre] & c & post & Hc & H).
      * left. now exists c, post.
      * right. cbn in H. inversion H. subst. now exists pre, c, post.
Qed.

(** ** The calls of the resilient find *)

Section FindCalls.
Context {ST : Store}.
Variable name : string.

(** Whatever the store answers, [find] issues the driver's find once, or
    the find and one index creation, or the find, one index creation and
    the find once more, never anything else; the index it creates is
    [{key: '2d'}] for a non-empty key of word characters. *)
Theorem find_issues_at_most_one_retry
    (query : json) (opts : find_options) (s : conn) :
  let after := calls (fst (MongoCollection.find name query opts s)) in
  let look := CallFind name query opts in
  after = (calls s ++ [look])%list \/
  exists key,
    key <> "" /\ all_word key = true /\
    (after = (calls s ++ [look; CallCreateIndex name (JObj [(key, JStr "2d")])])%list \/
     after = (calls s ++ [look; CallCreateIndex name (JObj [(key, JStr "2d")]);
                          look])%list).
Proof.
  cbv zeta.
  unfold MongoCollection.find, MongoCollection._rawFind,
    MongoCollection.createIndex, catch, issue.
  destruct (driver_find name query opts (db s)) as [d1 [docs|e]]; cbn [fst calls].
  - now left.
  - destruct (negb _ || negb _)%bool; [now left|].
    unfold bind, or_type_error.
    destruct (MongoCollection.match_field (err_message e)) as [key|] eqn:Ek;
      [|now left].
    unfold ret. cbn.
    destruct (match_field_word _ _ Ek) as [Hne Hw].
    pose proof Hne as Hne'. apply String.eqb_neq in Hne'. rewrite Hne'. cbn.
    right. exists key. split; [exact Hne|]. split; [exact Hw|].
    destruct (driver_createIndex name (JObj [(key, JStr "2d")]) d1)
      as [d2 [[]|e']]; cbn.
    + right. destruct (driver_find name query opts d2) as [d3 r]. cbn.
      now rewrite <- !app_assoc.
    + left. now rewrite <- app_assoc.
Qed.

End FindCalls.

(** ** The response projector *)

Section ProjectorProps.
Context {ST : Store} {CO : Collaborators}.

(** A [_User] object read by a caller who is not master and whose ACL
    group (a list) does not hold the object's id comes back without
    [authData] and [sessionToken]; every other field is as the transform
    produced it. *)
Theorem untransformObject_redacts_user
    (schema : Schema) (acl : list json) (mongoObject : json)
    (fields : list (string * json))
    (Hobj : transform_untransformObject schema "_User" mongoObject
            = Ok (JObj fields))
    (Hother : existsb (strict_eq (assoc_get "objectId" fields)) acl = false) :
  exists fields',
    untransformObject schema false (JArr acl) "_User" mongoObject
    = Ok (JObj fields') /\
    assoc_has "authData" fields' = false /\
    assoc_has "sessionToken" fields' = false /\
    (forall key, key <> "authData" -> key <> "sessionToken" ->
                 assoc_get key fields' = assoc_get key fields /\
                 assoc_has key fields' = assoc_has key fields).
Proof.
  exists (assoc_delete "sessionToken" (assoc_delete "authData" fields)).
  split; [|split; [|split]].
  - unfold untransformObject. rewrite Hobj. cbn. now rewrite Hother.
  - rewrite !assoc_has_delete. reflexivity.
  - now rewrite assoc_has_delete.
  - intros key Ha Hs. split.
    + now rewrite !assoc_get_delete_other.
    + rewrite !assoc_has_delete.
      apply String.eqb_neq in Ha, Hs. now rewrite Ha, Hs.
Qed.

(** An object of another class, any object read by master, and a [_User]
    object whose id is in the caller's ACL group are returned as the
    transform produced them. *)
Theorem untransformObject_keeps_object
    (schema : Schema) (isMaster : bool) (aclGroup : json)
    (className : string) (mongoObject object : json)
    (Hobj : transform_untransformObject schema className mongoObject = Ok object)
    (Hwho : className <> "_User" \/ isMaster = true \/
            exists oid, get "objectId" object = Some oid /\
                        acl_index_of aclGroup oid = true) :
  untransformObject schema isMaster aclGroup className mongoObject = Ok object.
Proof.
  unfold untransformObject. rewrite Hobj.
  destruct (String.eqb_spec className "_User") as [->|Hne]; cbn.
  - destruct Hwho as [H|[->|(oid & Hoid & Hin)]].
    + now contradiction H.
    + reflexivity.
    + destruct isMaster; [reflexivity|]. now rewrite Hoid, Hin.
  - reflexivity.
Qed.

End ProjectorProps.

Lemma untransformObject_redacts_user_witness :
  untransformObject Sample2.loaded_schema false (JArr [JStr "u2"]) "_User"
    Sample2.user_u1
  = Ok (JObj [("objectId", JStr "u1"); ("username", JStr "ann")]).
Proof.
  destruct (untransformObject_redacts_user Sample2.loaded_schema [JStr "u2"]
              Sample2.user_u1
              [("objectId", JStr "u1"); ("username", JStr "ann");
               ("authData", JObj []); ("sessionToken", JStr "r:1")]
              eq_refl eq_refl) as (fields' & Hrun & _).
  rewrite Hrun. vm_compute in Hrun. now inversion Hrun.
Defined.

Lemma untransformObject_keeps_object_witness :
  untransformObject Sample2.loaded_schema false (JArr [JStr "u1"]) "_User"
    Sample2.user_u1
  = Ok Sample2.user_u1.
Proof.
  apply (untransformObject_keeps_object Sample2.loaded_schema false
           (JArr [JStr "u1"]) "_User" Sample2.user_u1 Sample2.user_u1 eq_refl).
  right. right. exists (JStr "u1"). split; reflexivity.
Defined.

(** ** The action find asks permission for *)

Lemma index_props_from_length i l :
  List.length (index_props_from i l) = List.length l.
Proof. revert i. induction l as [|x l IH]; intros i; cbn; auto. Qed.

(** [find] asks for the [get] permission exactly when the query is the
    object [{objectId: <string>}]; for every other query that is not
    [null] or [undefined] it asks for [find]. *)
Theorem find_op_get_iff (query : json) :
  (find_op query = Ok "get" <->
   exists id, query = JObj [("objectId", JStr id)]) /\
  (find_op query = Ok "get" \/ find_op query = Ok "find" \/
   query = JUndef \/ query = JNull).
Proof.
  split.
  - split.
    + unfold find_op, object_keys.
      destruct query as [| |b|n|s|l|l]; unfold prop; cbn -[String.eqb];
        rewrite ?andb_false_r; try discriminate.
      destruct l as [|[k v] [|kv l]]; cbn -[String.eqb]; try discriminate.
      destruct (String.eqb_spec "objectId" k) as [<-|]; cbn.
      * destruct v; cbn; try discriminate. intros _. now eexists.
      * discriminate.
    + intros [id ->]. reflexivity.
  - unfold find_op. destruct (object_keys query) as [k|] eqn:Ek.
    + destruct (_ && _)%bool; auto.
    + destruct query; cbn in Ek; try discriminate; auto.
Qed.

(** ** The keys handed to hasKeys *)

Section KeysProps.
Context {ST : Store} {CO : Collaborators}.

(** For a query with an [$and] or [$or] list, [keysForQuery] yields a set
    with one element per branch, in the order of the branches, and the
    element of a branch is what [keysForQuery] computes for that branch:
    [concat] appends the branch's set itself, so no field name of a branch
    is an element of the result.  For any other query on which it returns,
    the sublist is falsy and the result is the set of
    [Object.keys(query)]. *)
Theorem keysForQuery_shape (fuel : nat) (query : json) (r : key_collection)
    (Hrun : keysForQuery (S fuel) query = Ok r) :
  match sublist_of query with
  | JArr subs =>
      exists sets,
        r = SetOfSets sets /\
        Forall2 (fun sub set => keysForQuery fuel sub = Ok set) subs sets
  | _ =>
      truthy (sublist_of query) = false /\
      exists keys, object_keys query = Some keys /\ r = KeySet keys
  end.
Proof.
  cbn [keysForQuery] in Hrun. unfold sublist_of.
  destruct (get "$and" query) as [and_|] eqn:Ea; [|discriminate].
  assert (Hand : prop "$and" query = and_) by (unfold prop; now rewrite Ea).
  rewrite Hand.
  destruct (if truthy and_ then and_ else prop "$or" query)
    as [| |b|n|s|subs|o] eqn:Es; cbn [truthy] in Hrun |- *;
    try (destruct (object_keys query) as [keys|]; [|discriminate];
         inversion Hrun; split; [reflexivity|now exists keys]);
    try (destruct b; [discriminate|]);
    try (destruct (negb (n =? 0)%Z); [discriminate|]);
    try (destruct (negb (s =? "")%string); [discriminate|]);
    try (destruct (object_keys query) as [keys|]; [|discriminate];
         inversion Hrun; split; [reflexivity|now exists keys]);
    try discriminate.
  match type of Hrun with
  | match ?f subs with _ => _ end = _ =>
      destruct (f subs) as [sets|e] eqn:Eeach; [|discriminate];
      assert (Hall : forall l sets',
                f l = Ok sets' ->
                Forall2 (fun sub set => keysForQuery fuel sub = Ok set)
                  l sets')
  end.
  { clear. induction l as [|q l IH]; intros sets' H.
    - inversion H. constructor.
    - destruct (keysForQuery fuel q) as [k|] eqn:Eq; [|discriminate].
      destruct ((fix each (l0 : list json) : res (list key_collection) := _) l)
        as [ks|] eqn:E; [|discriminate].
      inversion H. constructor; [exact Eq|]. now apply IH. }
  inversion Hrun. exists sets. split; [reflexivity|]. now apply Hall.
Qed.

End KeysProps.

Lemma keysForQuery_shape_witness :
  let name_x := JObj [("name", JStr "x")] in
  let age_3 := JObj [("age", JNum 3); ("city", JStr "c")] in
  exists sets,
    keysForQuery 3 (JObj [("$or", JArr [name_x; age_3])]) = Ok (SetOfSets sets) /\
    Forall2 (fun sub set => keysForQuery 2 sub = Ok set) [name_x; age_3] sets.
Proof.
  intros name_x age_3.
  destruct (keysForQuery 3 (JObj [("$or", JArr [name_x; age_3])]))
    as [r|e] eqn:Hrun; [|vm_compute in Hrun; discriminate].
  destruct (keysForQuery_shape 2 _ r Hrun) as (sets & -> & Hall).
  now exists sets.
Defined.

(** ** A second pass over a rewritten query *)

Lemma mapM_fixed {S A} (f : A -> M S A) (l ys : list A) (s s' : S) :
  mapM f l s = (s', Ok ys) ->
  (forall x s1 s1' y, In x l -> f x s1 = (s1', Ok y) ->
                      forall s2, f y s2 = (s2, Ok y)) ->
  forall s2, mapM f ys s2 = (s2, Ok ys).
Proof.
  revert ys s s'. induction l as [|x l IH]; intros ys s s' H Hfix s2.
  - cbn in H. unfold ret in H. inversion H. reflexivity.
  - cbn [mapM] in H. chain H. unfold ret in H. inversion H. subst.
    cbn [mapM].
    rewrite (bind_ok _ _ _ _ _ (Hfix x s s0 a (or_introl eq_refl) Hstep s2)).
    rewrite (bind_ok _ _ _ _ _ (IH _ _ _ Hstep0
               (fun x' s1 s1' y Hin => Hfix x' s1 s1' y (or_intror Hin)) s2)).
    reflexivity.
Qed.

Lemma mapM_length {S A B} (f : A -> M S B) (l : list A) (ys : list B) (s s' : S) :
  mapM f l s = (s', Ok ys) -> List.length ys = List.length l.
Proof.
  revert ys s s'. induction l as [|x l IH]; intros ys s s' H.
  - cbn in H. unfold ret in H. now inversion H.
  - cbn [mapM] in H. chain H. unfold ret in H. inversion H. subst.
    cbn. f_equal. eapply IH; eassumption.
Qed.

Lemma assoc_set_twice k v w l :
  assoc_set k v (assoc_set k w l) = assoc_set k v l.
Proof.
  induction l as [|[k0 v0] l IH]; cbn.
  - now rewrite String.eqb_refl.
  - destruct (String.eqb k k0) eqn:E; cbn; rewrite E; [reflexivity|].
    now rewrite IH.
Qed.

Section SecondPass.
Context {ST : Store} {CO : Collaborators}.
Variable collectionPrefix : string.

Lemma relatedTo_rewrite_clears props ids props' :
  relatedTo_rewrite props ids = Some props' ->
  assoc_get "$relatedTo" props' = JUndef /\
  assoc_get "$or" props' = assoc_get "$or" props.
Proof.
  unfold relatedTo_rewrite.
  destruct (js_concat _ ids) as [queryIn|]; [|discriminate].
  intros H. inversion H. subst. split.
  - rewrite assoc_get_set_other by discriminate. apply assoc_get_delete_same.
  - rewrite assoc_get_set_other by discriminate.
    now rewrite assoc_get_delete_other by discriminate.
Qed.

(** [reduceRelationKeys] is idempotent: run again on the query a
    successful run left behind, with [$or] branches at any depth, it
    returns that query as it is and issues no call. *)
Theorem reduceRelationKeys_idempotent
    (fuel : nat) (className : string) (query query' : json) (s s' s2 : conn)
    (Hrun : reduceRelationKeys collectionPrefix fuel className query s
            = (s', Ok query')) :
  reduceRelationKeys collectionPrefix fuel className query' s2
  = (s2, Ok query').
Proof.
  revert query query' s s' s2 Hrun.
  induction fuel as [|fuel IH]; intros query query' s s' s2 H;
    [discriminate|].
  cbn [reduceRelationKeys] in H.
  destruct query as [| |b|n|t|l|props];
    try discriminate;
    try (unfold ret in H; inversion H; subst; reflexivity).
  destruct (truthy (assoc_get "$or" props)) eqn:Eor.
  - destruct (assoc_get "$or" props) as [| | | | |branches|] eqn:Eb;
      try discriminate.
    chain H. unfold ret in H. inversion H. subst. clear H.
    cbn [reduceRelationKeys]. rewrite assoc_get_set_same. cbn [truthy].
    erewrite bind_ok;
      [|eapply mapM_fixed; [exact Hstep|]; intros; eapply IH; eassumption].
    unfold ret. now rewrite assoc_set_twice.
  - destruct (truthy (assoc_get "$relatedTo" props)) eqn:Erel.
    + chain H.
      apply or_type_error_inv_ok in Hstep1 as [-> Hrw].
      destruct (relatedTo_rewrite_clears _ _ _ Hrw) as [Hr Ho].
      destruct fuel as [|fuel']; [discriminate|].
      cbn [reduceRelationKeys] in H. rewrite Ho, Eor, Hr in H. cbn in H.
      unfold ret in H. inversion H. subst.
      cbn [reduceRelationKeys]. rewrite Ho, Eor, Hr. reflexivity.
    + unfold ret in H. inversion H. subst.
      cbn [reduceRelationKeys]. now rewrite Eor, Erel.
Qed.

End SecondPass.

Lemma reduceRelationKeys_idempotent_witness :
  let rewritten :=
    JObj [("$or", JArr [JObj [("objectId",
                               JObj [("$in", JArr [JStr "u1"; JStr "u2"])])];
                        JObj [("name", JStr "x")]])] in
  reduceRelationKeys "" 3 "_User" rewritten (Sample.connected [] [])
  = (Sample.connected [] [], Ok rewritten).
Proof.
  intros rewritten.
  apply (reduceRelationKeys_idempotent "" 3 "_User"
           (JObj [("$or", JArr [JObj [("$relatedTo", Sample.liked_by_p1)];
                                JObj [("name", JStr "x")]])])
           rewritten
           (Sample.connected [] [Sample.likes_edges])
           (Sample.connected
              [CallAdaptiveCollection "_Join:likes:Post";
               CallFind "_Join:likes:Post" (JObj [("owningId", JStr "p1")])
                 no_options] [])).
  vm_compute. reflexivity.
Defined.

(** ** Keys next to an $or, and queries without relations *)

Section RewriteProps.
Context {ST : Store} {CO : Collaborators}.
Variable collectionPrefix : string.

(** On a query with an [$or], the two rewriting steps touch the [$or]
    list only: when they resolve, every other key of the query, a
    [$relatedTo] clause or a relation predicate included, has the value it
    had. *)
Theorem or_siblings_left_alone
    (fuel : nat) (className : string) (props : list (string * json))
    (schema : Schema) (s s' : conn) (query' : json)
    (Hor : truthy (assoc_get "$or" props) = true)
    (Hrun : resolve_relations collectionPrefix fuel className (JObj props)
              schema s = (s', Ok query')) :
  exists ors',
    query' = JObj (assoc_set "$or" (JArr ors') props) /\
    forall key, key <> "$or" ->
      assoc_get key (assoc_set "$or" (JArr ors') props) = assoc_get key props /\
      assoc_has key (assoc_set "$or" (JArr ors') props) = assoc_has key props.
Proof.
  unfold resolve_relations in Hrun. chain Hrun.
  unfold ret in Hrun. inversion Hrun. subst. clear Hrun.
  destruct fuel as [|fuel]; [discriminate|].
  cbn [reduceRelationKeys] in Hstep. rewrite Hor in Hstep.
  destruct (assoc_get "$or" props) as [| | | | |branches|] eqn:Eb;
    try discriminate.
  chain Hstep. unfold ret in Hstep. inversion Hstep. subst. clear Hstep.
  cbn [reduceInRelation] in Hstep0.
  rewrite assoc_get_set_same in Hstep0. cbn [truthy] in Hstep0.
  chain Hstep0. unfold ret in Hstep0. inversion Hstep0. subst. clear Hstep0.
  cbn [fst]. rewrite assoc_set_twice.
  exists (map snd a). split; [reflexivity|].
  intros key Hne. split.
  - now apply assoc_get_set_other.
  - rewrite assoc_has_set. apply String.eqb_neq in Hne. now rewrite Hne.
Qed.

Lemma relation_constraint_none schema className key v :
  not_relation (getExpectedType schema className key) ->
  relation_constraint schema className (key, v) = Ok None.
Proof.
  intros Hnot. unfold relation_constraint.
  destruct (truthy v && _)%bool; [|reflexivity].
  destruct Hnot as [Hf|(t & Ht & Hr)].
  - now rewrite Hf.
  - rewrite Ht. cbn [truthy]. destruct (negb (t =? "")%string); [|reflexivity].
    now rewrite Hr.
Qed.

Lemma relation_constraints_none schema className props :
  (forall key v, In (key, v) props ->
                 not_relation (getExpectedType schema className key)) ->
  relation_constraints schema className props = Ok [].
Proof.
  induction props as [|[k v] props IH]; intros H; [reflexivity|].
  cbn [relation_constraints].
  rewrite (relation_constraint_none _ _ _ _ (H k v (or_introl eq_refl))).
  rewrite IH; [reflexivity|]. intros key v' Hin. eapply H. right. exact Hin.
Qed.

(** A query object without [$or] whose keys are all declared with a type
    that is not a relation (or not declared) passes through
    [reduceInRelation] unchanged, whatever its predicates, and no join
    table is read. *)
Theorem reduceInRelation_leaves_plain_fields
    (fuel : nat) (className : string) (props : list (string * json))
    (schema : Schema) (s : conn)
    (Hor : truthy (assoc_get "$or" props) = false)
    (Hplain : forall key v, In (key, v) props ->
                not_relation (getExpectedType schema className key)) :
  reduceInRelation collectionPrefix (S fuel) className (JObj props) schema s
  = (s, Ok (JObj props, JObj props)).
Proof.
  cbn [reduceInRelation]. rewrite Hor.
  unfold bind, lift_res.
  now rewrite (relation_constraints_none _ _ _ Hplain).
Qed.

End RewriteProps.

Lemma or_siblings_left_alone_witness :
  exists ors',
    JObj [("$or", JArr [JObj [("name", JStr "x")]]);
          ("$relatedTo", Sample.liked_by_p1)]
    = JObj (assoc_set "$or" (JArr ors')
              [("$or", JArr [JObj [("name", JStr "x")]]);
               ("$relatedTo", Sample.liked_by_p1)]).
Proof.
  destruct (or_siblings_left_alone "" 5 "_User"
              [("$or", JArr [JObj [("name", JStr "x")]]);
               ("$relatedTo", Sample.liked_by_p1)]
              Sample2.loaded_schema
              (Sample.connected [] [Sample.likes_edges])
              (Sample.connected [] [Sample.likes_edges])
              (JObj [("$or", JArr [JObj [("name", JStr "x")]]);
                     ("$relatedTo", Sample.liked_by_p1)])
              eq_refl eq_refl) as (ors' & H & _).
  now exists ors'.
Defined.

Lemma reduceInRelation_leaves_plain_fields_witness :
  reduceInRelation "" 1 "Post"
    (JObj [("title", JObj [("$in", JArr [JStr "A"; JStr "B"])])])
    Sample2.loaded_schema (Sample.connected [] [])
  = (Sample.connected [] [],
     Ok (JObj [("title", JObj [("$in", JArr [JStr "A"; JStr "B"])])],
         JObj [("title", JObj [("$in", JArr [JStr "A"; JStr "B"])])])).
Proof.
  apply (reduceInRelation_leaves_plain_fields "" 0 "Post"
           [("title", JObj [("$in", JArr [JStr "A"; JStr "B"])])]
           Sample2.loaded_schema (Sample.connected [] []) eq_refl).
  intros key v [H|[]]. inversion H. subst. left. reflexivity.
Defined.

(** ** A relation predicate merged into objectId *)

Lemma assoc_get_absent k l : assoc_has k l = false -> assoc_get k l = JUndef.
Proof.
  induction l as [|[k0 v0] l IH]; cbn; [reflexivity|].
  destruct (String.eqb k k0); [discriminate|exact IH].
Qed.

Lemma assign_fold_get k (o acc : list (string * json)) :
  NoDup (assoc_keys o) ->
  assoc_get k (fold_left (fun a kv => assoc_set (fst kv) (snd kv) a) o acc)
  = if assoc_has k o then assoc_get k o else assoc_get k acc.
Proof.
  revert acc. induction o as [|[k0 v0] o IH]; intros acc Hnd; [reflexivity|].
  cbn in Hnd. inversion Hnd as [|? ? Hnotin Hnd']. subst.
  cbn [fold_left fst snd assoc_has assoc_get]. rewrite (IH _ Hnd').
  destruct (String.eqb_spec k k0) as [->|Hne].
  - destruct (assoc_has k0 o) eqn:Eh.
    + apply assoc_has_In in Eh. contradiction.
    + apply assoc_get_set_same.
  - now rewrite assoc_get_set_other.
Qed.

Section MergeProps.
Context {ST : Store} {CO : Collaborators}.
Variable collectionPrefix : string.

Lemma owning_rewrite_merges key ids props :
  key <> "objectId" ->
  objectId_mergeable props ->
  exists objectId',
    owning_rewrite key ids props
    = Some (assoc_set "objectId" (JObj objectId') (assoc_delete key props)) /\
    assoc_get "$in" objectId' = JArr (priorIn props ++ ids)%list /\
    (forall op, op <> "$in" ->
                assoc_get op objectId' = prop op (assoc_get "objectId" props)).
Proof.
  intros Hkey Hm. unfold owning_rewrite, priorIn.
  rewrite (assoc_get_delete_other "objectId" key) by congruence.
  destruct Hm as [Hu|(o & Ho & Hobj & Hin)].
  - rewrite Hu. cbn. eexists. split; [reflexivity|]. split; [reflexivity|].
    intros op Hop. cbn. apply String.eqb_neq in Hop. now rewrite Hop.
  - rewrite Ho. cbn [assign_in_default].
    rewrite (assign_fold_get "$in" o _ Hobj).
    destruct (assoc_has "$in" o) eqn:Eh.
    + destruct (Hin eq_refl) as [l Hl]. rewrite Hl. cbn [js_concat].
      eexists. split; [reflexivity|]. split; [apply assoc_get_set_same|].
      intros op Hop. rewrite assoc_get_set_other by assumption.
      rewrite (assign_fold_get op o _ Hobj). unfold prop. cbn.
      destruct (assoc_has op o) eqn:E; [reflexivity|].
      rewrite (assoc_get_absent _ _ E). cbn.
      apply String.eqb_neq in Hop. now rewrite Hop.
    + cbn. rewrite (assoc_get_absent _ _ Eh).
      eexists. split; [reflexivity|]. split; [apply assoc_get_set_same|].
      intros op Hop. rewrite assoc_get_set_other by assumption.
      rewrite (assign_fold_get op o _ Hobj). unfold prop. cbn.
      destruct (assoc_has op o) eqn:E; [reflexivity|].
      rewrite (assoc_get_absent _ _ E). cbn.
      apply String.eqb_neq in Hop. now rewrite Hop.
Qed.

(** A query object without [$or] in which the scan finds one relation
    predicate, under [key]: once the owning ids are read, [key] is removed
    and the ids are appended to the [$in] list of the [objectId]
    constraint, whose other operators stay; a missing [objectId] becomes
    [{$in: ids}]. *)
Theorem reduceInRelation_merges_owning_ids
    (fuel : nat) (className : string) (props : list (string * json))
    (schema : Schema) (s s' : conn) (key : string) (rel ids : list json)
    (Hor : truthy (assoc_get "$or" props) = false)
    (Hscan : relation_constraints schema className props = Ok [(key, rel)])
    (Hkey : key <> "objectId")
    (Hids : owningIds collectionPrefix className key rel s = (s', Ok ids))
    (Hmerge : objectId_mergeable props) :
  exists objectId',
    let query' :=
      assoc_set "objectId" (JObj objectId') (assoc_delete key props) in
    reduceInRelation collectionPrefix (S fuel) className (JObj props) schema s
    = (s', Ok (JObj query', JObj query')) /\
    assoc_has key query' = false /\
    assoc_get "$in" objectId' = JArr (priorIn props ++ ids)%list /\
    (forall op, op <> "$in" ->
                assoc_get op objectId' = prop op (assoc_get "objectId" props)).
Proof.
  destruct (owning_rewrite_merges key ids props Hkey Hmerge)
    as (objectId' & Hrw & Hin & Hops).
  exists objectId'. cbv zeta. split; [|split; [|split]].
  - cbn [reduceInRelation]. rewrite Hor.
    unfold bind at 1. rewrite lift_res_run, Hscan.
    cbn [resolve_constraints].
    unfold bind at 1. unfold bind at 1. rewrite Hids.
    rewrite Hrw. reflexivity.
  - rewrite assoc_has_set, assoc_has_delete, String.eqb_refl.
    apply String.eqb_neq in Hkey. now rewrite Hkey.
  - exact Hin.
  - exact Hops.
Qed.

End MergeProps.

Lemma reduceInRelation_merges_owning_ids_witness :
  snd (reduceInRelation "" 1 "Post"
         (JObj [("likes", Sample.pointer_to_u1);
                ("objectId", JObj [("$in", JArr [JStr "p9"]);
                                   ("$nin", JArr [JStr "p0"])])])
         Sample2.loaded_schema
         (Sample.connected []
            [Sample.Docs (Ok [JObj [("owningId", JStr "p1");
                                    ("relatedId", JStr "u1")]])]))
  = Ok (JObj [("objectId", JObj [("$in", JArr [JStr "p9"; JStr "p1"]);
                                 ("$nin", JArr [JStr "p0"])])],
        JObj [("objectId", JObj [("$in", JArr [JStr "p9"; JStr "p1"]);
                                 ("$nin", JArr [JStr "p0"])])]).
Proof.
  destruct (reduceInRelation_merges_owning_ids "" 0 "Post"
              [("likes", Sample.pointer_to_u1);
               ("objectId", JObj [("$in", JArr [JStr "p9"]);
                                  ("$nin", JArr [JStr "p0"])])]
              Sample2.loaded_schema
              (Sample.connected []
                 [Sample.Docs (Ok [JObj [("owningId", JStr "p1");
                                         ("relatedId", JStr "u1")]])])
              (Sample.connected
                 [CallAdaptiveCollection "_Join:likes:Post";
                  CallFind "_Join:likes:Post"
                    (JObj [("relatedId", JObj [("$in", JArr [JStr "u1"])])])
                    no_options] [])
              "likes" [JStr "u1"] [JStr "p1"]
              eq_refl eq_refl ltac:(discriminate) eq_refl) as (o' & Hrun & _).
  - right. exists [("$in", JArr [JStr "p9"]); ("$nin", JArr [JStr "p0"])].
    split; [reflexivity|]. split.
    + unfold is_object. cbn.
      repeat (constructor; [cbn; intuition discriminate|]). constructor.
    + intros _. now exists [JStr "p9"].
  - cbv zeta in Hrun. rewrite Hrun. vm_compute in Hrun. now inversion Hrun.
Defined.

(** ** Updates without relation operators *)

Section QuietProps.
Context {ST : Store} {CO : Collaborators}.
Variable collectionPrefix : string.

Local Abbreviation process := (process collectionPrefix).
Local Abbreviation process_each := (process_each collectionPrefix).
Local Abbreviation process_all := (process_all collectionPrefix).
Local Abbreviation handleRelationUpdates :=
  (handleRelationUpdates collectionPrefix).

Lemma relation_edges_untagged edit tag className objectId props key :
  tagged tag props = false ->
  relation_edges edit tag className objectId props key = ret scan_nil.
Proof. unfold relation_edges, tagged. now intros ->. Qed.

Lemma process_each_quiet className objectId xs key :
  Forall (scans_quietly collectionPrefix) xs ->
  forall s s' sc,
    process_each className objectId xs key s = (s', Ok sc) ->
    existsb has_relation_op xs = false ->
    s' = s /\ sc = scan_nil.
Proof.
  induction 1 as [|x xs Hx Hxs IH]; intros s s' sc H Hno.
  - cbn in H. unfold ret in H. now inversion H.
  - cbn [DatabaseController.process_each] in H. chain H.
    unfold ret in H. inversion H. subst. clear H.
    cbn [existsb] in Hno. apply orb_false_iff in Hno as [Hno1 Hno2].
    destruct (Hx _ _ _ _ _ _ Hstep Hno1) as [-> ->].
    destruct (IH _ _ _ Hstep0 Hno2) as [-> ->].
    now split.
Qed.

Lemma process_quiet op : scans_quietly collectionPrefix op.
Proof.
  enough (G : scans_quietly collectionPrefix op /\
              match op with
              | JArr xs => Forall (scans_quietly collectionPrefix) xs
              | _ => True
              end)
    by apply G.
  induction op as [| |b|n|t|l IH|props IH] using json_nested_ind;
    try (split; [|exact I]; intros className objectId key s s' sc H _;
         cbn in H; unfold ret in H; now inversion H).
  - split.
    + intros className objectId key s s' sc H _.
      cbn in H. unfold ret in H. now inversion H.
    + eapply Forall_impl; [|exact IH]. now intros x [Hx _].
  - split; [|exact I].
    intros className objectId key s s' sc H Hno.
    rewrite has_relation_op_obj in Hno.
    apply orb_false_iff in Hno as [Hno Hb].
    apply orb_false_iff in Hno as [Ha Hr].
    rewrite process_obj in H.
    rewrite (relation_edges_untagged _ _ _ _ _ _ Ha) in H.
    rewrite (relation_edges_untagged _ _ _ _ _ _ Hr) in H.
    chain H. unfold ret in Hstep, Hstep0, H.
    inversion Hstep. inversion Hstep0. inversion H. subst. clear Hstep Hstep0 H.
    destruct (tagged "Batch" props).
    + assert (Hops : match assoc_get "ops" props with
                     | JArr xs => Forall (scans_quietly collectionPrefix) xs
                     | _ => True
                     end).
      { clear - IH. induction IH as [|[k v] props [_ Hv] _ IHp]; [exact I|].
        cbn [assoc_get]. destruct (String.eqb "ops" k); [exact Hv|exact IHp]. }
      cbn [andb] in Hb.
      destruct (assoc_get "ops" props) as [| | | |t|xs|o];
        try (unfold throw in Hstep1; discriminate).
      * unfold ret in Hstep1. now inversion Hstep1.
      * destruct (process_each_quiet _ _ _ _ Hops _ _ _ Hstep1 Hb) as [-> ->].
        now split.
    + unfold ret in Hstep1. now inversion Hstep1.
Qed.

Lemma process_all_quiet className objectId update :
  forall s s' sc,
    process_all className objectId update s = (s', Ok sc) ->
    (forall key op, In (key, op) update -> has_relation_op op = false) ->
    s' = s /\ sc = scan_nil.
Proof.
  induction update as [|[k op] update IH]; intros s s' sc H Hno.
  - cbn in H. unfold ret in H. now inversion H.
  - cbn [DatabaseController.process_all] in H. chain H.
    unfold ret in H. inversion H. subst. clear H.
    destruct (process_quiet op _ _ _ _ _ _ Hstep
                (Hno k op (or_introl eq_refl))) as [-> ->].
    destruct (IH _ _ _ Hstep0
                (fun key op' Hin => Hno key op' (or_intror Hin))) as [-> ->].
    now split.
Qed.

(** When no value of the update has a relation op, directly or inside a
    [Batch], a [handleRelationUpdates] that resolves has issued no call
    and hands the update on as it was. *)
Theorem handleRelationUpdates_without_relations
    (className : string) (objectId : json)
    (update update' : list (string * json)) (s s' : conn)
    (Hrun : handleRelationUpdates className objectId update s = (s', Ok update'))
    (Hnone : forall key op, In (key, op) update -> has_relation_op op = false) :
  s' = s /\ update' = update.
Proof.
  unfold DatabaseController.handleRelationUpdates in Hrun.
  chain Hrun. unfold ret in Hrun. inversion Hrun. subst. clear Hrun.
  destruct (process_all_quiet _ _ _ _ _ _ Hstep Hnone) as [-> ->].
  cbn in Hstep0. unfold ret in Hstep0. inversion Hstep0. now split.
Qed.

End QuietProps.

Lemma handleRelationUpdates_without_relations_witness :
  let update :=
    [("title", JStr "A");
     ("count", JObj [("__op", JStr "Batch");
                     ("ops", JArr [JObj [("__op", JStr "Increment");
                                         ("amount", JNum 1)]])])] in
  handleRelationUpdates "" "Post" (JStr "p1") update (Sample.connected [] [])
  = (Sample.connected [] [], Ok update).
Proof.
  intros update.
  destruct (handleRelationUpdates "" "Post" (JStr "p1") update
              (Sample.connected [] [])) as [s' [u'|e]] eqn:Hrun;
    [|vm_compute in Hrun; discriminate].
  destruct (handleRelationUpdates_without_relations "" "Post" (JStr "p1")
              update u' (Sample.connected [] []) s' Hrun) as [-> ->];
    [|reflexivity].
  intros key op [H|[H|[]]]; inversion H; reflexivity.
Defined.

(** ** What destroy hands to the store *)

Section DestroyFilter.
Context {ST : Store} {CO : Collaborators}.
Variable collectionPrefix : string.

Lemma collection_inv_ok className (c c' : conn) name :
  collection collectionPrefix className c = (c', Ok name) ->
  classNameIsValid className = true /\
  name = collectionPrefix ++ className /\
  calls c' = (calls c ++ [CallCollection (collectionPrefix ++ className)])%list.
Proof.
  unfold collection. destruct (classNameIsValid className); cbn.
  - unfold rawCollection. intros H. chain H.
    apply issue_inv_ok in Hstep as (d & _ & ->).
    unfold ret in H. inversion H. subst. now repeat split.
  - unfold throw. discriminate.
Qed.

(** When [destroy] reaches the store, the last two calls the adapter saw
    are the opening of the class collection and one [remove] whose filter
    is the translated query, alone when [options.acl] is missing or falsy
    (also for [acl: null], a caller that is not master), and otherwise in
    conjunction with: [_wperm] does not exist, or [_wperm] holds one of
    the entries of [options.acl]. *)
Theorem destroy_remove_filter
    (className : string) (query : json) (options : list (string * json))
    (s s' : controller) (resp : json)
    (Hrun : destroy_remove collectionPrefix className query options s
            = (s', Ok resp)) :
  exists schema mongoWhere filter before,
    transformWhere schema className query = Ok mongoWhere /\
    calls (connection s')
    = (before ++ [CallCollection (collectionPrefix ++ className);
                  CallRemove (collectionPrefix ++ className) filter])%list /\
    (truthy (assoc_get "acl" options) = false -> filter = mongoWhere) /\
    (forall entries,
       assoc_get "acl" options = JArr entries ->
       filter =
       JObj [("$and",
              JArr [mongoWhere;
                    JObj [("$or",
                           JArr (JObj [("_wperm", JObj [("$exists", JBool false)])]
                                 :: map (fun entry =>
                                           JObj [("_wperm",
                                                  JObj [("$in", JArr [entry])])])
                                      entries))]])]).
Proof.
  unfold destroy_remove in Hrun. chain Hrun.
  apply lift_res_inv_ok in Hstep0 as [-> _].
  apply on_conn_inv_ok in Hstep1 as (c1 & Hcoll & ->).
  apply collection_inv_ok in Hcoll as (_ & -> & Hlog).
  apply lift_res_inv_ok in Hstep2 as [-> Hwhere].
  apply lift_res_inv_ok in Hstep3 as [-> Hperm].
  apply on_conn_inv_ok in Hrun as (c2 & Hrm & ->).
  apply issue_inv_ok in Hrm as (d & _ & ->).
  exists a, a2, a3, (calls (connection s0)).
  split; [exact Hwhere|]. split; [|split].
  - cbn. rewrite Hlog. now rewrite <- app_assoc.
  - intros Hf. unfold with_write_perms in Hperm. rewrite Hf in Hperm.
    now inversion Hperm.
  - intros entries He. unfold with_write_perms in Hperm.
    rewrite He in Hperm. cbn in Hperm. now inversion Hperm.
Qed.

(** [destroy] checks the class name after the schema load and the
    permission check and before it touches the class: for a name the
    schema module rejects it fails with InvalidClassName and the adapter
    has seen the calls of the schema load only. *)
Theorem destroy_rejects_invalid_class_name
    (className : string) (query : json) (options : list (string * json))
    (s s1 : controller) (schema : Schema)
    (Hload : loadSchema collectionPrefix returnsTrue s = (s1, Ok schema))
    (Hperm : check_permission schema (isMaster_of options) className
               (aclGroup_of options) "delete" = Ok tt)
    (Hname : classNameIsValid className = false) :
  destroy collectionPrefix className query options s
  = (s1, Err (invalid_class_name className)) /\
  schema_calls_only collectionPrefix s s1.
Proof.
  split; [|eapply loadSchema_calls; eassumption].
  unfold destroy, destroy_remove.
  erewrite bind_err; [reflexivity|].
  erewrite bind_ok by eassumption.
  erewrite bind_ok by (rewrite lift_res_run, Hperm; reflexivity).
  erewrite bind_err; [reflexivity|].
  unfold on_conn, collection. rewrite Hname. cbn. now destruct s1.
Qed.

End DestroyFilter.

Lemma destroy_remove_filter_witness :
  exists schema mongoWhere filter before,
    transformWhere schema "Post" (JObj [("objectId", JStr "p1")])
    = Ok mongoWhere /\
    calls (connection
             (Sample.after
                [CallCollection "_SCHEMA"; CallSchemaLoad;
                 CallCollection "Post";
                 CallRemove "Post"
                   (JObj [("$and",
                      JArr [JObj [("objectId", JStr "p1")];
                            JObj [("$or",
                              JArr [JObj [("_wperm", JObj [("$exists", JBool false)])];
                                    JObj [("_wperm", JObj [("$in", JArr [JStr "u1"])])]])]])])]
                []))
    = (before ++ [CallCollection "Post"; CallRemove "Post" filter])%list /\
    (truthy (assoc_get "acl" [("acl", JArr [JStr "u1"])]) = false ->
     filter = mongoWhere) /\
    (forall entries,
       assoc_get "acl" [("acl", JArr [JStr "u1"])] = JArr entries ->
       filter =
       JObj [("$and",
              JArr [mongoWhere;
                    JObj [("$or",
                           JArr (JObj [("_wperm", JObj [("$exists", JBool false)])]
                                 :: map (fun entry =>
                                           JObj [("_wperm",
                                                  JObj [("$in", JArr [entry])])])
                                      entries))]])]).
Proof.
  exact (destroy_remove_filter "" "Post" (JObj [("objectId", JStr "p1")])
           [("acl", JArr [JStr "u1"])] (Sample.fresh []) _
           (JObj [("result", JObj [("n", JNum 0)])]) eq_refl).
Defined.

Lemma destroy_rejects_invalid_class_name_witness :
  destroy (CO := Sample3.strict_names) "" "My Class" (JObj []) []
    (Sample3.fresh [])
  = (Sample3.after [CallCollection "_SCHEMA"; CallSchemaLoad] [],
     Err (invalid_class_name "My Class")).
Proof.
  exact (proj1 (destroy_rejects_invalid_class_name (CO := Sample3.strict_names)
                  "" "My Class" (JObj []) [] (Sample3.fresh [])
                  (Sample3.after [CallCollection "_SCHEMA"; CallSchemaLoad] [])
                  Sample.stored_schema eq_refl eq_refl eq_refl)).
Defined.

(** ** No schema is kept between operations *)

Section CacheProps.
Context {ST : Store} {CO : Collaborators}.
Variable collectionPrefix : string.

Local Abbreviation uncached := DatabaseControllerRest.no_schema_cached.

Lemma keeps_ret {A} P (a : A) : keeps P (ret a).
Proof. now intros s Hs. Qed.

Lemma keeps_throw {A} P e : keeps P (@throw controller A e).
Proof. now intros s Hs. Qed.

Lemma keeps_lift_res {A} P (r : res A) : keeps P (lift_res r).
Proof. now intros s Hs. Qed.

Lemma keeps_or_type_error {A} P msg (o : option A) :
  keeps P (or_type_error msg o).
Proof. intros s Hs. now destruct o. Qed.

Lemma keeps_bind {A B} P (m : M controller A) (k : A -> M controller B) :
  keeps P m -> (forall a, keeps P (k a)) -> keeps P (bind m k).
Proof.
  intros Hm Hk s Hs. unfold bind. specialize (Hm s Hs).
  destruct (m s) as [s1 [a|e]]; cbn in *; [now apply Hk|assumption].
Qed.

Lemma keeps_on_conn {A} (m : M conn A) : keeps uncached (on_conn m).
Proof.
  intros s Hs. unfold on_conn. destruct (m (connection s)) as [c r]. exact Hs.
Qed.

Lemma keeps_start_load : keeps uncached (start_load collectionPrefix).
Proof.
  intros s Hs. unfold start_load.
  destruct (negb (classNameIsValid "_SCHEMA")); [exact Hs|].
  destruct (rawCollection collectionPrefix "_SCHEMA" (connection s))
    as [c [u|e]]; [|exact I].
  destruct (issue CallSchemaLoad Schema_load c) as [c' r]. exact I.
Qed.

Lemma keeps_loadSchema acceptor :
  keeps uncached (loadSchema collectionPrefix acceptor).
Proof.
  intros s Hs. unfold loadSchema.
  destruct (schemaPromise s) as [[schema|e]|] eqn:E.
  - unfold DatabaseControllerRest.no_schema_cached in Hs. now rewrite E in Hs.
  - exact Hs.
  - now apply keeps_start_load.
Qed.

Ltac keep :=
  repeat first
    [ apply keeps_ret | apply keeps_throw | apply keeps_lift_res
    | apply keeps_or_type_error | apply keeps_on_conn | apply keeps_loadSchema
    | apply keeps_bind; [|intros ?]
    | match goal with
      | |- keeps _ (if ?b then _ else _) => destruct b
      | |- keeps _ (match ?x with _ => _ end) => destruct x
      end ].

(** From a controller that holds no resolved schema, as its constructor
    leaves it, every operation run to its end, whether it resolves or
    rejects, leaves a controller that holds none; and in such a
    controller [loadSchema] never runs the acceptor it is given. *)
Theorem operations_keep_no_schema
    (s : controller) (Hs : DatabaseControllerRest.no_schema_cached s) :
  (forall className query upd options,
     DatabaseControllerRest.no_schema_cached
       (fst (update collectionPrefix className query upd options s))) /\
  (forall className object options,
     DatabaseControllerRest.no_schema_cached
       (fst (create collectionPrefix className object options s))) /\
  (forall className query options,
     DatabaseControllerRest.no_schema_cached
       (fst (destroy collectionPrefix className query options s))) /\
  (forall fuel className query options,
     DatabaseControllerRest.no_schema_cached
       (fst (find collectionPrefix fuel className query options s))) /\
  (forall className key,
     DatabaseControllerRest.no_schema_cached
       (fst (DatabaseControllerRest.redirectClassNameForKey collectionPrefix
               className key s))) /\
  (forall acceptor acceptor',
     loadSchema collectionPrefix acceptor s
     = loadSchema collectionPrefix acceptor' s).
Proof.
  repeat split; intros.
  - revert s Hs. change (keeps uncached
      (update collectionPrefix className query upd options)).
    unfold update, update_findOneAndUpdate. keep.
  - revert s Hs. change (keeps uncached
      (create collectionPrefix className object options)).
    unfold create. keep.
  - revert s Hs. change (keeps uncached
      (destroy collectionPrefix className query options)).
    unfold destroy, destroy_remove. keep.
  - revert s Hs. change (keeps uncached
      (find collectionPrefix fuel className query options)).
    unfold find. keep.
  - revert s Hs. change (keeps uncached
      (DatabaseControllerRest.redirectClassNameForKey collectionPrefix
         className key)).
    unfold DatabaseControllerRest.redirectClassNameForKey. keep.
  - unfold loadSchema, DatabaseControllerRest.no_schema_cached in *.
    destruct (schemaPromise s) as [[schema|e]|]; [contradiction| |];
      reflexivity.
Qed.

End CacheProps.

Lemma operations_keep_no_schema_witness :
  DatabaseControllerRest.no_schema_cached
    (fst (update "" "Counter" (JObj [("objectId", JStr "c1")])
            [("count", JObj [("__op", JStr "Increment"); ("amount", JNum 1)])]
            [] (Sample.fresh []))).
Proof.
  apply (proj1 (operations_keep_no_schema "" (Sample.fresh []) I)).
Defined.

(** ** The class a relation key points to *)

Lemma body_before_gt_app target :
  one_line target = true ->
  DatabaseControllerRest.body_before_gt (target ++ ">") = Some target.
Proof.
  induction target as [|c t IH]; intros H; [reflexivity|].
  cbn in H. apply andb_true_iff in H as [Hc Ht].
  cbn [append DatabaseControllerRest.body_before_gt].
  destruct (t ++ ">") as [|c' r] eqn:E.
  - destruct t; discriminate.
  - apply negb_true_iff in Hc. rewrite Hc. now rewrite (IH Ht).
Qed.

Lemma body_before_gt_inv r target :
  DatabaseControllerRest.body_before_gt r = Some target ->
  r = target ++ ">" /\ one_line target = true.
Proof.
  revert target. induction r as [|c r IH]; intros target; [discriminate|].
  cbn [DatabaseControllerRest.body_before_gt]. destruct r as [|c' r'].
  - destruct (Ascii.eqb_spec c ">") as [->|]; [|discriminate].
    intros H. inversion H. now split.
  - destruct (MongoCollection.is_line_terminator c) eqn:Ec; [discriminate|].
    destruct (DatabaseControllerRest.body_before_gt (String c' r'))
      as [b|] eqn:Eb; [|discriminate].
    intros H. inversion H. subst.
    destruct (IH b eq_refl) as [Hr Hl]. split.
    + cbn. now rewrite Hr.
    + cbn. now rewrite Ec, Hl.
Qed.

Lemma relation_target_spec t target :
  DatabaseControllerRest.relation_target t = Some target <->
  t = "relation<" ++ target ++ ">" /\ one_line target = true.
Proof.
  unfold DatabaseControllerRest.relation_target. split.
  - destruct (MongoCollection.strip_prefix "relation<" t) as [r|] eqn:Ep;
      [|discriminate].
    intros H. apply body_before_gt_inv in H as [-> Hl].
    apply strip_prefix_app in Ep. now split.
  - intros [-> Hl]. rewrite (strip_prefix_of_app "relation<").
    now apply body_before_gt_app.
Qed.

Section RedirectProps.
Context {ST : Store} {CO : Collaborators}.
Variable collectionPrefix : string.

(** Once the schema is loaded, [redirectClassNameForKey] resolves to the
    class named between [relation<] and [>] when the key is declared
    [relation<Class>], and to the class it was given when the key has any
    other type string; for a key the schema does not know (no type) it
    fails with a TypeError, the type being read without a guard. *)
Theorem redirectClassNameForKey_target
    (className key : string) (s s1 : controller) (schema : Schema)
    (Hload : loadSchema collectionPrefix returnsTrue s = (s1, Ok schema)) :
  (forall target,
     one_line target = true ->
     getExpectedType schema className key
     = JStr ("relation<" ++ target ++ ">") ->
     DatabaseControllerRest.redirectClassNameForKey collectionPrefix
       className key s = (s1, Ok target)) /\
  (forall t,
     getExpectedType schema className key = JStr t ->
     (forall target, one_line target = true ->
                     t <> "relation<" ++ target ++ ">") ->
     DatabaseControllerRest.redirectClassNameForKey collectionPrefix
       className key s = (s1, Ok className)) /\
  (getExpectedType schema className key = JUndef ->
   DatabaseControllerRest.redirectClassNameForKey collectionPrefix
     className key s
   = (s1, Err (type_error "Cannot read property 'match'"))).
Proof.
  unfold DatabaseControllerRest.redirectClassNameForKey.
  rewrite (bind_ok _ _ _ _ _ Hload). split; [|split].
  - intros target Hl ->.
    now rewrite (proj2 (relation_target_spec _ target) (conj eq_refl Hl)).
  - intros t -> Hno.
    destruct (DatabaseControllerRest.relation_target t) as [target|] eqn:E;
      [|reflexivity].
    apply relation_target_spec in E as [-> Hl]. now contradiction (Hno target Hl).
  - now intros ->.
Qed.

End RedirectProps.

Lemma redirectClassNameForKey_target_witness :
  snd (DatabaseControllerRest.redirectClassNameForKey "" "Post" "likes"
         (Sample.fresh []))
  = Ok "_User" /\
  snd (DatabaseControllerRest.redirectClassNameForKey "" "Post" "title"
         (Sample.fresh []))
  = Err (type_error "Cannot read property 'match'").
Proof.
  destruct (redirectClassNameForKey_target "" "Post" "likes" (Sample.fresh [])
              (Sample.after [CallCollection "_SCHEMA"; CallSchemaLoad] [])
              Sample.stored_schema eq_refl) as (Hrel & _ & _).
  destruct (redirectClassNameForKey_target "" "Post" "title" (Sample.fresh [])
              (Sample.after [CallCollection "_SCHEMA"; CallSchemaLoad] [])
              Sample.stored_schema eq_refl) as (_ & _ & Hnone).
  split.
  - now rewrite (Hrel "_User" eq_refl eq_refl).
  - now rewrite (Hnone eq_refl).
Defined.

(** ** The join-table calls of an update *)

Lemma edges_of_op_obj props key :
  edges_of_op (JObj props) key
  = (tagged_edges "AddRelation" true props key ++
     tagged_edges "RemoveRelation" false props key ++
     if tagged "Batch" props
     then match assoc_get "ops" props with
          | JArr xs => flat_map (fun x => edges_of_op x key) xs
          | _ => []
          end
     else [])%list.
Proof.
  cbn [edges_of_op]. f_equal. f_equal.
  destruct (tagged "Batch" props); [|reflexivity].
  induction props as [|[k v] props IH]; [reflexivity|].
  cbn [assoc_get]. destruct (String.eqb "ops" k); [|exact IH].
  destruct v; reflexivity.
Qed.

Section EdgeProps.
Context {ST : Store} {CO : Collaborators}.
Variable collectionPrefix : string.

Local Abbreviation process := (process collectionPrefix).
Local Abbreviation process_each := (process_each collectionPrefix).
Local Abbreviation process_all := (process_all collectionPrefix).
Local Abbreviation handleRelationUpdates :=
  (handleRelationUpdates collectionPrefix).
Local Abbreviation edge_open := (edge_open collectionPrefix).
Local Abbreviation edge_write := (edge_write collectionPrefix).
Local Abbreviation pends := (pends collectionPrefix).

Lemma addRelation_opens : opens_edge collectionPrefix true (addRelation collectionPrefix).
Proof.
  intros key className owner toId s s1 p H. unfold addRelation in H.
  destruct (negb (classNameIsValid (join_class key className)));
    [discriminate|].
  unfold issue in H.
  destruct (open_collection _ (db s)) as [d opened]. inversion H. subst.
  split; [reflexivity|]. now exists opened.
Qed.

Lemma removeRelation_opens : opens_edge collectionPrefix false (removeRelation collectionPrefix).
Proof.
  intros key className owner toId s s1 p H. unfold removeRelation in H.
  destruct (negb (classNameIsValid (join_class key className)));
    [discriminate|].
  unfold issue in H.
  destruct (open_collection _ (db s)) as [d opened]. inversion H. subst.
  split; [reflexivity|]. now exists opened.
Qed.

Lemma relation_edges_opens add edit tag className owner props key s s' sc :
  opens_edge collectionPrefix add edit ->
  relation_edges edit tag className owner props key s = (s', Ok sc) ->
  calls s' = (calls s ++ map (edge_open className)
                           (tagged_edges tag add props key))%list /\
  Forall2 (pends className owner) (tagged_edges tag add props key) (fst sc).
Proof.
  intros Hedit H. unfold relation_edges, tagged_edges, tagged in *.
  destruct (loose_eq_tag tag (assoc_get "__op" props)).
  - chain H. unfold ret in H. inversion H. subst. clear H.
    apply or_type_error_inv_ok in Hstep as [-> Hit]. rewrite Hit. cbn [fst].
    clear Hit. revert s a0 s' Hstep0.
    induction a as [|object objects IH]; intros s ps s' H.
    + cbn in H. unfold ret in H. inversion H. cbn.
      split; [now rewrite app_nil_r|constructor].
    + cbn [mapM] in H. chain H. unfold ret in H. inversion H. subst. clear H.
      chain Hstep. apply or_type_error_inv_ok in Hstep1 as [-> Hid].
      destruct (Hedit _ _ _ _ _ _ _ Hstep) as [Hc Hp].
      destruct (IH _ _ _ Hstep0) as [Hc' Hps].
      assert (Hprop : prop "objectId" object = a1)
        by (unfold prop; now rewrite Hid).
      cbn [map]. rewrite Hprop. split.
      * rewrite Hc', Hc. now rewrite <- app_assoc.
      * now constructor.
  - unfold ret in H. inversion H. cbn.
    split; [now rewrite app_nil_r|constructor].
Qed.

Lemma process_each_edges className owner xs key :
  Forall (scans_edges collectionPrefix) xs ->
  forall s s' sc,
    process_each className owner xs key s = (s', Ok sc) ->
    calls s' = (calls s ++ map (edge_open className)
                             (flat_map (fun x => edges_of_op x key) xs))%list /\
    Forall2 (pends className owner)
      (flat_map (fun x => edges_of_op x key) xs) (fst sc).
Proof.
  induction 1 as [|x xs Hx Hxs IH]; intros s s' sc H.
  - cbn in H. unfold ret in H. inversion H. cbn.
    split; [now rewrite app_nil_r|constructor].
  - cbn [DatabaseController.process_each] in H. chain H.
    unfold ret in H. inversion H. subst. clear H.
    destruct (Hx _ _ _ _ _ _ Hstep) as [C1 F1].
    destruct (IH _ _ _ Hstep0) as [C2 F2].
    cbn [flat_map scan_app fst]. split.
    + rewrite C2, C1, map_app. now rewrite <- app_assoc.
    + now apply Forall2_app.
Qed.

Lemma process_edges op : scans_edges collectionPrefix op.
Proof.
  enough (G : scans_edges collectionPrefix op /\
              match op with
              | JArr xs => Forall (scans_edges collectionPrefix) xs
              | _ => True
              end)
    by apply G.
  induction op as [| |b|n|t|l IH|props IH] using json_nested_ind;
    try (split; [|exact I]; intros className owner key s s' sc H;
         cbn in H; unfold ret in H; inversion H; cbn;
         split; [now rewrite app_nil_r|constructor]).
  - split.
    + intros className owner key s s' sc H.
      cbn in H. unfold ret in H. inversion H. cbn.
      split; [now rewrite app_nil_r|constructor].
    + eapply Forall_impl; [|exact IH]. now intros x [Hx _].
  - split; [|exact I].
    intros className owner key s s' sc H.
    rewrite process_obj in H. chain H.
    unfold ret in H. inversion H. subst. clear H.
    destruct (relation_edges_opens _ _ _ _ _ _ _ _ _ _
                addRelation_opens Hstep) as [Ca Fa].
    destruct (relation_edges_opens _ _ _ _ _ _ _ _ _ _
                removeRelation_opens Hstep0) as [Cr Fr].
    rewrite edges_of_op_obj.
    assert (Hb : calls s' = (calls s1 ++ map (edge_open className)
                   (if tagged "Batch" props
                    then match assoc_get "ops" props with
                         | JArr xs => flat_map (fun x => edges_of_op x key) xs
                         | _ => []
                         end
                    else []))%list /\
                 Forall2 (pends className owner)
                   (if tagged "Batch" props
                    then match assoc_get "ops" props with
                         | JArr xs => flat_map (fun x => edges_of_op x key) xs
                         | _ => []
                         end
                    else []) (fst a1)).
    { destruct (tagged "Batch" props).
      - assert (Hops : match assoc_get "ops" props with
                       | JArr xs => Forall (scans_edges collectionPrefix) xs
                       | _ => True
                       end).
        { clear - IH. induction IH as [|[k v] props [_ Hv] _ IHp]; [exact I|].
          cbn [assoc_get]. destruct (String.eqb "ops" k); [exact Hv|exact IHp]. }
        destruct (assoc_get "ops" props) as [| | | |t|xs|o];
          try (unfold throw in Hstep1; discriminate).
        + unfold ret in Hstep1. inversion Hstep1. cbn.
          split; [now rewrite app_nil_r|constructor].
        + eapply process_each_edges; eassumption.
      - unfold ret in Hstep1. inversion Hstep1. cbn.
        split; [now rewrite app_nil_r|constructor]. }
    destruct Hb as [Cb Fb]. cbn [scan_app fst]. split.
    + rewrite Cb, Cr, Ca, !map_app. now rewrite <- !app_assoc.
    + apply Forall2_app; [exact Fa|]. now apply Forall2_app.
Qed.

Lemma process_all_edges className owner update :
  forall s s' sc,
    process_all className owner update s = (s', Ok sc) ->
    calls s' = (calls s ++ map (edge_open className) (edges_of update))%list /\
    Forall2 (pends className owner) (edges_of update) (fst sc).
Proof.
  induction update as [|[k op] update IH]; intros s s' sc H.
  - cbn in H. unfold ret in H. inversion H. cbn.
    split; [now rewrite app_nil_r|constructor].
  - cbn [DatabaseController.process_all] in H. chain H.
    unfold ret in H. inversion H. subst. clear H.
    destruct (process_edges op _ _ _ _ _ _ Hstep) as [C1 F1].
    destruct (IH _ _ _ Hstep0) as [C2 F2].
    unfold edges_of. cbn [flat_map scan_app fst snd]. split.
    + rewrite C2, C1, map_app. now rewrite <- app_assoc.
    + now apply Forall2_app.
Qed.

Lemma all_pending_writes className owner es ps :
  Forall2 (pends className owner) es ps ->
  forall s s' rs,
    all ps s = (s', Ok rs) ->
    calls s' = (calls s ++ map (edge_write className owner) es)%list.
Proof.
  induction 1 as [|e p es ps [opened Hp] Hrest IH]; intros s s' rs H.
  - cbn in H. unfold ret in H. inversion H. cbn. now rewrite app_nil_r.
  - cbn [all] in H. chain H. unfold ret in H. inversion H. subst. clear H.
    chain Hstep. apply lift_res_inv_ok in Hstep1 as [-> _].
    assert (Hc : calls s0 = (calls s ++ [edge_write className owner e])%list).
    { destruct (adds e); apply issue_inv_ok in Hstep as (d & _ & ->);
        reflexivity. }
    rewrite (IH _ _ _ Hstep0), Hc. cbn [map]. now rewrite <- app_assoc.
Qed.

(** When [handleRelationUpdates] resolves, the adapter has seen, for the
    relation edges the update asks for and in their order, first the
    opening of each edge's join collection [_Join:<key>:<class>], then one
    write per edge: for an added edge an upsert of
    [{relatedId, owningId}], for a removed edge the removal of that
    document; and nothing else.  The owner is [update.objectId] if the
    update has one, the id it was given otherwise. *)
Theorem handleRelationUpdates_edge_calls
    (className : string) (objectId : json)
    (update update' : list (string * json)) (s s' : conn)
    (Hrun : handleRelationUpdates className objectId update s = (s', Ok update')) :
  let owner := if truthy (assoc_get "objectId" update)
               then assoc_get "objectId" update else objectId in
  calls s' = (calls s ++ map (edge_open className) (edges_of update)
                      ++ map (edge_write className owner) (edges_of update))%list.
Proof.
  cbv zeta. unfold DatabaseController.handleRelationUpdates in Hrun.
  chain Hrun. unfold ret in Hrun. inversion Hrun. subst. clear Hrun.
  destruct (process_all_edges _ _ _ _ _ _ Hstep) as [C F].
  rewrite (all_pending_writes _ _ _ _ F _ _ _ Hstep0), C.
  now rewrite <- app_assoc.
Qed.

End EdgeProps.

Lemma handleRelationUpdates_edge_calls_witness :
  calls (fst (handleRelationUpdates "" "Post" (JStr "p1")
                [("likes", JObj [("__op", JStr "AddRelation");
                                 ("objects", JArr [JObj [("objectId", JStr "u1")];
                                                   JObj [("objectId", JStr "u2")]])])]
                (Sample.connected [] [])))
  = [CallCollection "_Join:likes:Post"; CallCollection "_Join:likes:Post";
     CallUpdate "_Join:likes:Post"
       (JObj [("relatedId", JStr "u1"); ("owningId", JStr "p1")])
       (JObj [("relatedId", JStr "u1"); ("owningId", JStr "p1")])
       (JObj [("upsert", JBool true)]);
     CallUpdate "_Join:likes:Post"
       (JObj [("relatedId", JStr "u2"); ("owningId", JStr "p1")])
       (JObj [("relatedId", JStr "u2"); ("owningId", JStr "p1")])
       (JObj [("upsert", JBool true)])].
Proof.
  destruct (handleRelationUpdates "" "Post" (JStr "p1") _ _)
    as [s' [u'|e]] eqn:Hrun; [|vm_compute in Hrun; discriminate].
  cbn [fst].
  rewrite (handleRelationUpdates_edge_calls "" "Post" (JStr "p1") _ u' _ s' Hrun).
  reflexivity.
Defined.

(** ** The configuration routes *)

Section RouterProps.
Context {ST : Store} {CD : GlobalConfigRouter.ConfigDriver}.
Variable collectionPrefix : string.

(** [getGlobalConfig] never rejects: it resolves to
    [{response: {params}}] with the [params] of the stored document, or
    to the 404 body.  It resolves to the 404 body when the collection
    cannot be opened, when the lookup fails, and when no document is
    stored (the lookup gives [null]). *)
Theorem getGlobalConfig_always_resolves (s : conn) :
  (snd (GlobalConfigRouter.getGlobalConfig collectionPrefix s)
   = Ok (GlobalConfigRouter.not_found "config does not exist") \/
   exists d1 d2 doc params,
     open_collection (collectionPrefix ++ "_GlobalConfig") (db s) = (d1, Ok tt) /\
     GlobalConfigRouter.driver_findOne (collectionPrefix ++ "_GlobalConfig")
       (JObj [("_id", JNum 1)]) d1 = (d2, Ok doc) /\
     get "params" doc = Some params /\
     snd (GlobalConfigRouter.getGlobalConfig collectionPrefix s)
     = Ok (JObj [("response", JObj [("params", params)])])) /\
  (forall d1 d2,
     open_collection (collectionPrefix ++ "_GlobalConfig") (db s) = (d1, Ok tt) ->
     GlobalConfigRouter.driver_findOne (collectionPrefix ++ "_GlobalConfig")
       (JObj [("_id", JNum 1)]) d1 = (d2, Ok JNull) ->
     snd (GlobalConfigRouter.getGlobalConfig collectionPrefix s)
     = Ok (GlobalConfigRouter.not_found "config does not exist")).
Proof.
  unfold GlobalConfigRouter.getGlobalConfig,
    GlobalConfigRouter.globalConfigCollection, GlobalConfigRouter.on_raw,
    catch, bind, issue, ret.
  split.
  - destruct (open_collection _ (db s)) as [d1 [[]|e]] eqn:Eo; cbn;
      [|now left].
    destruct (GlobalConfigRouter.driver_findOne _ _ d1) as [d2 [doc|e]] eqn:Ef;
      cbn; [|now left].
    destruct (get "params" doc) as [params|] eqn:Ep; cbn; [|now left].
    right. now exists d1, d2, doc, params.
  - intros d1 d2 Ho Hf. rewrite Ho. cbn. rewrite Hf. reflexivity.
Qed.

(** [updateGlobalConfig] never rejects.  It answers [{result: true}]
    whenever the collection opens and the driver's update resolves,
    whatever the driver replies: also when no configuration document
    exists and nothing was updated.  It answers the 404 body when the
    collection cannot be opened and when the driver's update rejects,
    whatever the error. *)
Theorem updateGlobalConfig_always_resolves (body : json) (s : conn) :
  (snd (GlobalConfigRouter.updateGlobalConfig collectionPrefix body s)
   = Ok (GlobalConfigRouter.not_found "config cannot be updated") \/
   snd (GlobalConfigRouter.updateGlobalConfig collectionPrefix body s)
   = Ok (JObj [("response", JObj [("result", JBool true)])])) /\
  (forall d1 d2 reply,
     open_collection (collectionPrefix ++ "_GlobalConfig") (db s) = (d1, Ok tt) ->
     GlobalConfigRouter.driver_findOneAndUpdate
       (collectionPrefix ++ "_GlobalConfig")
       (JObj [("_id", JNum 1)]) (JObj [("$set", body)]) d1 = (d2, Ok reply) ->
     snd (GlobalConfigRouter.updateGlobalConfig collectionPrefix body s)
     = Ok (JObj [("response", JObj [("result", JBool true)])])) /\
  (forall d1 e,
     open_collection (collectionPrefix ++ "_GlobalConfig") (db s) = (d1, Err e) ->
     snd (GlobalConfigRouter.updateGlobalConfig collectionPrefix body s)
     = Ok (GlobalConfigRouter.not_found "config cannot be updated")) /\
  (forall d1 d2 e,
     open_collection (collectionPrefix ++ "_GlobalConfig") (db s) = (d1, Ok tt) ->
     GlobalConfigRouter.driver_findOneAndUpdate
       (collectionPrefix ++ "_GlobalConfig")
       (JObj [("_id", JNum 1)]) (JObj [("$set", body)]) d1 = (d2, Err e) ->
     snd (GlobalConfigRouter.updateGlobalConfig collectionPrefix body s)
     = Ok (GlobalConfigRouter.not_found "config cannot be updated")).
Proof.
  unfold GlobalConfigRouter.updateGlobalConfig,
    GlobalConfigRouter.globalConfigCollection, GlobalConfigRouter.on_raw,
    catch, bind, issue, ret.
  split; [|split; [|split]].
  - destruct (open_collection _ (db s)) as [d1 [[]|e]]; cbn; [|now left].
    destruct (GlobalConfigRouter.driver_findOneAndUpdate _ _ _ d1)
      as [d2 [reply|e]]; cbn; [now right|now left].
  - intros d1 d2 reply Ho Hf. rewrite Ho. cbn. rewrite Hf. reflexivity.
  - intros d1 e Ho. rewrite Ho. reflexivity.
  - intros d1 d2 e Ho Hf. rewrite Ho. cbn. rewrite Hf. reflexivity.
Qed.

End RouterProps.

Lemma getGlobalConfig_always_resolves_witness :
  snd (GlobalConfigRouter.getGlobalConfig (CD := Sample4.config_driver) ""
         (Sample.connected [] []))
  = Ok (GlobalConfigRouter.not_found "config does not exist").
Proof.
  apply (proj2 (getGlobalConfig_always_resolves (CD := Sample4.config_driver)
                  "" (Sample.connected [] []))
           (@nil Sample.reply) (@nil Sample.reply) eq_refl eq_refl).
Defined.

Lemma updateGlobalConfig_always_resolves_witness :
  snd (GlobalConfigRouter.updateGlobalConfig (CD := Sample4.config_driver) ""
         (JObj [("motd", JStr "hi")]) (Sample.connected [] []))
  = Ok (JObj [("response", JObj [("result", JBool true)])]) /\
  snd (GlobalConfigRouter.updateGlobalConfig (CD := Sample4.config_driver) ""
         (JObj [("motd", JStr "hi")])
         (Sample.connected [] [Sample.Value (Err Sample4.not_authorized)]))
  = Ok (GlobalConfigRouter.not_found "config cannot be updated").
Proof.
  split.
  - apply (proj1 (proj2 (updateGlobalConfig_always_resolves
                    (CD := Sample4.config_driver) ""
                    (JObj [("motd", JStr "hi")]) (Sample.connected [] [])))
             (@nil Sample.reply) (@nil Sample.reply)
             (JObj [("value", JNull)]) eq_refl eq_refl).
  - apply (proj2 (proj2 (proj2 (updateGlobalConfig_always_resolves
                    (CD := Sample4.config_driver) ""
                    (JObj [("motd", JStr "hi")])
                    (Sample.connected []
                       [Sample.Value (Err Sample4.not_authorized)]))))
             [Sample.Value (Err Sample4.not_authorized)] (@nil Sample.reply)
             Sample4.not_authorized eq_refl eq_refl).
Defined.

(** ** Reloads and the count of reads *)

Section ReloadProps.
Import EventLoop.
Local Open Scope nat_scope.
Variable Schema : Type.

Lemma awaiting_app (l1 l2 : list (load_status Schema)) :
  awaiting (l1 ++ l2) = awaiting l1 + awaiting l2.
Proof.
  induction l1 as [|[| | |] l1 IH]; cbn; auto.
Qed.

Lemma awaiting_set_nth (l : list (load_status Schema)) k x :
  nth_error l k = Some AwaitingHandle -> x <> AwaitingHandle ->
  S (awaiting (set_nth k x l)) = awaiting l.
Proof.
  revert k. induction l as [|a l IH]; intros [|k] H Hx; cbn in *;
    try discriminate.
  - inversion H. subst. destruct x; congruence.
  - destruct a; cbn; auto.
Qed.

Lemma awaiting_set_nth_same (l : list (load_status Schema)) k x y :
  nth_error l k = Some y -> y <> AwaitingHandle -> x <> AwaitingHandle ->
  awaiting (set_nth k x l) = awaiting l.
Proof.
  revert k. induction l as [|a l IH]; intros [|k] H Hy Hx; cbn in *;
    try discriminate.
  - inversion H. subst. destruct x, y; congruence.
  - destruct a; cbn; try (f_equal; eapply IH; eassumption);
      eapply IH; eassumption.
Qed.

Lemma start_accounted (st : state Schema) :
  loads_accounted st -> loads_accounted (snd (start Schema st)).
Proof.
  intros [Ho Hr]. unfold start, loads_accounted. cbn.
  rewrite length_app, awaiting_app. cbn. split; lia.
Qed.

Lemma wake_accounted k schema waiting (st : state Schema) done :
  loads_accounted st -> loads_accounted (wake Schema k schema waiting st done).
Proof.
  revert st done. induction waiting as [|c rest IH]; intros st done Hst.
  - exact Hst.
  - cbn [wake]. destruct (outcome c); [now apply IH|].
    destruct (negb (Nat.eqb (follows c) k)); [now apply IH|].
    destruct (acceptor c) as [acc|]; [|now apply IH].
    destruct (acc schema) as [[|]|e]; try now apply IH.
    apply IH. now apply start_accounted.
Qed.

Lemma step_accounted (st st' : state Schema) ev :
  loads_accounted st -> step st ev = Some st' -> loads_accounted st'.
Proof.
  intros Hst Hstep. pose proof Hst as [Ho Hr].
  destruct ev as [acc|k|k e|k schema|k e|]; cbn [step] in Hstep.
  - destruct (field st) as [k|].
    + destruct (nth_error (loads st) k) as [[| |schema|e]|];
        try discriminate; injection Hstep as <-;
        first [exact Hst
              |exact (wake_accounted k schema
                        [mkCaller Schema k (Some acc) None] st
                        (rev (callers st)) Hst)].
    + unfold start in Hstep. inversion Hstep. subst.
      unfold loads_accounted. cbn.
      rewrite length_app, awaiting_app. cbn. split; lia.
  - destruct (nth_error (loads st) k) as [[| | |]|] eqn:Ek; try discriminate.
    inversion Hstep. subst. unfold loads_accounted. cbn.
    rewrite length_set_nth.
    pose proof (awaiting_set_nth _ k Reading Ek ltac:(discriminate)).
    split; lia.
  - destruct (nth_error (loads st) k) as [[| | |]|] eqn:Ek; try discriminate.
    inversion Hstep. subst. unfold loads_accounted. cbn.
    rewrite length_set_nth.
    pose proof (awaiting_set_nth _ k (Rejected e) Ek ltac:(discriminate)).
    split; lia.
  - destruct (nth_error (loads st) k) as [[| | |]|] eqn:Ek; try discriminate.
    injection Hstep as <-.
    refine (wake_accounted k schema (callers st) _ [] _).
    unfold loads_accounted. cbn. rewrite length_set_nth.
    rewrite (awaiting_set_nth_same _ k (Resolved schema) Reading Ek)
      by discriminate.
    split; lia.
  - destruct (nth_error (loads st) k) as [[| | |]|] eqn:Ek; try discriminate.
    inversion Hstep. subst. unfold loads_accounted. cbn.
    rewrite length_set_nth.
    rewrite (awaiting_set_nth_same _ k (Rejected e) Reading Ek)
      by discriminate.
    split; lia.
  - inversion Hstep. subst. exact Hst.
Qed.

(** However calls and settlements interleave, the schema collection is
    never read more often than a handle of [_SCHEMA] was asked for, and
    each load asks for one handle: reads <= opens = number of loads. *)
Theorem reads_never_exceed_opens
    (tr : list (event Schema)) (st : state Schema)
    (Hrun : run init tr = Some st) :
  opens st = List.length (loads st) /\ reads st <= opens st.
Proof.
  assert (H : loads_accounted st).
  { assert (H0 : loads_accounted (@init Schema)) by (split; cbn; lia).
    revert Hrun H0. generalize (@init Schema).
    induction tr as [|ev tr IH]; intros st0 Hrun H0; cbn in Hrun.
    - inversion Hrun. now subst.
    - destruct (step st0 ev) as [st1|] eqn:Es; [|discriminate].
      eapply IH; [exact Hrun|]. eapply step_accounted; eassumption. }
  destruct H as [Ho Hr]. split; [exact Ho|lia].
Qed.

(** *** Callers whose acceptor rejects *)

Lemma wake_rejecting schema (acc : Schema -> res bool) n :
  acc schema = Ok false ->
  forall (st : state Schema) done,
  exists f,
    wake Schema 0 schema (repeat (mkCaller Schema 0 (Some acc) None) n) st done
    = mkState Schema f (loads st ++ repeat AwaitingHandle n)
        (rev done ++ map (fun i => mkCaller Schema (List.length (loads st) + i)
                                     None None) (seq 0 n))
        (opens st + n) (reads st).
Proof.
  intros Hacc. induction n as [|n IH]; intros st done.
  - exists (field st). cbn. now rewrite !app_nil_r, Nat.add_0_r.
  - cbn [repeat wake outcome follows acceptor Nat.eqb negb]. rewrite Hacc.
    cbn [start].
    destruct (IH (mkState Schema (Some (List.length (loads st)))
                    (loads st ++ [AwaitingHandle]) (callers st)
                    (S (opens st)) (reads st))
                (mkCaller Schema (List.length (loads st)) None None :: done))
      as [f Hf].
    exists f. rewrite Hf. cbn [loads opens reads rev].
    assert (E1 : ((loads st ++ [AwaitingHandle]) ++ repeat AwaitingHandle n
                  = loads st ++ repeat AwaitingHandle (S n))%list)
      by (now rewrite <- app_assoc).
    assert (E2 : S (opens st) + n = opens st + S n) by lia.
    assert (E3 : ((rev done ++ [mkCaller Schema (List.length (loads st)) None None])
                  ++ map (fun i => mkCaller Schema
                                     (List.length (loads st ++ [AwaitingHandle]) + i)
                                     None None) (seq 0 n)
                  = rev done
                    ++ map (fun i => mkCaller Schema (List.length (loads st) + i)
                                       None None) (seq 0 (S n)))%list).
    { rewrite <- app_assoc. f_equal. cbn [seq map app].
      rewrite Nat.add_0_r. f_equal.
      rewrite <- seq_shift, map_map. apply map_ext. intros i.
      rewrite length_app. cbn. f_equal. lia. }
    now rewrite E1, E2, E3.
Qed.

(** One [loadSchema()] call followed, before the handle resolves, by [n]
    calls whose acceptor rejects the schema that then arrives: each of the
    [n] callers starts a load of its own ([1 + n] handles asked for) and
    waits for it without its acceptor, which is not applied again. *)
Theorem rejecting_callers_each_reload
    (acc : Schema -> res bool) (schema : Schema) (n : nat)
    (Hacc : acc schema = Ok false) :
  exists st,
    run init (Call returnsTrue :: repeat (Call acc) n
              ++ [HandleReady 0; Loaded 0 schema]) = Some st /\
    opens st = 1 + n /\ reads st = 1 /\
    loads st = Resolved schema :: repeat AwaitingHandle n /\
    callers st = mkCaller Schema 0 None (Some (Ok schema))
                 :: map (fun i => mkCaller Schema (1 + i) None None) (seq 0 n).
Proof.
  assert (Hq : forall cs j,
    run (mkState Schema (Some 0) [AwaitingHandle] cs 1 0) (repeat (Call acc) j)
    = Some (mkState Schema (Some 0) [AwaitingHandle]
              (cs ++ repeat (mkCaller Schema 0 (Some acc) None) j) 1 0)).
  { intros cs j. revert cs. induction j as [|j IH]; intros cs; cbn [repeat run].
    - now rewrite app_nil_r.
    - cbn. rewrite IH. now rewrite <- app_assoc. }
  set (cs := mkCaller Schema 0 None None
             :: repeat (mkCaller Schema 0 (Some acc) None) n).
  destruct (wake_rejecting schema acc n Hacc
              (mkState Schema None [Resolved schema] cs 1 1)
              [mkCaller Schema 0 None (Some (Ok schema))]) as [f Hf].
  exists (mkState Schema f (Resolved schema :: repeat AwaitingHandle n)
            (mkCaller Schema 0 None (Some (Ok schema))
             :: map (fun i => mkCaller Schema (1 + i) None None) (seq 0 n))
            (1 + n) 1).
  split; [|repeat split; reflexivity].
  change (run init (Call returnsTrue :: repeat (Call acc) n
                    ++ [HandleReady 0; Loaded 0 schema]))
    with (run (mkState Schema (Some 0) [AwaitingHandle]
                 [mkCaller Schema 0 None None] 1 0)
            (repeat (Call acc) n ++ [HandleReady 0; Loaded 0 schema])).
  rewrite run_app, (Hq [mkCaller Schema 0 None None] n).
  change (run _ [HandleReady 0; Loaded 0 schema])
    with (Some (wake Schema 0 schema
                  (repeat (mkCaller Schema 0 (Some acc) None) n)
                  (mkState Schema None [Resolved schema] cs 1 1)
                  [mkCaller Schema 0 None (Some (Ok schema))])).
  now rewrite Hf.
Qed.

End ReloadProps.

Lemma reads_never_exceed_opens_witness :
  exists st,
    EventLoop.run EventLoop.init
      [EventLoop.Call EventLoop.returnsTrue; EventLoop.HandleReady 0;
       EventLoop.Call EventLoop.returnsTrue;
       EventLoop.Loaded 0 Sample.stored_schema]
    = Some st /\
    EventLoop.opens st = List.length (EventLoop.loads st) /\
    (EventLoop.reads st <= EventLoop.opens st)%nat.
Proof.
  eexists. split; [reflexivity|].
  refine (reads_never_exceed_opens Sample.schema
            [EventLoop.Call EventLoop.returnsTrue; EventLoop.HandleReady 0;
             EventLoop.Call EventLoop.returnsTrue;
             EventLoop.Loaded 0 Sample.stored_schema] _ _).
  reflexivity.
Defined.

Lemma rejecting_callers_each_reload_witness :
  exists st,
    EventLoop.run EventLoop.init
      (EventLoop.Call EventLoop.returnsTrue
       :: repeat (EventLoop.Call (fun _ : Sample.schema => Ok false)) 2
       ++ [EventLoop.HandleReady 0; EventLoop.Loaded 0 Sample.stored_schema])
    = Some st /\
    EventLoop.opens st = 3%nat /\ EventLoop.reads st = 1%nat.
Proof.
  destruct (rejecting_callers_each_reload Sample.schema
              (fun _ => Ok false) Sample.stored_schema 2 eq_refl)
    as (st & Hrun & Ho & Hr & _).
  now exists st.
Defined.

(** ** What update, create and find hand to the store *)

Section OperationCalls.
Context {ST : Store} {CO : Collaborators}.
Variable collectionPrefix : string.

Lemma handleRelationUpdates_filters className objectId update update' s s' :
  is_object update ->
  handleRelationUpdates collectionPrefix className objectId update s
  = (s', Ok update') ->
  update' = filter (fun kv => negb (has_relation_op (snd kv))) update.
Proof.
  intros Hobj Hrun.
  apply handleRelationUpdates_result in Hrun as (s1 & sc & Hscan & ->).
  pose proof (process_all_deleteMe _ _ _ _ _ _ _ Hscan) as Hdel.
  rewrite delete_keys_filter. apply filter_ext_in.
  intros [k v] Hin. cbn [fst snd]. f_equal.
  destruct (has_relation_op v) eqn:Ev.
  - apply existsb_exists. exists k. split; [|apply String.eqb_refl].
    apply Hdel. now exists v.
  - destruct (existsb (String.eqb k) (snd sc)) eqn:Ex; [|reflexivity].
    apply existsb_exists in Ex as (k' & Hk' & Heq).
    apply String.eqb_eq in Heq. subst k'.
    apply Hdel in Hk' as (v' & Hin' & Hv').
    assert (v' = v); [|congruence].
    clear - Hobj Hin Hin'. unfold is_object, assoc_keys in Hobj.
    induction update as [|[k0 v0] u IH]; [destruct Hin|].
    cbn in Hobj. inversion Hobj as [|? ? Hnotin Hnd]. subst.
    destruct Hin as [Hin|Hin], Hin' as [Hin'|Hin'].
    + congruence.
    + inversion Hin. subst. exfalso. apply Hnotin.
      now apply (in_map fst _ (k, v')).
    + inversion Hin'. subst. exfalso. apply Hnotin.
      now apply (in_map fst _ (k, v)).
    + now apply IH.
Qed.

Lemma adaptiveCollection_inv_ok className (c c' : conn) name :
  adaptiveCollection collectionPrefix className c = (c', Ok name) ->
  name = collectionPrefix ++ className /\
  calls c' = (calls c ++ [CallAdaptiveCollection (collectionPrefix ++ className)])%list.
Proof.
  unfold adaptiveCollection. intros H. chain H.
  apply issue_inv_ok in Hstep as (d & _ & ->).
  unfold ret in H. inversion H. subst. now split.
Qed.

Lemma find_last_call name query opts (s s' : conn) docs :
  MongoCollection.find name query opts s = (s', Ok docs) ->
  exists mid,
    calls s' = (calls s ++ mid ++ [CallFind name query opts])%list.
Proof.
  unfold MongoCollection.find, MongoCollection._rawFind,
    MongoCollection.createIndex, catch, issue.
  destruct (driver_find name query opts (db s)) as [d1 [docs1|e]].
  - intros H. inversion H. subst. now exists [].
  - destruct (negb _ || negb _)%bool; [unfold throw; discriminate|].
    unfold bind, or_type_error.
    destruct (MongoCollection.match_field (err_message e)) as [key|];
      [|unfold throw; discriminate].
    unfold ret. cbn.
    destruct (String.eqb key ""); [unfold throw; discriminate|]. cbn.
    destruct (driver_createIndex name _ d1) as [d2 [[]|e']]; cbn;
      [|discriminate].
    destruct (driver_find name query opts d2) as [d3 r]. cbn.
    intros H. inversion H. subst. cbn.
    eexists [_; _]. rewrite <- !app_assoc. reflexivity.
Qed.

Lemma write_filter_spec options mongoWhere filter :
  with_write_perms options mongoWhere = Ok filter ->
  (truthy (assoc_get "acl" options) = false -> filter = mongoWhere) /\
  (forall entries,
     assoc_get "acl" options = JArr entries ->
     filter =
     JObj [("$and",
            JArr [mongoWhere;
                  JObj [("$or",
                         JArr (JObj [("_wperm", JObj [("$exists", JBool false)])]
                               :: map (fun entry =>
                                         JObj [("_wperm",
                                                JObj [("$in", JArr [entry])])])
                                    entries))]])]).
Proof.
  intros Hperm. split.
  - intros Hf. unfold with_write_perms in Hperm. rewrite Hf in Hperm.
    now inversion Hperm.
  - intros entries He. unfold with_write_perms in Hperm.
    rewrite He in Hperm. cbn in Hperm. now inversion Hperm.
Qed.

(** When [update] reaches the store, the last two calls the adapter saw
    are the opening of the class collection and one [findAndModify].  Its
    update is the translation of the payload without the keys that hold
    relation operators, which never reach the translator; its filter is
    the translated query, alone when [options.acl] is missing or falsy,
    otherwise in conjunction with the write-permission disjunction over
    the entries of [options.acl]. *)
Theorem update_store_call
    (className : string) (query : json) (upd options : list (string * json))
    (s s' : controller) (mongoUpdate result : json)
    (Hobj : is_object upd)
    (Hrun : update_findOneAndUpdate collectionPrefix className query upd
              options s = (s', Ok (mongoUpdate, result))) :
  exists schema mongoWhere filter before,
    transformWhere schema className query = Ok mongoWhere /\
    transformUpdate schema className
      (JObj (List.filter (fun kv => negb (has_relation_op (snd kv))) upd))
    = Ok mongoUpdate /\
    calls (connection s')
    = (before ++ [CallAdaptiveCollection (collectionPrefix ++ className);
                  CallFindAndModify (collectionPrefix ++ className)
                    filter mongoUpdate])%list /\
    (truthy (assoc_get "acl" options) = false -> filter = mongoWhere) /\
    (forall entries,
       assoc_get "acl" options = JArr entries ->
       filter =
       JObj [("$and",
              JArr [mongoWhere;
                    JObj [("$or",
                           JArr (JObj [("_wperm", JObj [("$exists", JBool false)])]
                                 :: map (fun entry =>
                                           JObj [("_wperm",
                                                  JObj [("$in", JArr [entry])])])
                                      entries))]])]).
Proof.
  unfold update_findOneAndUpdate in Hrun. chain Hrun.
  unfold ret in Hrun. inversion Hrun. subst. clear Hrun.
  apply on_conn_inv_ok in Hstep2 as (c1 & Hrel & ->).
  apply (handleRelationUpdates_filters _ _ _ _ _ _ Hobj) in Hrel. subst a2.
  apply on_conn_inv_ok in Hstep3 as (c2 & Hcoll & ->).
  apply adaptiveCollection_inv_ok in Hcoll as (-> & Hlog).
  apply lift_res_inv_ok in Hstep4 as [-> Hwhere].
  apply lift_res_inv_ok in Hstep5 as [-> Hperm].
  apply lift_res_inv_ok in Hstep6 as [-> Hupd].
  apply on_conn_inv_ok in Hstep7 as (c3 & Hfm & ->).
  unfold MongoCollection.findOneAndUpdate in Hfm.
  apply bind_inv_ok in Hfm as (c4 & document & Hissue & Hval).
  apply issue_inv_ok in Hissue as (d & _ & ->).
  apply or_type_error_inv_ok in Hval as [-> _].
  destruct (write_filter_spec _ _ _ Hperm) as [Hbare Hacl].
  exists a, a4, a5, (calls c1).
  split; [exact Hwhere|]. split; [exact Hupd|]. split; [|split; assumption].
  cbn. cbn in Hlog. rewrite Hlog. now rewrite <- app_assoc.
Qed.

(** When [create] resolves, the last two calls the adapter saw are the
    opening of the class collection, whose name the schema module
    accepted, and one [insert] of a single document: the translation of
    the payload without the keys that hold relation operators. *)
Theorem create_store_call
    (className : string) (object options : list (string * json))
    (s s' : controller) (reply : json)
    (Hobj : is_object object)
    (Hrun : create collectionPrefix className object options s = (s', Ok reply)) :
  exists schema mongoObject before,
    classNameIsValid className = true /\
    transformCreate schema className
      (JObj (List.filter (fun kv => negb (has_relation_op (snd kv))) object))
    = Ok mongoObject /\
    calls (connection s')
    = (before ++ [CallCollection (collectionPrefix ++ className);
                  CallInsert (collectionPrefix ++ className) [mongoObject]])%list.
Proof.
  unfold create in Hrun. chain Hrun.
  apply on_conn_inv_ok in Hstep1 as (c1 & Hrel & ->).
  apply (handleRelationUpdates_filters _ _ _ _ _ _ Hobj) in Hrel. subst a1.
  apply on_conn_inv_ok in Hstep2 as (c2 & Hcoll & ->).
  apply collection_inv_ok in Hcoll as (Hvalid & -> & Hlog).
  apply lift_res_inv_ok in Hstep3 as [-> Hcreate].
  apply on_conn_inv_ok in Hrun as (c3 & Hins & ->).
  apply issue_inv_ok in Hins as (d & _ & ->).
  exists a, a3, (calls c1).
  split; [exact Hvalid|]. split; [exact Hcreate|].
  cbn. cbn in Hlog. rewrite Hlog. now rewrite <- app_assoc.
Qed.

Lemma read_filter_spec isMaster aclGroup mongoWhere filter :
  with_read_perms isMaster aclGroup mongoWhere = Ok filter ->
  (isMaster = true -> filter = mongoWhere) /\
  (isMaster = false ->
   exists acls,
     iterate aclGroup = Some acls /\
     filter =
     JObj [("$and",
            JArr [mongoWhere;
                  JObj [("$or",
                         JArr (JObj [("_rperm", JObj [("$exists", JBool false)])]
                               :: JObj [("_rperm", JObj [("$in", JArr [JStr "*"])])]
                               :: map (fun acl =>
                                         JObj [("_rperm",
                                                JObj [("$in", JArr [acl])])])
                                    acls))]])]).
Proof.
  unfold with_read_perms. destruct isMaster; cbn.
  - intros H. inversion H. split; [reflexivity|discriminate].
  - destruct (iterate aclGroup) as [acls|]; [|discriminate].
    intros H. inversion H. split; [discriminate|].
    intros _. now exists acls.
Qed.

(** When [find] resolves, the query was rewritten by
    [reduceRelationKeys] and [reduceInRelation] on the connection the
    schema load left, the class collection was opened next, and the last
    call the adapter saw is the count or the find on that collection, with
    the [skip], [limit] and translated [sort] of the options.  For a
    master caller its filter is the translation of the rewritten query;
    for any other caller, also one with [acl: null], it is that
    translation in conjunction with: [_rperm] does not exist, or holds
    ["*"], or holds one of the caller's ACL entries. *)
Theorem find_store_call
    (fuel : nat) (className : string) (query : json)
    (options : list (string * json)) (s s' : controller) (reply : json)
    (Hrun : find collectionPrefix fuel className query options s
            = (s', Ok reply)) :
  exists s1 schema sort_ c2 query2 mongoWhere filter mid,
    loadSchema collectionPrefix (find_acceptor fuel className query) s
    = (s1, Ok schema) /\
    mongo_sort schema className options = Ok sort_ /\
    resolve_relations collectionPrefix fuel className query schema
      (connection s1) = (c2, Ok query2) /\
    transformWhere schema className query2 = Ok mongoWhere /\
    (let name := collectionPrefix ++ className in
     let opts := mkOpts (truthy_or_undef (assoc_get "skip" options))
                   (truthy_or_undef (assoc_get "limit" options)) sort_ in
     calls (connection s')
     = (calls c2 ++ CallAdaptiveCollection name :: mid
        ++ [if truthy (assoc_get "count" options)
            then CallCount name filter opts
            else CallFind name filter opts])%list) /\
    (isMaster_of options = true -> filter = mongoWhere) /\
    (isMaster_of options = false ->
     exists acls,
       iterate (aclGroup_of options) = Some acls /\
       filter =
       JObj [("$and",
              JArr [mongoWhere;
                    JObj [("$or",
                           JArr (JObj [("_rperm", JObj [("$exists", JBool false)])]
                                 :: JObj [("_rperm", JObj [("$in", JArr [JStr "*"])])]
                                 :: map (fun acl =>
                                           JObj [("_rperm",
                                                  JObj [("$in", JArr [acl])])])
                                      acls))]])]).
Proof.
  unfold find in Hrun. chain Hrun.
  apply lift_res_inv_ok in Hstep0 as [-> Hsort].
  assert (Hperm0 : s2 = s0).
  { revert Hstep1. destruct (negb (isMaster_of options)); intros Hperm0.
    - chain Hperm0. apply lift_res_inv_ok in Hstep0 as [-> _].
      now apply lift_res_inv_ok in Hperm0 as [-> _].
    - unfold ret in Hperm0. now inversion Hperm0. }
  subst s2. clear Hstep1.
  apply on_conn_inv_ok in Hstep2 as (c2 & Hrel & ->).
  apply on_conn_inv_ok in Hstep3 as (c3 & Hcoll & ->).
  apply adaptiveCollection_inv_ok in Hcoll as (-> & Hlog).
  apply lift_res_inv_ok in Hstep4 as [-> Hwhere].
  apply lift_res_inv_ok in Hstep5 as [-> Hperm].
  destruct (read_filter_spec _ _ _ _ Hperm) as [Hmaster Hacl].
  cbn [connection] in Hlog.
  destruct (truthy (assoc_get "count" options)).
  - apply on_conn_inv_ok in Hrun as (c4 & Hcount & ->).
    unfold MongoCollection.count in Hcount.
    apply issue_inv_ok in Hcount as (d & _ & ->).
    exists s0, a, a0, c2, a2, a4, a5, [].
    split; [exact Hstep|]. split; [exact Hsort|]. split; [exact Hrel|].
    split; [exact Hwhere|]. split; [|now split].
    cbn. rewrite Hlog. now rewrite <- app_assoc.
  - chain Hrun. apply on_conn_inv_ok in Hstep0 as (c4 & Hfind & ->).
    apply find_last_call in Hfind as [mid Hb].
    apply lift_res_inv_ok in Hstep1 as [-> _].
    unfold ret in Hrun. inversion Hrun. subst.
    exists s0, a, a0, c2, a2, a4, a5, mid.
    split; [exact Hstep|]. split; [exact Hsort|]. split; [exact Hrel|].
    split; [exact Hwhere|]. split; [|now split].
    cbn. cbn in Hb. rewrite Hb, Hlog. now rewrite <- !app_assoc.
Qed.

End OperationCalls.

Lemma update_store_call_witness :
  let upd := [("title", JStr "B");
              ("likes", JObj [("__op", JStr "AddRelation");
                              ("objects", JArr [JObj [("objectId", JStr "u1")]])])] in
  exists before filter mongoUpdate,
    calls (connection
             (fst (update_findOneAndUpdate "" "Post"
                     (JObj [("objectId", JStr "p1")]) upd
                     [("acl", JArr [JStr "u1"])]
                     (Sample.fresh
                        [Sample.Value (Ok JUndef);
                         Sample.Value (Ok (JObj [("value",
                                                  JObj [("title", JStr "B")])]))]))))
    = (before ++ [CallAdaptiveCollection "Post";
                  CallFindAndModify "Post" filter mongoUpdate])%list /\
    mongoUpdate = JObj [("$set", JObj [("title", JStr "B")])].
Proof.
  intros upd.
  assert (Hobj : is_object upd).
  { unfold is_object. cbn.
    repeat (constructor; [cbn; intuition discriminate|]). constructor. }
  destruct (update_findOneAndUpdate "" "Post" _ upd _ _)
    as [s' [[mongoUpdate result]|e]] eqn:Hrun;
    [|vm_compute in Hrun; discriminate].
  destruct (update_store_call "" "Post" _ upd _ _ s' mongoUpdate result
              Hobj Hrun)
    as (schema & mongoWhere & filter & before & _ & Hupd & Hcalls & _).
  exists before, filter, mongoUpdate. split; [exact Hcalls|].
  vm_compute in Hupd. now inversion Hupd.
Defined.

Lemma create_store_call_witness :
  let object := [("title", JStr "A");
                 ("likes", JObj [("__op", JStr "AddRelation");
                                 ("objects",
                                  JArr [JObj [("objectId", JStr "u1")]])])] in
  exists before mongoObject,
    calls (connection (fst (create "" "Post" object [] (Sample.fresh []))))
    = (before ++ [CallCollection "Post"; CallInsert "Post" [mongoObject]])%list /\
    mongoObject = JObj [("title", JStr "A")].
Proof.
  intros object.
  assert (Hobj : is_object object).
  { unfold is_object. cbn.
    repeat (constructor; [cbn; intuition discriminate|]). constructor. }
  destruct (create "" "Post" object _ _) as [s' [reply|e]] eqn:Hrun;
    [|vm_compute in Hrun; discriminate].
  destruct (create_store_call "" "Post" object _ _ s' reply Hobj Hrun)
    as (schema & mongoObject & before & _ & Hcreate & Hcalls).
  exists before, mongoObject. split; [exact Hcalls|].
  vm_compute in Hcreate. now inversion Hcreate.
Defined.

Lemma find_store_call_witness :
  exists mid,
    calls (connection
             (fst (DatabaseController.find "" 3 "_User"
                     (JObj [("$relatedTo", Sample.liked_by_p1)])
                     [("acl", JNull)]
                     (Sample.fresh [Sample.likes_edges]))))
    = ([CallCollection "_SCHEMA"; CallSchemaLoad;
        CallAdaptiveCollection "_Join:likes:Post";
        CallFind "_Join:likes:Post" (JObj [("owningId", JStr "p1")])
          no_options]
       ++ CallAdaptiveCollection "_User" :: mid
       ++ [CallFind "_User"
             (JObj [("$and",
                JArr [JObj [("objectId",
                             JObj [("$in", JArr [JStr "u1"; JStr "u2"])])];
                      JObj [("$or",
                        JArr [JObj [("_rperm", JObj [("$exists", JBool false)])];
                              JObj [("_rperm",
                                     JObj [("$in", JArr [JStr "*"])])]])]])])
             no_options])%list.
Proof.
  destruct (DatabaseController.find "" 3 "_User" _ _ _)
    as [s' [reply|e]] eqn:Hrun; [|vm_compute in Hrun; discriminate].
  destruct (find_store_call "" 3 "_User" _ _ _ s' reply Hrun)
    as (s1 & schema & sort_ & c2 & query2 & mongoWhere & filter & mid
        & Hload & Hsort & Hrel & Hwhere & Hcalls & _ & Hacl).
  vm_compute in Hload. injection Hload as <- <-.
  vm_compute in Hsort. injection Hsort as <-.
  vm_compute in Hrel. injection Hrel as <- <-.
  vm_compute in Hwhere. injection Hwhere as <-.
  destruct (Hacl eq_refl) as (acls & Hit & ->).
  vm_compute in Hit. injection Hit as <-.
  exists mid. exact Hcalls.
Defined.
